(** * LRU and LFU caches of [src/src/cache.ts]

  A shallow embedding of the two cache classes and the properties of
  their eviction engines.

  Modelling conventions.
  - JavaScript [Map] and [Set] iterate in insertion order, and the code
    relies on it ([resize], [evict]): they are association lists and
    duplicate-free lists, with the update rules of the language.
  - [LRUNode] objects are shared between the key index and the recency
    list, so they live in an arena ([heap]) and are named by their
    position in it; [prev]/[next] hold such positions.
  - [Date.now()] is an argument [now] of every operation that reads the
    clock.
  - The [onEviction] callback is a flag (was one supplied?) and the log of
    the calls made to it.
  - [Maybe] of perhaps-ts is [option]; [FromJust]/[ToChecked] on
    [Nothing] throw. *)

From stdpp Require Import gmap strings list.
From Stdlib Require Import ZArith Lia.

Local Open Scope Z_scope.

(** ** JavaScript values the caches depend on *)

(** The numbers [maxAge] ranges over: an integer or [Number.POSITIVE_INFINITY]. *)
Inductive num : Type :=
| Fin (z : Z)
| PosInf.

Definition MAX_SAFE_INTEGER : Z := 2 ^ 53 - 1.

(** [options.maxAge || Number.POSITIVE_INFINITY]: [undefined] and [0] are falsy. *)
Definition maxAge_or_infinity (o : option num) : num :=
match o with
| None => PosInf
| Some (Fin 0) => PosInf
| Some n => n
end.

(** [maxAge !== Number.POSITIVE_INFINITY ? Just(Date.now() + maxAge) : Nothing()] *)
Definition expiry_of (now : Z) (maxAge : num) : option Z :=
match maxAge with
| PosInf => None
| Fin m => Some (now + m)
end.

(** [item.expiry.FromMaybe(Number.MAX_SAFE_INTEGER) <= Date.now()] *)
Definition expired (e : option Z) (now : Z) : bool :=
bool_decide (default MAX_SAFE_INTEGER e ≤ now).

(** What an operation can throw. [Dangling] has no counterpart in the
  program (an object reference always points to an object); the model
  stops there when an address lies outside the arena. *)
Inductive exn : Type :=
| TypeError
| UnwrapNothing
| Dangling.

(** ** [Map<K, V>]: insertion-ordered, unique keys *)
Section JSMap.
Context {K V : Type} `{EqDecision K}.

Fixpoint Map_get (k : K) (m : list (K * V)) : option V :=
  match m with
  | [] => None
  | (k', v) :: m' => if decide (k' = k) then Some v else Map_get k m'
  end.

Definition Map_has (k : K) (m : list (K * V)) : bool :=
  bool_decide (is_Some (Map_get k m)).

(** An existing key keeps its position, a new key goes last. *)
Fixpoint Map_set (k : K) (v : V) (m : list (K * V)) : list (K * V) :=
  match m with
  | [] => [(k, v)]
  | (k', v') :: m' =>
      if decide (k' = k) then (k, v) :: m' else (k', v') :: Map_set k v m'
  end.

Definition Map_delete (k : K) (m : list (K * V)) : list (K * V) :=
  filter (λ p, p.1 ≠ k) m.

(** [new Map(items)] *)
Definition Map_of (items : list (K * V)) : list (K * V) :=
  foldl (λ m p, Map_set p.1 p.2 m) [] items.
End JSMap.

(** ** [Set<K>]: insertion-ordered, no duplicates *)
Section JSSet.
Context {K : Type} `{EqDecision K}.

Definition Set_add (k : K) (s : list K) : list K :=
  if decide (k ∈ s) then s else s ++ [k].

Definition Set_delete (k : K) (s : list K) : list K :=
  filter (λ x, x ≠ k) s.

(** [keys.values().next().value] *)
Definition Set_first (s : list K) : option K := list.head s.
End JSSet.

(** ** The LRU cache *)
Module LRU.

(** A reference to an [LRUNode]: its position in the arena. *)
Abbreviation addr := nat.

Section Cache.
Context {K V : Type} `{EqDecision K}.

Record LRUNode : Type := mkNode {
  key : K;
  value : V;
  prev : option addr;
  next : option addr;
  expiry : option Z
}.

Record LRUCache : Type := mkCache {
  capacity : Z;
  cache : list (K * addr);
  heap : list LRUNode;
  head : option addr;
  tail : option addr;
  size : Z;
  maxAge : num;
  onEviction : bool;
  calls : list (K * V)
}.

Inductive outcome : Type :=
| Returns (c : LRUCache)
| Throws (e : exn) (c : LRUCache).

(** Field reads and writes through a reference. *)
Definition node_prev (h : list LRUNode) (a : addr) : option addr := h !! a ≫= prev.
Definition node_next (h : list LRUNode) (a : addr) : option addr := h !! a ≫= next.

Definition set_prev (a : addr) (p : option addr) (h : list LRUNode) : list LRUNode :=
  alter (λ n, mkNode (key n) (value n) p (next n) (expiry n)) a h.
Definition set_next (a : addr) (x : option addr) (h : list LRUNode) : list LRUNode :=
  alter (λ n, mkNode (key n) (value n) (prev n) x (expiry n)) a h.
Definition set_value (a : addr) (v : V) (h : list LRUNode) : list LRUNode :=
  alter (λ n, mkNode (key n) v (prev n) (next n) (expiry n)) a h.

Definition with_heap (c : LRUCache) (h : list LRUNode) : LRUCache :=
  mkCache (capacity c) (cache c) h (head c) (tail c) (size c) (maxAge c)
          (onEviction c) (calls c).

(** [constructor(options)] *)
Definition new (maxSize : Z) (optMaxAge : option num) (hasCallback : bool) : LRUCache :=
  mkCache maxSize [] [] None None 0 (maxAge_or_infinity optMaxAge) hasCallback [].

(** [moveToHead(node)] *)
Definition moveToHead (c : LRUCache) (a : addr) : LRUCache :=
  if decide (head c = Some a) then c else
  let h0 := heap c in
  let h1 := match node_prev h0 a with
            | Some p => set_next p (node_next h0 a) h0
            | None => h0
            end in
  let h2 := match node_next h1 a with
            | Some n => set_prev n (node_prev h1 a) h1
            | None => h1
            end in
  let t1 := if decide (tail c = Some a) then node_prev h2 a else tail c in
  let h3 := match head c with
            | Some hd => set_prev hd (Some a) h2
            | None => h2
            end in
  let h4 := set_next a (head c) h3 in
  let h5 := set_prev a None h4 in
  let t2 := match t1 with None => Some a | Some _ => t1 end in
  mkCache (capacity c) (cache c) h5 (Some a) t2 (size c) (maxAge c)
          (onEviction c) (calls c).

(** [set(key, value, { maxAge = this.maxAge } = {})] *)
Definition set (c : LRUCache) (k : K) (v : V) (opt : option num) (now : Z) : outcome :=
  let exp := expiry_of now (default (maxAge c) opt) in
  match Map_get k (cache c) with
  | Some a =>
      (* node.value = value; this.moveToHead(node): [exp] is not used here *)
      Returns (moveToHead (with_heap c (set_value a v (heap c))) a)
  | None =>
      let a := length (heap c) in
      let h0 := heap c ++ [mkNode k v None (head c) exp] in
      let h1 := match head c with
                | Some hd => set_prev hd (Some a) h0
                | None => h0
                end in
      let t1 := match tail c with None => Some a | Some t => Some t end in
      let m1 := Map_set k a (cache c) in
      let s1 := size c + 1 in
      let c1 := mkCache (capacity c) m1 h1 (Some a) t1 s1 (maxAge c)
                        (onEviction c) (calls c) in
      if decide (s1 > capacity c) then
        (* const evictedNode = this.tail; evictedNode.ToChecked() *)
        match t1 with
        | None => Throws UnwrapNothing c1
        | Some e =>
            match h1 !! e with
            | None => Throws Dangling c1
            | Some en =>
                let m2 := Map_delete (key en) m1 in
                let c2 := mkCache (capacity c) m2 h1 (Some a) t1 s1 (maxAge c)
                                  (onEviction c) (calls c) in
                (* [if (evictedNode.ToChecked().prev)] tests a Maybe object,
                   which is always truthy: [prev.FromJust()] runs in any case *)
                match prev en with
                | None => Throws UnwrapNothing c2
                | Some p =>
                    let h2 := set_next p None h1 in
                    let t2 := node_prev h2 e in
                    let log := if onEviction c
                               then match h2 !! e with
                                    | Some en' => calls c ++ [(key en', value en')]
                                    | None => calls c
                                    end
                               else calls c in
                    Returns (mkCache (capacity c) m2 h2 (Some a) t2 (s1 - 1)
                                     (maxAge c) (onEviction c) log)
                end
            end
        end
      else Returns c1
  end.

(** [delete(key)] *)
Definition delete (c : LRUCache) (k : K) : bool * LRUCache :=
  match Map_get k (cache c) with
  | Some a =>
      let h0 := heap c in
      let '(h1, hd) := match node_prev h0 a with
                       | Some p => (set_next p (node_next h0 a) h0, head c)
                       | None => (h0, node_next h0 a)
                       end in
      let '(h2, tl) := match node_next h1 a with
                       | Some n => (set_prev n (node_prev h1 a) h1, tail c)
                       | None => (h1, node_prev h1 a)
                       end in
      (true, mkCache (capacity c) (Map_delete k (cache c)) h2 hd tl (size c - 1)
                     (maxAge c) (onEviction c) (calls c))
  | None => (false, c)
  end.

(** [deleteIfExpired(key, item)] *)
Definition deleteIfExpired (c : LRUCache) (k : K) (item : addr) (now : Z)
  : bool * LRUCache :=
  if expired (heap c !! item ≫= expiry) now
  then (true, (delete c k).2)
  else (false, c).

(** [getOrDeleteIfExpired(key, item)] *)
Definition getOrDeleteIfExpired (c : LRUCache) (k : K) (item : addr) (now : Z)
  : option V * LRUCache :=
  let '(gone, c1) := deleteIfExpired c k item now in
  if gone then (None, c1)
  else let c2 := moveToHead c1 item in (value <$> heap c2 !! item, c2).

(** [peek(key)] *)
Definition peek (c : LRUCache) (k : K) (now : Z) : option V * LRUCache :=
  match Map_get k (cache c) with
  | Some item => getOrDeleteIfExpired c k item now
  | None => (None, c)
  end.

(** [get(key)] *)
Definition get (c : LRUCache) (k : K) (now : Z) : option V * LRUCache :=
  match Map_get k (cache c) with
  | Some node => getOrDeleteIfExpired c k node now
  | None => (None, c)
  end.

(** [has(key)] *)
Definition has (c : LRUCache) (k : K) : bool := Map_has k (cache c).

(** [clear()] *)
Definition clear (c : LRUCache) : LRUCache :=
  mkCache (capacity c) [] (heap c) None None 0 (maxAge c) (onEviction c) (calls c).

(** [entriesAscendingInternal()], run to its end: the loop walks the
    index as it was when the loop started (the only change made while
    walking is the removal of the entry just visited) and keeps the
    entries that have not expired. *)
Fixpoint entriesLoop (c : LRUCache) (pending : list (K * addr)) (now : Z)
  : list (K * addr) * LRUCache :=
  match pending with
  | [] => ([], c)
  | (k, a) :: rest =>
      let '(gone, c1) := deleteIfExpired c k a now in
      let '(items, c2) := entriesLoop c1 rest now in
      (if gone then items else (k, a) :: items, c2)
  end.

Definition entriesAscendingInternal (c : LRUCache) (now : Z)
  : list (K * addr) * LRUCache :=
  entriesLoop c (cache c) now.

(** [emitEvictions(cache)] *)
Definition emitEvictions (c : LRUCache) (m : list (K * addr)) : LRUCache :=
  if onEviction c
  then mkCache (capacity c) (cache c) (heap c) (head c) (tail c) (size c)
               (maxAge c) (onEviction c)
               (calls c ++ omap (λ p, (λ n, (p.1, value n)) <$> heap c !! p.2) m)
  else c.

(** [resize(newSize)] *)
Definition resize (c : LRUCache) (newSize : Z) (now : Z) : outcome :=
  if decide (newSize ≤ 0) then Throws TypeError c else
  let '(items, c1) := entriesAscendingInternal c now in
  let removeCount := Z.of_nat (length items) - newSize in
  if decide (removeCount > 0) then
    let c2 := emitEvictions c1 (Map_of (take (Z.to_nat removeCount) items)) in
    Returns (mkCache (capacity c2) (Map_of (drop (Z.to_nat removeCount) items))
                     (heap c2) (head c2) (tail c2) newSize (maxAge c2)
                     (onEviction c2) (calls c2))
  else
    Returns (mkCache (capacity c1) (Map_of items) (heap c1) (head c1) (tail c1)
                     (Z.of_nat (length items)) (maxAge c1) (onEviction c1) (calls c1)).

(** [get maxSizeValue()] *)
Definition maxSizeValue (c : LRUCache) : Z := capacity c.

(** [keys()] and [entries()], run to their end. *)
Definition keys (c : LRUCache) (now : Z) : list K * LRUCache :=
  let '(items, c1) := entriesAscendingInternal c now in (items.*1, c1).

Definition entries (c : LRUCache) (now : Z) : list (K * V) * LRUCache :=
  let '(items, c1) := entriesAscendingInternal c now in
  (omap (λ p, (λ n, (p.1, value n)) <$> heap c1 !! p.2) items, c1).

(** The cache as an operation left it, returned or thrown. *)
Definition state_of (o : outcome) : LRUCache :=
  match o with Returns c => c | Throws _ c => c end.

(** The state [set] reaches on a new key once the node is linked in and
    counted, before the capacity check. *)
Definition inserted (c : LRUCache) (k : K) (v : V) (exp : option Z) : LRUCache :=
  let a := length (heap c) in
  let h0 := heap c ++ [mkNode k v None (head c) exp] in
  let h1 := match head c with
            | Some hd => set_prev hd (Some a) h0
            | None => h0
            end in
  let t1 := match tail c with None => Some a | Some t => Some t end in
  mkCache (capacity c) (Map_set k a (cache c)) h1 (Some a) t1 (size c + 1)
          (maxAge c) (onEviction c) (calls c).

(** A run of [set] calls, each with its arguments and the clock value
    it sees; it stops at the first call that throws. *)
Fixpoint sets (c : LRUCache) (args : list (K * V * option num * Z)) : outcome :=
  match args with
  | [] => Returns c
  | (k, v, opt, now) :: rest =>
      match set c k v opt now with
      | Returns c' => sets c' rest
      | Throws e c' => Throws e c'
      end
  end.

(** The public operations that change the cache, [resize] apart, each with
    the clock value it sees. The iterators ([keys], [values], [entries],
    [forEach]) all run [entriesAscendingInternal]. *)
Inductive op : Type :=
| OpSet (k : K) (v : V) (opt : option num) (now : Z)
| OpGet (k : K) (now : Z)
| OpPeek (k : K) (now : Z)
| OpDelete (k : K)
| OpClear
| OpIterate (now : Z).

Definition step (c : LRUCache) (o : op) : LRUCache :=
  match o with
  | OpSet k v opt now => state_of (set c k v opt now)
  | OpGet k now => (get c k now).2
  | OpPeek k now => (peek c k now).2
  | OpDelete k => (delete c k).2
  | OpClear => clear c
  | OpIterate now => (entriesAscendingInternal c now).2
  end.

Definition run (c : LRUCache) (ops : list op) : LRUCache := foldl step c ops.

(** *** The recency list as a data-structure invariant *)

Definition first_or (n : option addr) (l : list addr) : option addr :=
  match l with [] => n | b :: _ => Some b end.

Definition last_or (p : option addr) (l : list addr) : option addr :=
  match last l with Some x => Some x | None => p end.

(** [dlseg h p l n]: the nodes at [l] are chained in this order by
    their [next] and [prev] fields; the first one's [prev] is [p], the
    last one's [next] is [n]. *)
Fixpoint dlseg (h : list LRUNode) (p : option addr) (l : list addr) (n : option addr)
  : Prop :=
  match l with
  | [] => True
  | a :: l' =>
      is_Some (h !! a) ∧ node_prev h a = p ∧ node_next h a = first_or n l' ∧
      dlseg h (Some a) l' n
  end.

(** [repr c l]: [l] is the recency list of [c], most recently touched
    first, and the index names exactly its nodes. *)
Record repr (c : LRUCache) (l : list addr) : Prop := mkRepr {
  repr_nodup : NoDup l;
  repr_links : dlseg (heap c) None l None;
  repr_head : head c = list.head l;
  repr_tail : tail c = last l;
  repr_keys : NoDup (cache c).*1;
  repr_index : (cache c).*2 ≡ₚ l;
  repr_key : ∀ k a, (k, a) ∈ cache c → key <$> heap c !! a = Some k;
  repr_size : size c = Z.of_nat (length l)
}.

(** What a node stores besides its links. *)
Definition data (n : LRUNode) : K * V * option Z := (key n, value n, expiry n).

(** The nodes reached from [head] by following [next], at most [fuel] of them. *)
Fixpoint walk (h : list LRUNode) (fuel : nat) (a : option addr) : list addr :=
  match fuel, a with
  | S fuel', Some x => x :: walk h fuel' (node_next h x)
  | _, _ => []
  end.

(** The keys met on that walk. *)
Definition recency (c : LRUCache) (fuel : nat) : list K :=
  omap (λ a, key <$> heap c !! a) (walk (heap c) fuel (head c)).

(** [values()], run to its end. *)
Definition values (c : LRUCache) (now : Z) : list V * LRUCache :=
  let '(items, c1) := entriesAscendingInternal c now in
  (omap (λ p, value <$> heap c1 !! p.2) items, c1).

(** [entriesDescending()], run to its end: the loop walks a reversed copy
    of the index and reads [value.value] when it yields. *)
Fixpoint descendingLoop (c : LRUCache) (pending : list (K * addr)) (now : Z)
  : list (K * V) * LRUCache :=
  match pending with
  | [] => ([], c)
  | (k, a) :: rest =>
      let '(gone, c1) := deleteIfExpired c k a now in
      let '(items, c2) := descendingLoop c1 rest now in
      (if gone then items
       else match heap c1 !! a with
            | Some n => (k, value n) :: items
            | None => items
            end, c2)
  end.

Definition entriesDescending (c : LRUCache) (now : Z) : list (K * V) * LRUCache :=
  descendingLoop c (reverse (cache c)) now.

(** What the cache holds under a key, value and expiry, read without
    touching anything. *)
Definition entry (c : LRUCache) (k : K) : option (V * option Z) :=
  a ← Map_get k (cache c); (λ n, (value n, expiry n)) <$> heap c !! a.

(** Whether the node an index pair names has not expired at [now]. *)
Definition live (c : LRUCache) (now : Z) (p : K * addr) : bool :=
  negb (expired (heap c !! p.2 ≫= expiry) now).

End Cache.
End LRU.

(** ** The LFU cache *)
Module LFU.
Section Cache.
Context {K V : Type} `{EqDecision K}.

Record LFUNode : Type := mkNode {
  key : K;
  value : V;
  freq : Z;
  expiry : option Z
}.

(** An [LFUNode] is reachable from the index only, so the index holds
    the nodes themselves. [freqMap] is never iterated: a finite map. *)
Record LFUCache : Type := mkCache {
  capacity : Z;
  cache : list (K * LFUNode);
  freqMap : gmap Z (list K);
  minFreq : Z;
  size : Z;
  maxAge : num;
  onEviction : bool;
  calls : list (K * V)
}.

(** [constructor(options)] *)
Definition new (maxSize : Z) (optMaxAge : option num) (hasCallback : bool) : LFUCache :=
  mkCache maxSize [] ∅ 0 0 (maxAge_or_infinity optMaxAge) hasCallback [].

(** [this.freqMap.get(freq)?.delete(key)] followed by
    [if (this.freqMap.get(freq)?.size === 0) { this.freqMap.delete(freq); ... }];
    the second component tells whether the bucket was dropped. *)
Definition unlink (fm : gmap Z (list K)) (f : Z) (k : K) : gmap Z (list K) * bool :=
  let fm1 := match fm !! f with
             | Some b => <[f := Set_delete k b]> fm
             | None => fm
             end in
  match fm1 !! f with
  | Some [] => (base.delete f fm1, true)
  | _ => (fm1, false)
  end.

(** [if (!this.freqMap.has(f)) this.freqMap.set(f, new Set()); this.freqMap.get(f)?.add(key)] *)
Definition link (fm : gmap Z (list K)) (f : Z) (k : K) : gmap Z (list K) :=
  let fm1 := match fm !! f with
             | Some _ => fm
             | None => <[f := []]> fm
             end in
  match fm1 !! f with
  | Some b => <[f := Set_add k b]> fm1
  | None => fm1
  end.

(** [updateFrequency(node)], the node being the one the index holds
    under [k]. *)
Definition updateFrequency (c : LFUCache) (k : K) : LFUCache :=
  match Map_get k (cache c) with
  | None => c
  | Some node =>
      let f := freq node in
      let '(fm1, dropped) := unlink (freqMap c) f (key node) in
      let mf := if dropped && bool_decide (minFreq c = f)
                then minFreq c + 1 else minFreq c in
      let node' := mkNode (key node) (value node) (f + 1) (expiry node) in
      mkCache (capacity c) (Map_set k node' (cache c))
              (link fm1 (f + 1) (key node)) mf (size c) (maxAge c)
              (onEviction c) (calls c)
  end.

(** [evict()] *)
Definition evict (c : LFUCache) : LFUCache :=
  match freqMap c !! minFreq c with
  | Some keys =>
      let ko := Set_first keys in
      let keys' := match ko with Some k => Set_delete k keys | None => keys end in
      let fm := match keys' with
                | [] => base.delete (minFreq c) (freqMap c)
                | _ => <[minFreq c := keys']> (freqMap c)
                end in
      match ko with
      | Some k =>
          match Map_get k (cache c) with
          | Some node =>
              mkCache (capacity c) (Map_delete k (cache c)) fm (minFreq c)
                      (size c - 1) (maxAge c) (onEviction c)
                      (if onEviction c then calls c ++ [(k, value node)] else calls c)
          | None =>
              mkCache (capacity c) (cache c) fm (minFreq c) (size c) (maxAge c)
                      (onEviction c) (calls c)
          end
      | None =>
          mkCache (capacity c) (cache c) fm (minFreq c) (size c) (maxAge c)
                  (onEviction c) (calls c)
      end
  | None => c
  end.

(** [set(key, value, { maxAge = this.maxAge } = {})] *)
Definition set (c : LFUCache) (k : K) (v : V) (opt : option num) (now : Z) : LFUCache :=
  let exp := expiry_of now (default (maxAge c) opt) in
  match Map_get k (cache c) with
  | Some node =>
      let node' := mkNode (key node) v (freq node) exp in
      updateFrequency
        (mkCache (capacity c) (Map_set k node' (cache c)) (freqMap c) (minFreq c)
                 (size c) (maxAge c) (onEviction c) (calls c)) k
  | None =>
      let c1 := if decide (size c >= capacity c) then evict c else c in
      mkCache (capacity c1) (Map_set k (mkNode k v 1 exp) (cache c1))
              (link (freqMap c1) 1 k) 1 (size c1 + 1) (maxAge c1)
              (onEviction c1) (calls c1)
  end.

(** [delete(key)] *)
Definition delete (c : LFUCache) (k : K) : bool * LFUCache :=
  match Map_get k (cache c) with
  | Some node =>
      let f := freq node in
      let '(fm1, dropped) := unlink (freqMap c) f k in
      let mf := if dropped && bool_decide (minFreq c = f)
                then minFreq c + 1 else minFreq c in
      (true, mkCache (capacity c) (Map_delete k (cache c)) fm1 mf (size c - 1)
                     (maxAge c) (onEviction c) (calls c))
  | None => (false, c)
  end.

(** [deleteIfExpired(key, item)] *)
Definition deleteIfExpired (c : LFUCache) (k : K) (item : LFUNode) (now : Z)
  : bool * LFUCache :=
  if expired (expiry item) now then (true, (delete c k).2) else (false, c).

(** [getOrDeleteIfExpired(key, item)] *)
Definition getOrDeleteIfExpired (c : LFUCache) (k : K) (item : LFUNode) (now : Z)
  : option V * LFUCache :=
  let '(gone, c1) := deleteIfExpired c k item now in
  if gone then (None, c1)
  else let c2 := updateFrequency c1 k in (Some (value item), c2).

(** [peek(key)] *)
Definition peek (c : LFUCache) (k : K) (now : Z) : option V * LFUCache :=
  match Map_get k (cache c) with
  | Some item => getOrDeleteIfExpired c k item now
  | None => (None, c)
  end.

(** [get(key)] *)
Definition get (c : LFUCache) (k : K) (now : Z) : option V * LFUCache :=
  match Map_get k (cache c) with
  | Some node => getOrDeleteIfExpired c k node now
  | None => (None, c)
  end.

(** [has(key)] *)
Definition has (c : LFUCache) (k : K) : bool := Map_has k (cache c).

(** [clear()] *)
Definition clear (c : LFUCache) : LFUCache :=
  mkCache (capacity c) [] ∅ 0 0 (maxAge c) (onEviction c) (calls c).

(** [entriesAscendingInternal()], run to its end. *)
Fixpoint entriesLoop (c : LFUCache) (pending : list (K * LFUNode)) (now : Z)
  : list (K * LFUNode) * LFUCache :=
  match pending with
  | [] => ([], c)
  | (k, n) :: rest =>
      let '(gone, c1) := deleteIfExpired c k n now in
      let '(items, c2) := entriesLoop c1 rest now in
      (if gone then items else (k, n) :: items, c2)
  end.

Definition entriesAscendingInternal (c : LFUCache) (now : Z)
  : list (K * LFUNode) * LFUCache :=
  entriesLoop c (cache c) now.

(** [emitEvictions(cache)] *)
Definition emitEvictions (c : LFUCache) (m : list (K * LFUNode)) : LFUCache :=
  if onEviction c
  then mkCache (capacity c) (cache c) (freqMap c) (minFreq c) (size c) (maxAge c)
               (onEviction c) (calls c ++ ((λ p, (p.1, value p.2)) <$> m))
  else c.

(** [resize(newSize)]; [inl] is the thrown [TypeError]. *)
Definition resize (c : LFUCache) (newSize : Z) (now : Z) : exn + LFUCache :=
  if decide (newSize ≤ 0) then inl TypeError else
  let '(items, c1) := entriesAscendingInternal c now in
  let removeCount := Z.of_nat (length items) - newSize in
  if decide (removeCount > 0) then
    let c2 := emitEvictions c1 (Map_of (take (Z.to_nat removeCount) items)) in
    inr (mkCache (capacity c2) (Map_of (drop (Z.to_nat removeCount) items))
                 (freqMap c2) (minFreq c2) newSize (maxAge c2)
                 (onEviction c2) (calls c2))
  else
    inr (mkCache (capacity c1) (Map_of items) (freqMap c1) (minFreq c1)
                 (Z.of_nat (length items)) (maxAge c1) (onEviction c1) (calls c1)).

(** [get maxSizeValue()] *)
Definition maxSizeValue (c : LFUCache) : Z := capacity c.

(** A run of [set] calls, each with its arguments and the clock value
    it sees. *)
Definition sets (c : LFUCache) (args : list (K * V * option num * Z)) : LFUCache :=
  foldl (λ c '(k, v, opt, now), set c k v opt now) c args.

(** The public operations that change the cache, [resize] apart, each with
    the clock value it sees. *)
Inductive op : Type :=
| OpSet (k : K) (v : V) (opt : option num) (now : Z)
| OpGet (k : K) (now : Z)
| OpPeek (k : K) (now : Z)
| OpDelete (k : K)
| OpClear
| OpIterate (now : Z).

Definition step (c : LFUCache) (o : op) : LFUCache :=
  match o with
  | OpSet k v opt now => set c k v opt now
  | OpGet k now => (get c k now).2
  | OpPeek k now => (peek c k now).2
  | OpDelete k => (delete c k).2
  | OpClear => clear c
  | OpIterate now => (entriesAscendingInternal c now).2
  end.

Definition run (c : LFUCache) (ops : list op) : LFUCache := foldl step c ops.

(** *** The frequency buckets as a data-structure invariant *)

(** [wf c]: every index entry sits in the bucket of its frequency, and
    every bucket key is an index entry of that frequency. *)
Record wf (c : LFUCache) : Prop := mkWf {
  wf_keys : NoDup (cache c).*1;
  wf_size : size c = Z.of_nat (length (cache c));
  wf_node : ∀ k nd, Map_get k (cache c) = Some nd →
            key nd = k ∧ 1 ≤ freq nd ∧ ∃ b, freqMap c !! freq nd = Some b ∧ k ∈ b;
  wf_bucket : ∀ f b, freqMap c !! f = Some b →
            b ≠ [] ∧ NoDup b ∧
            ∀ k, k ∈ b → ∃ nd, Map_get k (cache c) = Some nd ∧ freq nd = f
}.

Definition nonempty_bucket (c : LFUCache) (f : Z) : Prop :=
  ∃ b, freqMap c !! f = Some b ∧ b ≠ [].

(** [min_ok c]: [minFreq] is the smallest frequency with a non-empty
    bucket, and 0 when the cache is empty. *)
Definition min_ok (c : LFUCache) : Prop :=
  match cache c with
  | [] => minFreq c = 0
  | _ :: _ => nonempty_bucket c (minFreq c) ∧
              ∀ f, nonempty_bucket c f → minFreq c ≤ f
  end.

(** [minFreq] is only read by [evict], which [set] calls on a full cache:
    that is where it has to be right. *)
Definition full_min (c : LFUCache) : Prop := size c >= capacity c → min_ok c.

(** [keys()], [values()] and [entries()], run to their end. *)
Definition keys (c : LFUCache) (now : Z) : list K * LFUCache :=
  let '(items, c1) := entriesAscendingInternal c now in (items.*1, c1).

Definition values (c : LFUCache) (now : Z) : list V * LFUCache :=
  let '(items, c1) := entriesAscendingInternal c now in ((λ p, value p.2) <$> items, c1).

Definition entries (c : LFUCache) (now : Z) : list (K * V) * LFUCache :=
  let '(items, c1) := entriesAscendingInternal c now in
  ((λ p, (p.1, value p.2)) <$> items, c1).

(** Whether an index pair has not expired at [now]. *)
Definition live (now : Z) (p : K * LFUNode) : bool :=
  negb (expired (expiry p.2) now).

End Cache.
End LFU.

(** ** Caches of the test suite: string keys, integer values *)
Module Examples.
(** [new LRUCache<string, number>({ maxSize: 3, onEviction })] after
    [set('a', 1); set('b', 2); set('c', 3)], all at clock value 0. *)
Definition lru_abc : @LRU.LRUCache string Z :=
  LRU.state_of (LRU.sets (LRU.new 3 None true)
                  [("a", 1, None, 0); ("b", 2, None, 0); ("c", 3, None, 0)]).


(** [lru_abc] after [resize(2)]. *)
Definition lru_resized : @LRU.LRUCache string Z :=
  LRU.state_of (LRU.resize lru_abc 2 0).

(** [new LRUCache({ maxSize: 3 })] after [set('a', 1, { maxAge: 1000 })]
    at clock value [t0]. *)
Definition lru_ttl (t0 : Z) : @LRU.LRUCache string Z :=
  LRU.state_of (LRU.set (LRU.new 3 None false) "a" 1 (Some (Fin 1000)) t0).

(** [new LFUCache<string, number>({ maxSize: 3, onEviction })] after
    [set('a', 1); set('b', 2); set('c', 3)]. *)
Definition lfu_abc : @LFU.LFUCache string Z :=
  LFU.sets (LFU.new 3 None true) [("a", 1, None, 0); ("b", 2, None, 0); ("c", 3, None, 0)].

(** ... and after [get('a'); get('a'); get('b')]. *)
Definition lfu_used : @LFU.LFUCache string Z :=
  (LFU.get (LFU.get (LFU.get lfu_abc "a" 0).2 "a" 0).2 "b" 0).2.


Definition lfu_ttl (t0 : Z) : @LFU.LFUCache string Z :=
  LFU.set (LFU.new 3 None false) "a" 1 (Some (Fin 1000)) t0.

(** [set('a', 1, { maxAge: 1000 }); set('a', 2, { maxAge: 5000 })], both
    at clock value 0. *)
Definition lru_overwritten : @LRU.LRUCache string Z :=
  LRU.state_of (LRU.set (lru_ttl 0) "a" 2 (Some (Fin 5000)) 0).

Definition lfu_overwritten : @LFU.LFUCache string Z :=
  LFU.set (lfu_ttl 0) "a" 2 (Some (Fin 5000)) 0.

(** [set('a', 1)] at clock value 0, then [set('a', 2, { maxAge: 0 })]
    at 10. *)
Definition lru_zero : @LRU.LRUCache string Z :=
  LRU.state_of
    (LRU.set (LRU.state_of (LRU.set (LRU.new 3 None false) "a" 1 None 0))
             "a" 2 (Some (Fin 0)) 10).

Definition lfu_zero : @LFU.LFUCache string Z :=
  LFU.set (LFU.set (LFU.new 3 None false) "a" 1 None 0) "a" 2 (Some (Fin 0)) 10.

(** [lru_resized] after [set('d', 4); set('e', 5)]. *)
Definition lru_resized_full : @LRU.LRUCache string Z :=
  LRU.state_of (LRU.sets lru_resized [("d", 4, None, 0); ("e", 5, None, 0)]).

(** [set('a', 1); delete('a')] on a fresh LFU cache. *)
Definition lfu_emptied : @LFU.LFUCache string Z :=
  (LFU.delete (LFU.set (LFU.new 3 None false) "a" 1 None 0) "a").2.

(** [set('a', 1); set('b', 2); get('b'); get('b'); delete('a')]. *)
Definition lfu_gap : @LFU.LFUCache string Z :=
  (LFU.delete
     (LFU.get (LFU.get (LFU.sets (LFU.new 3 None false)
                          [("a", 1, None, 0); ("b", 2, None, 0)]) "b" 0).2 "b" 0).2
     "a").2.

(** The cache a [resize] left, or the one it was given when it threw. *)
Definition lfu_after (x : @LFU.LFUCache string Z) (r : exn + @LFU.LFUCache string Z)
  : @LFU.LFUCache string Z :=
  match r with inr x' => x' | inl _ => x end.

(** [lfu_abc] after [resize(2)]. *)
Definition lfu_resized : @LFU.LFUCache string Z :=
  lfu_after lfu_abc (LFU.resize lfu_abc 2 0).

(** [lfu_resized] after [set('d', 4); set('e', 5)]. *)
Definition lfu_resized_full : @LFU.LFUCache string Z :=
  LFU.sets lfu_resized [("d", 4, None, 0); ("e", 5, None, 0)].

(** [set('a', 1); get('a'); set('b', 2); set('c', 3); resize(2);
    set('a', 9)]. *)
Definition lfu_twice : @LFU.LFUCache string Z :=
  let x := LFU.sets (LFU.get (LFU.set (LFU.new 3 None false) "a" 1 None 0) "a" 0).2
             [("b", 2, None, 0); ("c", 3, None, 0)] in
  LFU.set (lfu_after x (LFU.resize x 2 0)) "a" 9 None 0.

(** [new LRUCache({ maxSize: 3, onEviction })] after
    [set('a', 1, { maxAge: 1000 }); set('b', 2); set('c', 3, { maxAge: 50 })],
    all at clock value 0. *)
Definition lru_mixed : @LRU.LRUCache string Z :=
  LRU.state_of (LRU.sets (LRU.new 3 None true)
                  [("a", 1, Some (Fin 1000), 0); ("b", 2, None, 0);
                   ("c", 3, Some (Fin 50), 0)]).

(** The same calls on [new LFUCache({ maxSize: 3, onEviction })]. *)
Definition lfu_mixed : @LFU.LFUCache string Z :=
  LFU.sets (LFU.new 3 None true)
    [("a", 1, Some (Fin 1000), 0); ("b", 2, None, 0); ("c", 3, Some (Fin 50), 0)].
End Examples.

(** * Facts about the containers *)
Section JSMapFacts.
Context {K V : Type} `{EqDecision K}.
Implicit Types (m : list (K * V)) (k : K) (v : V).

Lemma Map_get_None k m : Map_get k m = None ↔ k ∉ m.*1.
Proof.
  induction m as [|[k' v'] m IH]; simpl.
  - split; [intros _; apply not_elem_of_nil | done].
  - rewrite not_elem_of_cons. destruct (decide (k' = k)) as [->|Hne].
    + split; [done | intros [? _]; done].
    + rewrite IH. split; [intros ?; split; [congruence | done] | intros [_ ?]; done].
Qed.

Lemma Map_get_elem k v m : Map_get k m = Some v → (k, v) ∈ m.
Proof.
  induction m as [|[k' v'] m IH]; simpl; [done|].
  destruct (decide (k' = k)) as [->|Hne].
  - intros [= ->]. apply list_elem_of_here.
  - intros ?. apply list_elem_of_further. by apply IH.
Qed.

Lemma Map_get_key k v m : Map_get k m = Some v → k ∈ m.*1.
Proof.
  intros Hg. apply Map_get_elem in Hg.
  apply list_elem_of_fmap. by exists (k, v).
Qed.

Lemma Map_get_NoDup k v m : NoDup m.*1 → (k, v) ∈ m → Map_get k m = Some v.
Proof.
  induction m as [|[k' v'] m IH]; simpl.
  - intros _ Hin. by apply elem_of_nil in Hin.
  - rewrite NoDup_cons. intros [Hnin Hnd] Hin.
    apply elem_of_cons in Hin as [[= -> ->]|Hin].
    + by rewrite decide_True.
    + destruct (decide (k' = k)) as [->|Hne]; [|by apply IH].
      exfalso. apply Hnin. apply list_elem_of_fmap. by exists (k, v).
Qed.

Lemma Map_get_is_Some k m : is_Some (Map_get k m) ↔ k ∈ m.*1.
Proof.
  rewrite <- not_eq_None_Some, Map_get_None.
  split; [apply dec_stable | by intros ? ?].
Qed.

Lemma Map_set_fresh k v m : k ∉ m.*1 → Map_set k v m = m ++ [(k, v)].
Proof.
  induction m as [|[k' v'] m IH]; simpl; [done|].
  rewrite not_elem_of_cons. intros [Hne Hnin].
  rewrite decide_False by congruence. by rewrite IH.
Qed.

Lemma Map_set_keys k v m : k ∈ m.*1 → (Map_set k v m).*1 = m.*1.
Proof.
  induction m as [|[k' v'] m IH]; simpl.
  - intros Hin. by apply elem_of_nil in Hin.
  - intros Hin. destruct (decide (k' = k)) as [->|Hne]; [done|].
    simpl. f_equal. apply IH.
    apply elem_of_cons in Hin as [?|?]; [congruence | done].
Qed.

Lemma Map_get_set k k' v m :
  Map_get k' (Map_set k v m) = if decide (k = k') then Some v else Map_get k' m.
Proof.
  induction m as [|[k0 v0] m IH]; simpl.
  - by destruct (decide (k = k')).
  - destruct (decide (k0 = k)) as [->|Hne]; simpl.
    + by destruct (decide (k = k')).
    + rewrite IH. destruct (decide (k0 = k')) as [->|?]; [|done].
      by rewrite decide_False.
Qed.

Lemma Map_get_delete k k' m :
  Map_get k' (Map_delete k m) = if decide (k = k') then None else Map_get k' m.
Proof.
  unfold Map_delete. induction m as [|[k0 v0] m IH]; simpl.
  - by destruct (decide (k = k')).
  - rewrite filter_cons. simpl. destruct (decide (k0 ≠ k)) as [Hne|Heq]; simpl.
    + rewrite IH. destruct (decide (k0 = k')) as [->|?]; [|done].
      by rewrite decide_False.
    + apply dec_stable in Heq as ->. rewrite IH.
      by destruct (decide (k = k')).
Qed.

Lemma Map_delete_keys k m : (Map_delete k m).*1 = filter (λ x, x ≠ k) m.*1.
Proof.
  unfold Map_delete. induction m as [|[k0 v0] m IH]; [done|].
  rewrite fmap_cons, !filter_cons. simpl.
  destruct (decide (k0 ≠ k)); csimpl; by rewrite IH.
Qed.

Lemma Map_delete_absent k m : k ∉ m.*1 → Map_delete k m = m.
Proof.
  unfold Map_delete. induction m as [|[k0 v0] m IH]; [done|].
  rewrite fmap_cons, not_elem_of_cons. simpl. intros [Hne Hnin].
  rewrite filter_cons, decide_True by (simpl; congruence).
  by rewrite IH.
Qed.

(** Deleting a present key of a well-formed map removes exactly one pair. *)
Lemma Map_delete_split k v m :
  NoDup m.*1 → Map_get k m = Some v →
  ∃ m1 m2, m = m1 ++ (k, v) :: m2 ∧ Map_delete k m = m1 ++ m2.
Proof.
  induction m as [|[k0 v0] m IH]; simpl; [done|].
  rewrite NoDup_cons. intros [Hnin Hnd] Hg.
  destruct (decide (k0 = k)) as [->|Hne].
  - injection Hg as ->. exists [], m. split; [done|].
    unfold Map_delete. rewrite filter_cons, decide_False by (simpl; tauto).
    by apply Map_delete_absent.
  - destruct (IH Hnd Hg) as (m1 & m2 & -> & Hd).
    exists ((k0, v0) :: m1), m2. split; [done|].
    unfold Map_delete in *. rewrite filter_cons, decide_True by done.
    simpl. by rewrite Hd.
Qed.

Lemma Map_of_snoc (items : list (K * V)) p :
  Map_of (items ++ [p]) = Map_set p.1 p.2 (Map_of items).
Proof. unfold Map_of. by rewrite foldl_app. Qed.

(** [new Map(items)] is [items] itself when no key repeats. *)
Lemma Map_of_NoDup (items : list (K * V)) : NoDup items.*1 → Map_of items = items.
Proof.
  induction items as [|[k v] items IH] using rev_ind; [done|].
  rewrite fmap_app, NoDup_app. simpl. intros (Hnd & Hdisj & _).
  rewrite Map_of_snoc, IH by done. simpl.
  apply Map_set_fresh. intros Hin. apply (Hdisj k Hin), list_elem_of_here.
Qed.
End JSMapFacts.

Lemma NoDup_app_remove {A} (l1 l2 : list A) (a : A) :
NoDup (l1 ++ a :: l2) → NoDup (l1 ++ l2).
Proof.
rewrite !NoDup_app, NoDup_cons. intros (H1 & Hd & _ & H2).
split_and!; [done | | done].
intros x Hx Hx2. apply (Hd x Hx). by apply list_elem_of_further.
Qed.

Section JSSetFacts.
Context {K : Type} `{EqDecision K}.
Implicit Types (s : list K) (k : K).

Lemma elem_of_Set_add k k' s : k' ∈ Set_add k s ↔ k' = k ∨ k' ∈ s.
Proof.
  unfold Set_add. destruct (decide (k ∈ s)).
  - split; [by right | intros [->|?]; done].
  - rewrite elem_of_app, list_elem_of_singleton. tauto.
Qed.

Lemma Set_add_NoDup k s : NoDup s → NoDup (Set_add k s).
Proof.
  unfold Set_add. destruct (decide (k ∈ s)); [done|].
  intros Hnd. apply NoDup_app. split_and!; [done | | apply NoDup_singleton].
  intros x Hx Hx'. apply list_elem_of_singleton in Hx'. by subst.
Qed.

Lemma Set_add_nonempty k s : Set_add k s ≠ [].
Proof.
  unfold Set_add. destruct (decide (k ∈ s)) as [Hin|].
  - intros ->. by apply elem_of_nil in Hin.
  - by destruct s.
Qed.

Lemma elem_of_Set_delete k k' s : k' ∈ Set_delete k s ↔ k' ≠ k ∧ k' ∈ s.
Proof. unfold Set_delete. by rewrite list_elem_of_filter. Qed.

Lemma Set_delete_NoDup k s : NoDup s → NoDup (Set_delete k s).
Proof. apply NoDup_filter. Qed.

Lemma Set_first_elem k s : Set_first s = Some k → k ∈ s.
Proof. destruct s; [done|]. intros [= ->]. apply list_elem_of_here. Qed.

(** In a duplicate-free set, deleting the first key leaves the rest. *)
Lemma Set_delete_first k s : k ∉ s → Set_delete k (k :: s) = s.
Proof.
  intros Hnin. unfold Set_delete.
  rewrite filter_cons, decide_False by tauto.
  induction s as [|x s IH]; [done|].
  apply not_elem_of_cons in Hnin as [Hne Hnin].
  rewrite filter_cons, decide_True by congruence. by rewrite IH.
Qed.
End JSSetFacts.

(** * The LRU cache: the recency list *)
Module LRUFacts.
Import LRU.
Section Heap.
Context {K V : Type} `{EqDecision K}.
Abbreviation LRUNode := (@LRUNode K V).
Abbreviation LRUCache := (@LRUCache K V).
Implicit Types (h : list LRUNode) (a b : addr) (l : list addr) (c : LRUCache).

(** Reading a field after a write. *)
Lemma lookup_set_prev h a b p :
  set_prev a p h !! b =
    if decide (a = b)
    then (λ n, mkNode (key n) (value n) p (next n) (expiry n)) <$> h !! b
    else h !! b.
Proof.
  unfold set_prev. destruct (decide (a = b)) as [->|Hne].
  - apply list_lookup_alter_eq.
  - by apply list_lookup_alter_ne.
Qed.

Lemma lookup_set_next h a b x :
  set_next a x h !! b =
    if decide (a = b)
    then (λ n, mkNode (key n) (value n) (prev n) x (expiry n)) <$> h !! b
    else h !! b.
Proof.
  unfold set_next. destruct (decide (a = b)) as [->|Hne].
  - apply list_lookup_alter_eq.
  - by apply list_lookup_alter_ne.
Qed.

Lemma lookup_set_value h a b v :
  set_value a v h !! b =
    if decide (a = b)
    then (λ n, mkNode (key n) v (prev n) (next n) (expiry n)) <$> h !! b
    else h !! b.
Proof.
  unfold set_value. destruct (decide (a = b)) as [->|Hne].
  - apply list_lookup_alter_eq.
  - by apply list_lookup_alter_ne.
Qed.

Lemma is_Some_set_prev h a b p : is_Some (set_prev a p h !! b) ↔ is_Some (h !! b).
Proof. rewrite lookup_set_prev. case_decide; [apply fmap_is_Some | done]. Qed.
Lemma is_Some_set_next h a b x : is_Some (set_next a x h !! b) ↔ is_Some (h !! b).
Proof. rewrite lookup_set_next. case_decide; [apply fmap_is_Some | done]. Qed.
Lemma is_Some_set_value h a b v : is_Some (set_value a v h !! b) ↔ is_Some (h !! b).
Proof. rewrite lookup_set_value. case_decide; [apply fmap_is_Some | done]. Qed.

Lemma prev_set_prev h a b p :
  is_Some (h !! a) →
  node_prev (set_prev a p h) b = if decide (a = b) then p else node_prev h b.
Proof.
  intros [n Hn]. unfold node_prev. rewrite lookup_set_prev.
  case_decide; [subst; by rewrite Hn | done].
Qed.

Lemma prev_set_prev_ne h a b p : a ≠ b → node_prev (set_prev a p h) b = node_prev h b.
Proof. intros. unfold node_prev. by rewrite lookup_set_prev, decide_False. Qed.

Lemma next_set_prev h a b p : node_next (set_prev a p h) b = node_next h b.
Proof.
  unfold node_next. rewrite lookup_set_prev.
  case_decide; [by destruct (h !! b) | done].
Qed.

Lemma next_set_next h a b x :
  is_Some (h !! a) →
  node_next (set_next a x h) b = if decide (a = b) then x else node_next h b.
Proof.
  intros [n Hn]. unfold node_next. rewrite lookup_set_next.
  case_decide; [subst; by rewrite Hn | done].
Qed.

Lemma next_set_next_ne h a b x : a ≠ b → node_next (set_next a x h) b = node_next h b.
Proof. intros. unfold node_next. by rewrite lookup_set_next, decide_False. Qed.

Lemma prev_set_next h a b x : node_prev (set_next a x h) b = node_prev h b.
Proof.
  unfold node_prev. rewrite lookup_set_next.
  case_decide; [by destruct (h !! b) | done].
Qed.

Lemma prev_set_value h a b v : node_prev (set_value a v h) b = node_prev h b.
Proof.
  unfold node_prev. rewrite lookup_set_value.
  case_decide; [by destruct (h !! b) | done].
Qed.

Lemma next_set_value h a b v : node_next (set_value a v h) b = node_next h b.
Proof.
  unfold node_next. rewrite lookup_set_value.
  case_decide; [by destruct (h !! b) | done].
Qed.

Lemma data_set_prev h a b p : data <$> set_prev a p h !! b = data <$> h !! b.
Proof. rewrite lookup_set_prev. case_decide; [by destruct (h !! b) | done]. Qed.
Lemma data_set_next h a b x : data <$> set_next a x h !! b = data <$> h !! b.
Proof. rewrite lookup_set_next. case_decide; [by destruct (h !! b) | done]. Qed.

Lemma data_key (o o' : option LRUNode) : data <$> o' = data <$> o → key <$> o' = key <$> o.
Proof. destruct o, o'; simpl; intros [=]; congruence. Qed.

Lemma key_set_value h a b v : key <$> set_value a v h !! b = key <$> h !! b.
Proof. rewrite lookup_set_value. case_decide; [by destruct (h !! b) | done]. Qed.

(** ** Segments *)

Lemma dlseg_lookup h p l n a : dlseg h p l n → a ∈ l → is_Some (h !! a).
Proof.
  revert p. induction l as [|b l IH]; intros p; simpl.
  - intros _ Hin. by apply elem_of_nil in Hin.
  - intros (Hb & _ & _ & Hl) Hin.
    apply elem_of_cons in Hin as [->|Hin]; [done | by eapply IH].
Qed.

(** A segment only depends on the link fields of its own nodes. *)
Lemma dlseg_ext h h' p l n :
  (∀ a, a ∈ l → (is_Some (h !! a) → is_Some (h' !! a)) ∧
                node_prev h' a = node_prev h a ∧ node_next h' a = node_next h a) →
  dlseg h p l n → dlseg h' p l n.
Proof.
  revert p. induction l as [|b l IH]; intros p Hext; simpl; [done|].
  intros (Hb & Hp & Hn & Hl).
  destruct (Hext b (list_elem_of_here _ _)) as (Hs & Hp' & Hn').
  split_and!; [by apply Hs | congruence | congruence |].
  apply IH; [|done]. intros a Ha. apply Hext. by apply list_elem_of_further.
Qed.

Lemma dlseg_set_prev_out h p l n a q :
  a ∉ l → dlseg h p l n → dlseg (set_prev a q h) p l n.
Proof.
  intros Hnin. apply dlseg_ext. intros b Hb.
  assert (a ≠ b) by (intros ->; done).
  rewrite is_Some_set_prev, prev_set_prev_ne, next_set_prev by done. done.
Qed.

Lemma dlseg_set_next_out h p l n a x :
  a ∉ l → dlseg h p l n → dlseg (set_next a x h) p l n.
Proof.
  intros Hnin. apply dlseg_ext. intros b Hb.
  assert (a ≠ b) by (intros ->; done).
  rewrite is_Some_set_next, next_set_next_ne, prev_set_next by done. done.
Qed.

Lemma dlseg_set_value h p l n a v : dlseg h p l n → dlseg (set_value a v h) p l n.
Proof.
  apply dlseg_ext. intros b Hb.
  rewrite is_Some_set_value, prev_set_value, next_set_value. done.
Qed.

Lemma dlseg_alloc h p l n nd : dlseg h p l n → dlseg (h ++ [nd]) p l n.
Proof.
  intros Hseg. eapply dlseg_ext; [|done]. intros a Ha.
  pose proof (dlseg_lookup _ _ _ _ _ Hseg Ha) as Hs.
  unfold node_prev, node_next.
  rewrite lookup_app_l by (by apply lookup_lt_is_Some). done.
Qed.

Lemma dlseg_set_prev_first h p l n a q :
  a ∉ l → dlseg h p (a :: l) n → dlseg (set_prev a q h) q (a :: l) n.
Proof.
  intros Hnin (Ha & Hp & Hn & Hl). simpl.
  rewrite is_Some_set_prev, next_set_prev, prev_set_prev, decide_True by done.
  split_and!; [done..|]. by apply dlseg_set_prev_out.
Qed.

Lemma dlseg_app h p l1 l2 n :
  dlseg h p (l1 ++ l2) n ↔
  dlseg h p l1 (first_or n l2) ∧ dlseg h (last_or p l1) l2 n.
Proof.
  revert p. induction l1 as [|a l1 IH]; intros p.
  - simpl. unfold last_or. simpl. tauto.
  - simpl. rewrite IH.
    assert (first_or n (l1 ++ l2) = first_or (first_or n l2) l1) as ->
      by (by destruct l1).
    assert (last_or (Some a) l1 = last_or p (a :: l1)) as ->.
    { unfold last_or. destruct l1 as [|b l1]; [done|].
      rewrite last_cons_cons.
      by destruct (proj2 (last_is_Some (b :: l1))) as [x ->]. }
    tauto.
Qed.

Lemma last_or_snoc p l a : last_or p (l ++ [a]) = Some a.
Proof. unfold last_or. by rewrite last_snoc. Qed.

Lemma dlseg_set_next_last h p l n a x :
  a ∉ l → dlseg h p (l ++ [a]) n → dlseg (set_next a x h) p (l ++ [a]) x.
Proof.
  intros Hnin. rewrite !dlseg_app. simpl. intros (Hl & Ha & Hp & Hn & _).
  split.
  - by apply dlseg_set_next_out.
  - rewrite is_Some_set_next, prev_set_next, next_set_next, decide_True by done.
    done.
Qed.

Lemma dlseg_cons h p a l n :
  dlseg h p (a :: l) n ↔
  is_Some (h !! a) ∧ node_prev h a = p ∧ node_next h a = first_or n l ∧
  dlseg h (Some a) l n.
Proof. done. Qed.

Lemma dlseg_links h p l1 a l2 n :
  dlseg h p (l1 ++ a :: l2) n →
  is_Some (h !! a) ∧ node_prev h a = last_or p l1 ∧ node_next h a = first_or n l2.
Proof. rewrite dlseg_app, dlseg_cons. tauto. Qed.

Lemma first_or_None l : first_or None l = list.head l.
Proof. by destruct l. Qed.

Lemma last_or_None l : last_or None l = last l.
Proof. unfold last_or. by destruct (last l). Qed.

Local Arguments dlseg : simpl never.
Local Ltac split_conj := repeat match goal with |- _ ∧ _ => split end.

(** The first two steps of [moveToHead] and of [delete]: take the node
    at [a] out of the chain. *)
Lemma unlink_spec h l1 a l2 :
  NoDup (l1 ++ a :: l2) →
  dlseg h None (l1 ++ a :: l2) None →
  let h1 := match node_prev h a with
            | Some p => set_next p (node_next h a) h
            | None => h
            end in
  let h2 := match node_next h1 a with
            | Some n => set_prev n (node_prev h1 a) h1
            | None => h1
            end in
  node_prev h a = last l1 ∧ node_next h a = list.head l2 ∧
  node_prev h1 a = last l1 ∧ node_next h1 a = list.head l2 ∧
  node_prev h2 a = last l1 ∧
  dlseg h2 None (l1 ++ l2) None ∧
  (∀ b, is_Some (h2 !! b) ↔ is_Some (h !! b)) ∧
  (∀ b, data <$> h2 !! b = data <$> h !! b).
Proof.
  intros Hnd Hseg.
  destruct (dlseg_links _ _ _ _ _ _ Hseg) as (Ha & Hp & Hn).
  rewrite last_or_None in Hp. rewrite first_or_None in Hn.
  apply NoDup_app in Hnd as (Hnd1 & Hdisj & Hnd2).
  apply NoDup_cons in Hnd2 as [Ha2 Hnd2].
  assert (a ∉ l1) as Ha1 by (intros Hin; apply (Hdisj a Hin), list_elem_of_here).
  apply dlseg_app in Hseg as [Hs1 Hs2].
  apply dlseg_cons in Hs2 as (_ & _ & _ & Hs2).
  change (first_or None (a :: l2)) with (Some a) in Hs1.
  rewrite Hp, Hn.
  destruct (last l1) as [p|] eqn:El1.
  - apply last_Some in El1 as [l1' ->].
    assert (p ≠ a) as Hpa.
    { intros ->. apply Ha1, elem_of_app. right. apply list_elem_of_here. }
    assert (is_Some (h !! p)) as Hps.
    { eapply dlseg_lookup; [exact Hs1|]. apply elem_of_app. right. apply list_elem_of_here. }
    apply NoDup_app in Hnd1 as (_ & Hdisj1 & _).
    assert (p ∉ l1') as Hp1.
    { intros Hin. apply (Hdisj1 p Hin), list_elem_of_here. }
    assert (p ∉ l2) as Hp2.
    { intros Hin. apply (Hdisj p); [apply elem_of_app; right; apply list_elem_of_here|].
      by apply list_elem_of_further. }
    cbv zeta. rewrite next_set_next_ne, prev_set_next, Hn, Hp by done.
    destruct l2 as [|b l2]; simpl.
    + rewrite prev_set_next, Hp, app_nil_r. split_conj; try done.
      * by apply dlseg_set_next_last with (n := Some a).
      * intros b. apply is_Some_set_next.
      * intros b. apply data_set_next.
    + apply not_elem_of_cons in Ha2 as [Hab Ha2].
      apply NoDup_cons in Hnd2 as [Hb2 Hnd2].
      assert (b ∉ l1' ++ [p]) as Hb1.
      { intros Hin. apply (Hdisj b Hin). apply list_elem_of_further, list_elem_of_here. }
      rewrite prev_set_prev_ne, prev_set_next, Hp by done.
      split_conj; try done.
      * apply dlseg_app. split.
        -- apply dlseg_set_prev_out; [done|].
           by apply dlseg_set_next_last with (n := Some a).
        -- rewrite last_or_snoc.
           apply dlseg_set_prev_first with (p := Some a); [done|].
           by apply dlseg_set_next_out.
      * intros x. by rewrite is_Some_set_prev, is_Some_set_next.
      * intros x. by rewrite data_set_prev, data_set_next.
  - apply last_None in El1 as ->. cbv zeta. rewrite Hn, Hp. simpl.
    destruct l2 as [|b l2]; simpl.
    + rewrite Hp. split_conj; done.
    + apply not_elem_of_cons in Ha2 as [Hab Ha2].
      apply NoDup_cons in Hnd2 as [Hb2 Hnd2].
      rewrite prev_set_prev_ne, Hp by done.
      split_conj; try done.
      * by apply dlseg_set_prev_first with (p := Some a).
      * intros x. apply is_Some_set_prev.
      * intros x. apply data_set_prev.
Qed.

(** The last steps of [moveToHead]: chain the node at [a] in front. *)
Lemma push_front_spec h l a :
  NoDup l → a ∉ l → is_Some (h !! a) → dlseg h None l None →
  let h3 := match list.head l with
            | Some hd => set_prev hd (Some a) h
            | None => h
            end in
  dlseg (set_prev a None (set_next a (list.head l) h3)) None (a :: l) None.
Proof.
  intros Hnd Hnin Ha Hseg. cbv zeta.
  assert (is_Some (match list.head l with
                   | Some hd => set_prev hd (Some a) h
                   | None => h
                   end !! a)) as Ha3.
  { destruct (list.head l); [by apply is_Some_set_prev | done]. }
  rewrite dlseg_cons, is_Some_set_prev, is_Some_set_next.
  rewrite prev_set_prev, decide_True by (done || by apply is_Some_set_next).
  rewrite next_set_prev, next_set_next, decide_True, first_or_None by done.
  split_conj; [done..|].
  apply dlseg_set_prev_out; [done|]. apply dlseg_set_next_out; [done|].
  destruct l as [|hd l]; [done|]. simpl.
  apply NoDup_cons in Hnd as [Hhd _].
  by apply dlseg_set_prev_first with (p := None).
Qed.
End Heap.

Section Repr.
Context {K V : Type} `{EqDecision K}.
Abbreviation LRUNode := (@LRUNode K V).
Abbreviation LRUCache := (@LRUCache K V).
Implicit Types (h : list LRUNode) (a b : addr) (l : list addr) (c : LRUCache).
Implicit Types (m : list (K * addr)) (k : K) (v : V).

Local Arguments dlseg : simpl never.

Lemma index_lookup m l k a : m.*2 ≡ₚ l → Map_get k m = Some a → a ∈ l.
Proof.
  intros Hperm Hg. rewrite <- Hperm. apply Map_get_elem in Hg.
  apply list_elem_of_fmap. by exists (k, a).
Qed.

(** Deleting a key from the index takes its node, and no other, out. *)
Lemma index_remove m l1 l2 k a :
  NoDup m.*1 → m.*2 ≡ₚ l1 ++ a :: l2 → Map_get k m = Some a →
  (Map_delete k m).*2 ≡ₚ l1 ++ l2.
Proof.
  intros Hnd Hperm Hg.
  destruct (Map_delete_split k a m Hnd Hg) as (m1 & m2 & -> & ->).
  rewrite fmap_app in *. rewrite fmap_cons in Hperm. simpl in Hperm.
  rewrite <- !Permutation_middle in Hperm.
  by apply Permutation_cons_inv in Hperm.
Qed.

Lemma repr_fresh c l : repr c l → length (heap c) ∉ l.
Proof.
  intros Hr Hin.
  pose proof (dlseg_lookup _ _ _ _ _ (repr_links _ _ Hr) Hin) as Hs.
  apply lookup_lt_is_Some in Hs. lia.
Qed.

Lemma repr_new maxSize optMaxAge hasCallback :
  repr (new (K:=K) (V:=V) maxSize optMaxAge hasCallback) [].
Proof.
  split; simpl; try done.
  - apply NoDup_nil_2.
  - apply NoDup_nil_2.
  - intros k a Hin. by apply elem_of_nil in Hin.
Qed.

Lemma repr_clear c l : repr (clear c) [].
Proof.
  split; simpl; try done.
  - apply NoDup_nil_2.
  - apply NoDup_nil_2.
  - intros k a Hin. by apply elem_of_nil in Hin.
Qed.

(** [moveToHead] touches links only. *)
Lemma moveToHead_data c a b :
  data <$> heap (moveToHead c a) !! b = data <$> heap c !! b.
Proof.
  unfold moveToHead. case_decide; [done|]. simpl.
  rewrite data_set_prev, data_set_next.
  destruct (head c); rewrite ?data_set_prev;
    (destruct (node_next _ a); rewrite ?data_set_prev);
    (destruct (node_prev _ a); rewrite ?data_set_next); done.
Qed.

Lemma moveToHead_fields c a :
  capacity (moveToHead c a) = capacity c ∧ cache (moveToHead c a) = cache c ∧
  size (moveToHead c a) = size c ∧ maxAge (moveToHead c a) = maxAge c ∧
  onEviction (moveToHead c a) = onEviction c ∧ calls (moveToHead c a) = calls c ∧
  head (moveToHead c a) = Some a.
Proof. unfold moveToHead. case_decide; done. Qed.

(** [moveToHead] moves the node to the front of the recency list and
    keeps the order of the others. *)
Lemma moveToHead_repr c l1 a l2 :
  repr c (l1 ++ a :: l2) → repr (moveToHead c a) (a :: l1 ++ l2).
Proof.
  intros [Hnd Hseg Hhead Htail Hkeys Hidx Hkey Hsize].
  assert (Hnd' := Hnd).
  apply NoDup_app in Hnd' as (Hnd1 & Hdisj & Hnd2).
  apply NoDup_cons in Hnd2 as [Ha2 Hnd2].
  assert (a ∉ l1) as Ha1 by (intros Hin; apply (Hdisj a Hin), list_elem_of_here).
  unfold moveToHead. destruct (decide (head c = Some a)) as [Hh|Hh].
  - destruct l1 as [|x l1].
    + by split.
    + rewrite Hhead in Hh. injection Hh as ->.
      exfalso. apply Ha1, list_elem_of_here.
  - destruct (unlink_spec _ _ _ _ Hnd Hseg) as (Hp & Hn & Hp1 & Hn1 & Hp2 & Hseg2 & His & Hdata).
    cbv zeta in Hp1, Hn1, Hp2, Hseg2, His, Hdata.
    set (h1 := match node_prev (heap c) a with
               | Some p => set_next p (node_next (heap c) a) (heap c)
               | None => heap c
               end) in *.
    set (h2 := match node_next h1 a with
               | Some n => set_prev n (node_prev h1 a) h1
               | None => h1
               end) in *.
    assert (l1 ≠ []) as Hl1.
    { intros ->. apply Hh. by rewrite Hhead. }
    assert (list.head (l1 ++ a :: l2) = list.head (l1 ++ l2)) as Hhd
      by (by destruct l1).
    assert (NoDup (l1 ++ l2)) as Hnd12.
    { apply NoDup_app. split_and!; [done| |done].
      intros x Hx Hx2. apply (Hdisj x Hx). by apply list_elem_of_further. }
    assert (a ∉ l1 ++ l2) as Ha12.
    { rewrite elem_of_app. tauto. }
    split; simpl.
    + apply NoDup_cons. by split.
    + rewrite Hhead, Hhd. apply push_front_spec; [done..| |done].
      apply His. eapply dlseg_lookup; [exact Hseg|].
      apply elem_of_app. right. apply list_elem_of_here.
    + done.
    + rewrite Hp2, Htail.
      destruct l2 as [|b l2].
      * rewrite decide_True by (by rewrite last_snoc).
        rewrite app_nil_r.
        destruct (proj2 (last_is_Some l1) Hl1) as [p Hlast].
        rewrite Hlast. destruct l1; [done|]. by rewrite last_cons_cons.
      * assert (last (l1 ++ a :: b :: l2) = last (b :: l2)) as Hlast.
        { by rewrite (last_app_cons l1), last_cons_cons. }
        assert (last (a :: l1 ++ b :: l2) = last (b :: l2)) as Hlast'.
        { change (a :: l1 ++ b :: l2) with ((a :: l1) ++ b :: l2).
          by rewrite (last_app_cons (a :: l1)). }
        rewrite Hlast, Hlast'.
        destruct (proj2 (last_is_Some (b :: l2))) as [t Ht]; [done|].
        rewrite Ht. rewrite decide_False; [done|].
        intros [= ->]. apply Ha2. by apply last_Some_elem_of.
    + done.
    + rewrite Hidx. by rewrite Permutation_middle.
    + intros k b Hin. rewrite <- (Hkey k b Hin).
      apply data_key. rewrite data_set_prev, data_set_next.
      destruct (head c); rewrite ?data_set_prev; apply Hdata.
    + rewrite Hsize. rewrite !length_app. simpl. lia.
Qed.

Lemma set_value_repr c l a v : repr c l → repr (with_heap c (set_value a v (heap c))) l.
Proof.
  intros [Hnd Hseg Hhead Htail Hkeys Hidx Hkey Hsize]. split; simpl; try done.
  - by apply dlseg_set_value.
  - intros k b Hin. rewrite key_set_value. by apply Hkey.
Qed.

Lemma set_existing c k v opt now a :
  Map_get k (cache c) = Some a →
  set c k v opt now = Returns (moveToHead (with_heap c (set_value a v (heap c))) a).
Proof. intros Hg. unfold set. by rewrite Hg. Qed.

Lemma set_new c k v opt now :
  Map_get k (cache c) = None →
  set c k v opt now =
    let c1 := inserted c k v (expiry_of now (default (maxAge c) opt)) in
    if decide (size c1 > capacity c1) then
      match tail c1 with
      | None => Throws UnwrapNothing c1
      | Some e =>
          match heap c1 !! e with
          | None => Throws Dangling c1
          | Some en =>
              let m2 := Map_delete (key en) (cache c1) in
              match prev en with
              | None =>
                  Throws UnwrapNothing
                    (mkCache (capacity c) m2 (heap c1) (head c1) (tail c1) (size c1)
                             (maxAge c) (onEviction c) (calls c))
              | Some p =>
                  let h2 := set_next p None (heap c1) in
                  Returns (mkCache (capacity c) m2 h2 (head c1) (node_prev h2 e)
                             (size c1 - 1) (maxAge c) (onEviction c)
                             (if onEviction c
                              then match h2 !! e with
                                   | Some en' => calls c ++ [(key en', value en')]
                                   | None => calls c
                                   end
                              else calls c))
              end
          end
      end
    else Returns c1.
Proof. intros Hg. unfold set. by rewrite Hg. Qed.

Lemma inserted_repr c l k v exp :
  repr c l → Map_get k (cache c) = None →
  repr (inserted c k v exp) (length (heap c) :: l).
Proof.
  intros Hr Hg. pose proof (repr_fresh _ _ Hr) as Hfresh.
  destruct Hr as [Hnd Hseg Hhead Htail Hkeys Hidx Hkey Hsize].
  apply Map_get_None in Hg.
  set (a := length (heap c)) in *.
  set (nd := mkNode k v None (head c) exp).
  assert ((heap c ++ [nd]) !! a = Some nd) as Ha0 by (by apply list_lookup_middle).
  assert (∀ b, b ∈ l → (heap c ++ [nd]) !! b = heap c !! b) as Hold.
  { intros b Hb. apply lookup_app_l, lookup_lt_is_Some.
    by eapply dlseg_lookup. }
  unfold inserted. fold a. fold nd. split; simpl.
  - apply NoDup_cons. by split.
  - rewrite dlseg_cons. destruct l as [|hd l]; simpl in Hhead; rewrite Hhead.
    + unfold node_prev, node_next. rewrite Ha0. done.
    + apply not_elem_of_cons in Hfresh as [Hne Hfresh].
      apply NoDup_cons in Hnd as [Hhd Hnd].
      rewrite is_Some_set_prev, prev_set_prev_ne, next_set_prev by done.
      unfold node_prev, node_next. rewrite Ha0. simpl.
      split_and!; [done..|].
      apply dlseg_set_prev_first with (p := None); [done|].
      by apply dlseg_alloc.
  - done.
  - rewrite Htail, last_cons. by destruct (last l).
  - rewrite Map_set_fresh, fmap_app by done. apply NoDup_app.
    split_and!; [done | | apply NoDup_singleton].
    intros x Hx Hx'. apply list_elem_of_singleton in Hx'. by subst.
  - rewrite Map_set_fresh, fmap_app, Hidx by done. simpl.
    by rewrite <- Permutation_cons_append.
  - intros k' b. rewrite Map_set_fresh by done.
    rewrite elem_of_app, list_elem_of_singleton. intros Hin.
    assert (key <$> (heap c ++ [nd]) !! b = Some k') as Hk.
    { destruct Hin as [Hin|[= -> ->]]; [|by rewrite Ha0].
      rewrite Hold; [by apply Hkey|].
      rewrite <- Hidx. apply list_elem_of_fmap. by exists (k', b). }
    destruct (head c); [|done].
    rewrite <- Hk. apply data_key, data_set_prev.
  - rewrite Hsize. lia.
Qed.

Lemma inserted_data c l k v exp b :
  repr c l → b ∈ l →
  data <$> heap (inserted c k v exp) !! b = data <$> heap c !! b.
Proof.
  intros Hr Hb. unfold inserted. simpl.
  assert (data <$> (heap c ++ [mkNode k v None (head c) exp]) !! b = data <$> heap c !! b)
    as Hold.
  { f_equal. apply lookup_app_l, lookup_lt_is_Some.
    eapply dlseg_lookup; [apply (repr_links _ _ Hr) | done]. }
  destruct (head c); [|done]. by rewrite data_set_prev.
Qed.

(** [set] of a new key into a full cache: the node at the end of the
    recency list goes, and nothing else does. *)
Lemma set_new_evicts c l t k v opt now :
  repr c (l ++ [t]) → Map_get k (cache c) = None → size c + 1 > capacity c →
  ∃ nd c',
    heap c !! t = Some nd ∧
    set c k v opt now = Returns c' ∧
    repr c' (length (heap c) :: l) ∧
    cache c' = Map_delete (key nd) (Map_set k (length (heap c)) (cache c)) ∧
    Map_get (key nd) (cache c) = Some t ∧
    size c' = size c ∧ capacity c' = capacity c ∧ maxAge c' = maxAge c ∧
    onEviction c' = onEviction c ∧
    calls c' = if onEviction c then calls c ++ [(key nd, value nd)] else calls c.
Proof.
  intros Hr Hg Hfull.
  set (exp := expiry_of now (default (maxAge c) opt)).
  pose proof (inserted_repr c _ k v exp Hr Hg) as Hr1.
  assert (t ∈ l ++ [t]) as Ht by (apply elem_of_app; right; apply list_elem_of_here).
  pose proof (inserted_data c _ k v exp t Hr Ht) as Hdt.
  destruct (dlseg_lookup _ _ _ _ _ (repr_links _ _ Hr) Ht) as [nd Hnd].
  rewrite set_new by done. cbv zeta. fold exp.
  set (c1 := inserted c k v exp) in *.
  set (a := length (heap c)) in *.
  assert (size c1 = size c + 1 ∧ capacity c1 = capacity c ∧ head c1 = Some a ∧
          cache c1 = Map_set k a (cache c)) as (Hs1 & Hc1 & Hh1 & Hm1) by done.
  rewrite decide_True by lia.
  destruct Hr1 as [Hnd1 Hseg1 Hhead1 Htail1 Hkeys1 Hidx1 Hkey1 Hsize1].
  change (a :: l ++ [t]) with ((a :: l) ++ [t]) in *.
  rewrite Htail1, last_snoc.
  destruct (dlseg_links _ _ _ _ _ _ Hseg1) as ([en Hen] & Hp & _).
  rewrite Hen. rewrite Hen, Hnd in Hdt. injection Hdt as Hk Hv He.
  rewrite last_or_None in Hp.
  destruct (proj2 (last_is_Some (a :: l))) as [p Hlast]; [done|].
  rewrite Hlast in Hp. unfold node_prev in Hp. rewrite Hen in Hp. simpl in Hp.
  rewrite Hp.
  apply NoDup_app in Hnd1 as (Hnda & Hdisj & _).
  assert (p ∈ a :: l) as Hpin by (by apply last_Some_elem_of).
  assert (p ≠ t) as Hpt.
  { intros ->. apply (Hdisj t Hpin), list_elem_of_here. }
  assert (set_next p None (heap c1) !! t = Some en) as Hen2.
  { by rewrite lookup_set_next, decide_False. }
  assert (Map_get (key en) (cache c1) = Some t) as Hgt.
  { assert (t ∈ (cache c1).*2) as Hin.
    { rewrite Hidx1. apply elem_of_app. right. apply list_elem_of_here. }
    apply list_elem_of_fmap in Hin as ([k' t'] & Heq & Hin). simpl in Heq. subst t'.
    pose proof (Hkey1 _ _ Hin) as Hk'. rewrite Hen in Hk'. injection Hk' as ->.
    by apply Map_get_NoDup. }
  exists nd, (mkCache (capacity c) (Map_delete (key en) (cache c1))
                      (set_next p None (heap c1)) (head c1)
                      (node_prev (set_next p None (heap c1)) t) (size c1 - 1)
                      (maxAge c) (onEviction c)
                      (if onEviction c then calls c ++ [(key en, value en)] else calls c)).
  split; [done|]. split; [by rewrite Hen2|].
  split.
  { split; cbn [capacity cache heap head tail size].
    - done.
    - apply last_Some in Hlast as [l' Hl']. rewrite Hl' in *.
      apply dlseg_app in Hseg1 as [Hseg1 _].
      apply NoDup_app in Hnda as (_ & Hdisj' & _).
      apply dlseg_set_next_last with (n := Some t); [|done].
      intros Hin. apply (Hdisj' p Hin), list_elem_of_here.
    - done.
    - unfold node_prev. rewrite Hen2. simpl. by rewrite Hp, Hlast.
    - rewrite Map_delete_keys. by apply NoDup_filter.
    - rewrite <- (app_nil_r (a :: l)).
      by apply index_remove with (k := key en) (a := t).
    - intros k' b Hin. apply list_elem_of_filter in Hin as [_ Hin].
      rewrite <- (Hkey1 _ _ Hin). apply data_key, data_set_next.
    - rewrite Hs1, length_app in Hsize1. simpl in Hsize1. simpl. lia. }
  rewrite Hm1 in *. rewrite <- Hk, <- Hv.
  split_and!; try done.
  - rewrite Map_get_set in Hgt. destruct (decide (k = key en)) as [->|]; [|done].
    injection Hgt as <-. exfalso. apply (Hdisj a); [apply list_elem_of_here|].
    apply list_elem_of_here.
  - simpl. lia.
Qed.

(** [delete] of a present key takes its node out of the recency list
    and out of the index. *)
Lemma delete_repr c l1 a l2 k :
  repr c (l1 ++ a :: l2) → Map_get k (cache c) = Some a →
  (delete c k).1 = true ∧ repr (delete c k).2 (l1 ++ l2) ∧
  cache (delete c k).2 = Map_delete k (cache c) ∧
  size (delete c k).2 = size c - 1 ∧
  capacity (delete c k).2 = capacity c ∧ calls (delete c k).2 = calls c ∧
  (∀ b, data <$> heap (delete c k).2 !! b = data <$> heap c !! b).
Proof.
  intros [Hnd Hseg Hhead Htail Hkeys Hidx Hkey Hsize] Hg.
  destruct (unlink_spec _ _ _ _ Hnd Hseg)
    as (Hp & Hn & Hp1 & Hn1 & Hp2 & Hseg2 & His & Hdata).
  unfold delete. rewrite Hg.
  rewrite Hp in *.
  assert (last (l1 ++ a :: l2) = last (a :: l2)) as Hlast by apply last_app_cons.
  destruct (last l1) as [p|] eqn:El1; cbv beta iota zeta in *;
    rewrite Hn1 in *;
    (destruct l2 as [|n l2]; cbn [list.head] in *; cbv beta iota zeta in *);
    cbn [fst snd capacity cache heap head tail size calls];
    (split; [done|]); (split; [|by split_and!; try lia]);
    (split; cbn [capacity cache heap head tail size]).
  all: try done.
  all: try (rewrite Map_delete_keys; by apply NoDup_filter).
  all: try (by eapply index_remove).
  all: try (rewrite Hsize, !length_app; simpl; lia).
  all: try (intros k' b Hin; apply list_elem_of_filter in Hin as [_ Hin];
            rewrite <- (Hkey _ _ Hin); apply data_key, Hdata).
  all: try (eapply NoDup_app_remove; eassumption).
  - rewrite Hhead. apply last_Some in El1 as [l' ->]. by destruct l'.
  - by rewrite app_nil_r, El1.
  - rewrite Hhead. apply last_Some in El1 as [l' ->]. by destruct l'.
  - by rewrite Htail, Hlast, last_cons_cons, (last_app_cons l1).
  - by apply last_None in El1 as ->.
  - by rewrite app_nil_r, El1.
  - by apply last_None in El1 as ->.
  - by rewrite Htail, Hlast, last_cons_cons, (last_app_cons l1).
Qed.

(** [set] on a cache whose list is in order returns, keeps the list in
    order and keeps the size within the capacity. *)
Lemma set_repr c l k v opt now :
  repr c l → 1 ≤ capacity c → size c ≤ capacity c →
  ∃ c' l', set c k v opt now = Returns c' ∧ repr c' l' ∧
           capacity c' = capacity c ∧ size c' ≤ capacity c'.
Proof.
  intros Hr Hcap Hsz.
  destruct (Map_get k (cache c)) as [a|] eqn:Hg.
  - rewrite (set_existing _ _ _ _ _ _ Hg).
    pose proof (index_lookup _ _ _ _ (repr_index _ _ Hr) Hg) as Hin.
    apply list_elem_of_split in Hin as (l1 & l2 & ->).
    eexists _, _. split; [done|]. split.
    + apply moveToHead_repr. apply set_value_repr. exact Hr.
    + destruct (moveToHead_fields (with_heap c (set_value a v (heap c))) a)
        as (-> & _ & -> & _). done.
  - destruct (decide (size c + 1 > capacity c)) as [Hfull|Hfits].
    + destruct l as [|x l0 _] using rev_ind.
      { pose proof (repr_size _ _ Hr) as Hs. simpl in Hs. lia. }
      destruct (set_new_evicts c l0 x k v opt now Hr Hg Hfull)
        as (nd & c' & _ & Hset & Hr' & _ & _ & Hs' & Hc' & _).
      exists c', (length (heap c) :: l0). split_and!; [done..|lia].
    + rewrite set_new by done. cbv zeta.
      rewrite decide_False by done.
      eexists _, _. split; [done|]. split; [by apply inserted_repr|].
      split; [done|]. simpl. lia.
Qed.

Lemma sets_repr args : ∀ c l,
  repr c l → 1 ≤ capacity c → size c ≤ capacity c →
  ∃ c' l', sets c args = Returns c' ∧ repr c' l' ∧
           capacity c' = capacity c ∧ size c' ≤ capacity c'.
Proof.
  induction args as [|[[[k v] opt] now] args IH]; intros c l Hr Hcap Hsz.
  - exists c, l. by split_and!.
  - destruct (set_repr c l k v opt now Hr Hcap Hsz) as (c1 & l1 & Hset & Hr1 & Hc1 & Hs1).
    simpl. rewrite Hset.
    destruct (IH c1 l1 Hr1) as (c' & l' & Hsets & Hr' & Hc' & Hs'); [lia..|].
    exists c', l'. split_and!; [done..|congruence|done].
Qed.

(** [get] and [peek] keep the list in order. *)
Lemma getOrDeleteIfExpired_repr c l k a now :
  repr c l → Map_get k (cache c) = Some a →
  ∃ l', repr (getOrDeleteIfExpired c k a now).2 l'.
Proof.
  intros Hr Hg.
  pose proof (index_lookup _ _ _ _ (repr_index _ _ Hr) Hg) as Hin.
  apply list_elem_of_split in Hin as (l1 & l2 & ->).
  unfold getOrDeleteIfExpired, deleteIfExpired.
  destruct (expired _ now); simpl.
  - exists (l1 ++ l2). by apply (delete_repr c l1 a l2 k).
  - exists (a :: l1 ++ l2). by apply moveToHead_repr.
Qed.

Lemma get_repr c l k now : repr c l → ∃ l', repr (get c k now).2 l'.
Proof.
  intros Hr. unfold get. destruct (Map_get k (cache c)) as [a|] eqn:Hg.
  - by eapply getOrDeleteIfExpired_repr.
  - by exists l.
Qed.

Lemma delete_repr' c l k : repr c l → ∃ l', repr (delete c k).2 l'.
Proof.
  intros Hr. destruct (Map_get k (cache c)) as [a|] eqn:Hg.
  - pose proof (index_lookup _ _ _ _ (repr_index _ _ Hr) Hg) as Hin.
    apply list_elem_of_split in Hin as (l1 & l2 & ->).
    exists (l1 ++ l2). by apply (delete_repr c l1 a l2 k).
  - exists l. unfold delete. by rewrite Hg.
Qed.

(** Running an iteration to its end keeps the list in order. *)
Lemma entriesLoop_repr pending now : ∀ c l,
  repr c l → ∃ l', repr (entriesLoop c pending now).2 l'.
Proof.
  induction pending as [|[k a] pending IH]; intros c l Hr; simpl.
  - by exists l.
  - unfold deleteIfExpired. destruct (expired _ now).
    + destruct (delete_repr' c l k Hr) as [l1 Hr1].
      destruct (IH _ _ Hr1) as [l' Hr'].
      destruct (entriesLoop (delete c k).2 pending now). by exists l'.
    + destruct (IH _ _ Hr) as [l' Hr'].
      destruct (entriesLoop c pending now). by exists l'.
Qed.

(** ** Every operation but [resize] keeps the list in order *)

Lemma delete_inv c l k :
  repr c l →
  ∃ l', repr (delete c k).2 l' ∧ (length l' ≤ length l)%nat ∧
        capacity (delete c k).2 = capacity c.
Proof.
  intros Hr. destruct (Map_get k (cache c)) as [a|] eqn:Hg.
  - pose proof (index_lookup _ _ _ _ (repr_index _ _ Hr) Hg) as Hin.
    apply list_elem_of_split in Hin as (l1 & l2 & ->).
    destruct (delete_repr c l1 a l2 k Hr Hg) as (_ & Hr' & _ & _ & Hc & _).
    exists (l1 ++ l2). split_and!; [done | | done].
    rewrite !length_app. simpl. lia.
  - exists l. unfold delete. rewrite Hg. by split_and!.
Qed.

Lemma get_inv c l k now :
  repr c l →
  ∃ l', repr (get c k now).2 l' ∧ (length l' ≤ length l)%nat ∧
        capacity (get c k now).2 = capacity c.
Proof.
  intros Hr. unfold get. destruct (Map_get k (cache c)) as [a|] eqn:Hg.
  - unfold getOrDeleteIfExpired, deleteIfExpired.
    destruct (expired _ now); simpl.
    + by apply delete_inv.
    + pose proof (index_lookup _ _ _ _ (repr_index _ _ Hr) Hg) as Hin.
      apply list_elem_of_split in Hin as (l1 & l2 & ->).
      exists (a :: l1 ++ l2). split; [by apply moveToHead_repr|].
      split; [rewrite !length_app; simpl; rewrite length_app; lia|].
      by destruct (moveToHead_fields c a) as (-> & _).
  - exists l. by split_and!.
Qed.

Lemma entriesLoop_inv pending now : ∀ c l,
  repr c l →
  ∃ l', repr (entriesLoop c pending now).2 l' ∧ (length l' ≤ length l)%nat ∧
        capacity (entriesLoop c pending now).2 = capacity c.
Proof.
  induction pending as [|[k a] pending IH]; intros c l Hr; simpl.
  - exists l. by split_and!.
  - unfold deleteIfExpired. destruct (expired _ now).
    + destruct (delete_inv c l k Hr) as (l1 & Hr1 & Hl1 & Hc1).
      destruct (IH _ _ Hr1) as (l' & Hr' & Hl' & Hc').
      destruct (entriesLoop (delete c k).2 pending now).
      exists l'. split_and!; [done | lia | congruence].
    + destruct (IH _ _ Hr) as (l' & Hr' & Hl' & Hc').
      destruct (entriesLoop c pending now). by exists l'.
Qed.

Lemma step_inv c l o :
  repr c l → 1 ≤ capacity c → size c ≤ capacity c →
  ∃ l', repr (step c o) l' ∧ capacity (step c o) = capacity c ∧
        size (step c o) ≤ capacity c.
Proof.
  intros Hr Hcap Hsz.
  assert (∀ c' l', repr c' l' → (length l' ≤ length l)%nat → size c' ≤ capacity c) as Hle.
  { intros c' l' Hr' Hl. rewrite (repr_size _ _ Hr'). rewrite (repr_size _ _ Hr) in Hsz. lia. }
  destruct o as [k v opt now|k now|k now|k| |now]; simpl.
  - destruct (set_repr c l k v opt now Hr Hcap Hsz) as (c' & l' & -> & Hr' & Hc' & Hs').
    exists l'. simpl. split_and!; [done..|lia].
  - destruct (get_inv c l k now Hr) as (l' & Hr' & Hl' & Hc'). exists l'. eauto.
  - destruct (get_inv c l k now Hr) as (l' & Hr' & Hl' & Hc'). exists l'. eauto.
  - destruct (delete_inv c l k Hr) as (l' & Hr' & Hl' & Hc'). exists l'. eauto.
  - exists []. split; [by eapply repr_clear|]. simpl. split; [done | lia].
  - destruct (entriesLoop_inv (cache c) now c l Hr) as (l' & Hr' & Hl' & Hc').
    exists l'. eauto.
Qed.

(** From a fresh cache of capacity at least 1, any run of these
    operations leaves the recency list holding exactly the entries of
    the index, the index as large as [size] reports, and [size] within
    the capacity. *)
Lemma run_inv ops : ∀ c l,
  repr c l → 1 ≤ capacity c → size c ≤ capacity c →
  ∃ l', repr (run c ops) l' ∧ capacity (run c ops) = capacity c ∧
        size (run c ops) ≤ capacity c ∧
        size (run c ops) = Z.of_nat (length (cache (run c ops))).
Proof.
  induction ops as [|o ops IH]; intros c l Hr Hcap Hsz.
  - exists l. unfold run. simpl. split_and!; [done..|].
    rewrite (repr_size _ _ Hr), <- (repr_index _ _ Hr). by rewrite length_fmap.
  - destruct (step_inv c l o Hr Hcap Hsz) as (l1 & Hr1 & Hc1 & Hs1).
    destruct (IH (step c o) l1 Hr1) as (l' & Hr' & Hc' & Hs' & Hn'); [lia..|].
    exists l'. unfold run in *. simpl. split_and!; [done | congruence | lia | done].
Qed.
End Repr.
End LRUFacts.

(** * The LFU cache: the frequency buckets *)
Module LFUFacts.
Import LFU.
Section Buckets.
Context {K V : Type} `{EqDecision K}.
Abbreviation LFUNode := (@LFUNode K V).
Abbreviation LFUCache := (@LFUCache K V).
Implicit Types (c : LFUCache) (fm : gmap Z (list K)) (k : K) (f g : Z) (nd : LFUNode).

Lemma link_lookup fm f k g :
  link fm f k !! g =
    if decide (g = f) then Some (Set_add k (default [] (fm !! f))) else fm !! g.
Proof.
  unfold link. destruct (fm !! f) as [b|] eqn:Hb.
  - rewrite Hb. destruct (decide (g = f)) as [->|Hne].
    + by rewrite lookup_insert_eq.
    + by rewrite lookup_insert_ne.
  - rewrite lookup_insert_eq. destruct (decide (g = f)) as [->|Hne].
    + by rewrite lookup_insert_eq.
    + by rewrite !lookup_insert_ne.
Qed.

Lemma unlink_lookup fm f k g :
  (unlink fm f k).1 !! g =
    if decide (g = f)
    then b ← fm !! f; match Set_delete k b with [] => None | b' => Some b' end
    else fm !! g.
Proof.
  unfold unlink. destruct (fm !! f) as [b|] eqn:Hb; simpl.
  - rewrite lookup_insert_eq.
    destruct (Set_delete k b) as [|x b'] eqn:Hd; simpl.
    + destruct (decide (g = f)) as [->|Hne].
      * by rewrite lookup_delete_eq.
      * by rewrite lookup_delete_ne, lookup_insert_ne.
    + destruct (decide (g = f)) as [->|Hne].
      * by rewrite lookup_insert_eq.
      * by rewrite lookup_insert_ne.
  - rewrite Hb. simpl. destruct (decide (g = f)) as [->|Hne]; done.
Qed.

Lemma unlink_dropped fm f k :
  (unlink fm f k).2 = true ↔ ∃ b, fm !! f = Some b ∧ Set_delete k b = [].
Proof.
  unfold unlink. destruct (fm !! f) as [b|] eqn:Hb; simpl.
  - rewrite lookup_insert_eq. destruct (Set_delete k b) eqn:Hd; simpl.
    + split; [by exists b | done].
    + split; [done | intros (? & [= <-] & ?); congruence].
  - rewrite Hb. simpl. split; [done | by intros (? & ? & ?)].
Qed.

Lemma nonempty_Some (b b' : list K) :
  match b with [] => None | x :: b1 => Some (x :: b1) end = Some b' ↔ b' = b ∧ b ≠ [].
Proof.
  destruct b as [|x b].
  - split; [done | by intros [_ ?]].
  - split; [by intros [= <-] | by intros [-> _]].
Qed.

Lemma Map_set_length {A} k (x : A) (m : list (K * A)) :
  k ∈ m.*1 → length (Map_set k x m) = length m.
Proof.
  intros Hin. rewrite <- (length_fmap fst (Map_set k x m)), <- (length_fmap fst m).
  by rewrite Map_set_keys.
Qed.

(** Replacing the value and the expiry of a node does not concern the buckets. *)
Lemma wf_replace c k nd nd' :
  wf c → Map_get k (cache c) = Some nd → key nd' = key nd → freq nd' = freq nd →
  wf (mkCache (capacity c) (Map_set k nd' (cache c)) (freqMap c) (minFreq c)
              (size c) (maxAge c) (onEviction c) (calls c)).
Proof.
  intros [Hkeys Hsize Hnode Hbucket] Hg Hk Hf.
  pose proof (Map_get_key _ _ _ Hg) as Hin.
  split; simpl.
  - by rewrite Map_set_keys.
  - by rewrite Map_set_length.
  - intros k' n'. rewrite Map_get_set. destruct (decide (k = k')) as [<-|Hne].
    + intros [= <-]. rewrite Hk, Hf. by apply Hnode.
    + apply Hnode.
  - intros f b Hb. destruct (Hbucket f b Hb) as (Hne & Hnd & Hel).
    split_and!; [done..|]. intros k' Hk'.
    destruct (Hel k' Hk') as (n' & Hg' & Hf').
    rewrite Map_get_set. destruct (decide (k = k')) as [<-|Hne'].
    + exists nd'. split; [done|]. congruence.
    + by exists n'.
Qed.

(** [updateFrequency] moves the key one bucket up. *)
Lemma updateFrequency_wf c k nd :
  wf c → Map_get k (cache c) = Some nd → wf (updateFrequency c k).
Proof.
  intros [Hkeys Hsize Hnode Hbucket] Hg.
  pose proof (Map_get_key _ _ _ Hg) as Hin.
  destruct (Hnode k nd Hg) as (Hk & Hf1 & b0 & Hb0 & Hkb0).
  unfold updateFrequency. rewrite Hg, Hk.
  destruct (unlink (freqMap c) (freq nd) k) as [fm1 dropped] eqn:Hu.
  assert (fm1 = (unlink (freqMap c) (freq nd) k).1) as -> by (by rewrite Hu).
  split; simpl.
  - by rewrite Map_set_keys.
  - by rewrite Map_set_length.
  - intros k' n'. rewrite Map_get_set. destruct (decide (k = k')) as [<-|Hne].
    + intros [= <-]. simpl. split_and!; [done|lia|].
      rewrite link_lookup, decide_True by done.
      eexists. split; [done|]. apply elem_of_Set_add. by left.
    + intros Hg'. destruct (Hnode k' n' Hg') as (Hk' & Hf' & b & Hb & Hkb).
      split_and!; [done..|].
      rewrite link_lookup. destruct (decide (freq n' = freq nd + 1)) as [Heq|Hne1].
      * eexists. split; [done|]. apply elem_of_Set_add. right.
        rewrite unlink_lookup, decide_False by lia.
        rewrite <- Heq, Hb. done.
      * rewrite unlink_lookup. destruct (decide (freq n' = freq nd)) as [Heq|Hne2].
        -- rewrite <- Heq, Hb. simpl.
           assert (k' ∈ Set_delete k b) as Hin'.
           { apply elem_of_Set_delete. split; [congruence | done]. }
           exists (Set_delete k b). split; [|done].
           apply nonempty_Some. split; [done|].
           intros Hnil. rewrite Hnil in Hin'. by apply elem_of_nil in Hin'.
        -- by exists b.
  - intros g b. rewrite link_lookup. destruct (decide (g = freq nd + 1)) as [->|Hne1].
    + intros [= <-]. rewrite unlink_lookup, decide_False by lia.
      split; [apply Set_add_nonempty|]. split.
      * apply Set_add_NoDup. destruct (freqMap c !! (freq nd + 1)) as [b1|] eqn:Hb1.
        -- by apply (Hbucket _ _ Hb1).
        -- apply NoDup_nil_2.
      * intros k'. rewrite elem_of_Set_add. rewrite Map_get_set.
        intros [->|Hk']; [rewrite decide_True by done; by eexists|].
        destruct (freqMap c !! (freq nd + 1)) as [b1|] eqn:Hb1;
          [|by apply elem_of_nil in Hk'].
        destruct (Hbucket _ _ Hb1) as (_ & _ & Hel).
        destruct (Hel k' Hk') as (n' & Hg' & Hf').
        rewrite decide_False; [by exists n'|].
        intros <-. rewrite Hg in Hg'. injection Hg' as <-. lia.
    + rewrite unlink_lookup. destruct (decide (g = freq nd)) as [->|Hne2].
      * rewrite Hb0. simpl. rewrite nonempty_Some. intros [-> Hne].
        split; [done|]. split; [apply Set_delete_NoDup; by apply (Hbucket _ _ Hb0)|].
        intros k'. rewrite elem_of_Set_delete. intros [Hkk Hk'].
        destruct (Hbucket _ _ Hb0) as (_ & _ & Hel).
        destruct (Hel k' Hk') as (n' & Hg' & Hf').
        rewrite Map_get_set, decide_False by done. by exists n'.
      * intros Hb. destruct (Hbucket _ _ Hb) as (Hne & Hnd & Hel).
        split_and!; [done..|]. intros k' Hk'.
        destruct (Hel k' Hk') as (n' & Hg' & Hf').
        rewrite Map_get_set, decide_False; [by exists n'|].
        intros <-. rewrite Hg in Hg'. injection Hg' as <-. lia.
Qed.

Lemma updateFrequency_eq c k nd :
  Map_get k (cache c) = Some nd →
  updateFrequency c k =
    mkCache (capacity c)
      (Map_set k (mkNode (key nd) (value nd) (freq nd + 1) (expiry nd)) (cache c))
      (link (unlink (freqMap c) (freq nd) (key nd)).1 (freq nd + 1) (key nd))
      (if (unlink (freqMap c) (freq nd) (key nd)).2 && bool_decide (minFreq c = freq nd)
       then minFreq c + 1 else minFreq c)
      (size c) (maxAge c) (onEviction c) (calls c).
Proof.
  intros Hg. unfold updateFrequency. rewrite Hg.
  by destruct (unlink (freqMap c) (freq nd) (key nd)).
Qed.

Lemma wf_nonempty_bucket c f : wf c → nonempty_bucket c f ↔ is_Some (freqMap c !! f).
Proof.
  intros Hwf. split.
  - intros (b & Hb & _). by exists b.
  - intros [b Hb]. exists b. split; [done|]. by apply (wf_bucket _ Hwf f b).
Qed.

Lemma min_ok_nonempty c :
  cache c ≠ [] →
  min_ok c ↔ nonempty_bucket c (minFreq c) ∧ ∀ f, nonempty_bucket c f → minFreq c ≤ f.
Proof. unfold min_ok. by destruct (cache c). Qed.

Lemma Map_set_nonempty {A} k (x : A) (m : list (K * A)) : Map_set k x m ≠ [].
Proof. destruct m as [|[k' x'] m]; simpl; [done|]. by case_decide. Qed.

(** [updateFrequency] keeps [minFreq] the smallest frequency in use. *)
Lemma updateFrequency_min c k nd :
  wf c → min_ok c → Map_get k (cache c) = Some nd → min_ok (updateFrequency c k).
Proof.
  intros Hwf Hmin Hg.
  pose proof (updateFrequency_wf c k nd Hwf Hg) as Hwf'.
  assert (cache c ≠ []) as Hne by (intros Hnil; by rewrite Hnil in Hg).
  apply min_ok_nonempty in Hmin as [Hmin1 Hmin2]; [|done].
  rewrite wf_nonempty_bucket in Hmin1 by done.
  assert (∀ f, is_Some (freqMap c !! f) → minFreq c ≤ f) as Hmin3.
  { intros f Hf. apply Hmin2. by apply wf_nonempty_bucket. }
  clear Hmin2.
  destruct (wf_node _ Hwf k nd Hg) as (Hk & Hf1 & b0 & Hb0 & Hkb0).
  apply min_ok_nonempty.
  { rewrite (updateFrequency_eq _ _ _ Hg). simpl. apply Map_set_nonempty. }
  assert (∀ f, nonempty_bucket (updateFrequency c k) f ↔
               is_Some (freqMap (updateFrequency c k) !! f)) as Hnb
    by (intros f; by apply wf_nonempty_bucket).
  setoid_rewrite Hnb. clear Hnb Hwf'.
  rewrite (updateFrequency_eq _ _ _ Hg). simpl. rewrite Hk.
  set (f0 := freq nd) in *.
  assert (∀ g, is_Some (link (unlink (freqMap c) f0 k).1 (f0 + 1) k !! g) →
               g = f0 + 1 ∨ (g ≠ f0 + 1 ∧ is_Some ((unlink (freqMap c) f0 k).1 !! g)))
    as Hlink.
  { intros g. rewrite link_lookup. case_decide; [by left | by right]. }
  destruct ((unlink (freqMap c) f0 k).2) eqn:Hdrop; simpl.
  - apply unlink_dropped in Hdrop as (b & Hb & Hnil).
    assert ((unlink (freqMap c) f0 k).1 !! f0 = None) as Hgone.
    { rewrite unlink_lookup, decide_True, Hb by done. simpl. by rewrite Hnil. }
    case_bool_decide as Hmf.
    + split.
      * rewrite link_lookup, decide_True by lia. done.
      * intros g Hgs. destruct (Hlink g Hgs) as [->|[Hne1 Hgs']]; [lia|].
        destruct (decide (g = f0)) as [->|Hne2].
        { rewrite Hgone in Hgs'. by destruct Hgs'. }
        rewrite unlink_lookup, decide_False in Hgs' by done.
        pose proof (Hmin3 g Hgs'). lia.
    + split.
      * rewrite link_lookup. case_decide; [done|].
        by rewrite unlink_lookup, decide_False.
      * intros g Hgs. destruct (Hlink g Hgs) as [->|[Hne1 Hgs']].
        { assert (minFreq c ≤ f0) by (apply Hmin3; by rewrite Hb0). lia. }
        destruct (decide (g = f0)) as [->|Hne2].
        { rewrite Hgone in Hgs'. by destruct Hgs'. }
        rewrite unlink_lookup, decide_False in Hgs' by done. by apply Hmin3.
  - assert (is_Some ((unlink (freqMap c) f0 k).1 !! f0)) as Hkept.
    { rewrite unlink_lookup, decide_True, Hb0 by done. simpl.
      destruct (Set_delete k b0) eqn:Hd; [|done].
      exfalso. assert ((unlink (freqMap c) f0 k).2 = true) as Ht.
      { apply unlink_dropped. by exists b0. }
      congruence. }
    split.
    + rewrite link_lookup. case_decide; [done|].
      destruct (decide (minFreq c = f0)) as [->|Hne2]; [done|].
      by rewrite unlink_lookup, decide_False.
    + intros g Hgs. destruct (Hlink g Hgs) as [->|[Hne1 Hgs']].
      { assert (minFreq c ≤ f0) by (apply Hmin3; by rewrite Hb0). lia. }
      destruct (decide (g = f0)) as [->|Hne2].
      { apply Hmin3. by rewrite Hb0. }
      rewrite unlink_lookup, decide_False in Hgs' by done. by apply Hmin3.
Qed.

(** What [evict] does when the bucket at [minFreq] starts with a key
    of the index. *)
Lemma evict_spec c k rest nd :
  freqMap c !! minFreq c = Some (k :: rest) → k ∉ rest →
  Map_get k (cache c) = Some nd →
  evict c =
    mkCache (capacity c) (Map_delete k (cache c))
      (match rest with
       | [] => base.delete (minFreq c) (freqMap c)
       | _ => <[minFreq c := rest]> (freqMap c)
       end)
      (minFreq c) (size c - 1) (maxAge c) (onEviction c)
      (if onEviction c then calls c ++ [(k, value nd)] else calls c).
Proof.
  intros Hb Hnin Hg. unfold evict. rewrite Hb. simpl. rewrite Hg.
  by rewrite Set_delete_first.
Qed.

(** In a well-formed cache that is not empty and whose [minFreq] is
    right, [evict] finds its victim. *)
Lemma evict_victim c :
  wf c → min_ok c → cache c ≠ [] →
  ∃ k rest nd,
    freqMap c !! minFreq c = Some (k :: rest) ∧ (k ∉ rest) ∧
    Map_get k (cache c) = Some nd ∧ freq nd = minFreq c ∧
    (∀ k' nd', Map_get k' (cache c) = Some nd' → freq nd ≤ freq nd').
Proof.
  intros Hwf Hmin Hne.
  apply min_ok_nonempty in Hmin as [(b & Hb & Hbne) Hmin]; [|done].
  destruct (wf_bucket _ Hwf _ _ Hb) as (_ & Hnd & Hel).
  destruct b as [|k rest]; [done|].
  apply NoDup_cons in Hnd as [Hnin _].
  destruct (Hel k (list_elem_of_here _ _)) as (nd & Hg & Hf).
  exists k, rest, nd. split_and!; [done..|].
  intros k' nd' Hg'. rewrite Hf. apply Hmin.
  destruct (wf_node _ Hwf _ _ Hg') as (_ & _ & b' & Hb' & Hk').
  exists b'. split; [done|]. intros ->. by apply elem_of_nil in Hk'.
Qed.

Lemma Map_delete_length {A} k (x : A) (m : list (K * A)) :
  NoDup m.*1 → Map_get k m = Some x →
  Z.of_nat (length (Map_delete k m)) = Z.of_nat (length m) - 1.
Proof.
  intros Hnd Hg. destruct (Map_delete_split k x m Hnd Hg) as (m1 & m2 & -> & ->).
  rewrite !length_app. simpl. lia.
Qed.

Lemma evict_wf c k rest :
  wf c → freqMap c !! minFreq c = Some (k :: rest) → wf (evict c).
Proof.
  intros Hwf Hb.
  destruct (wf_bucket _ Hwf _ _ Hb) as (_ & Hnd & Hel).
  apply NoDup_cons in Hnd as [Hnin Hnd].
  destruct (Hel k (list_elem_of_here _ _)) as (nd0 & Hg & Hf).
  rewrite (evict_spec _ _ _ _ Hb Hnin Hg).
  destruct Hwf as [Hkeys Hsize Hnode Hbucket].
  assert (∀ g, match rest with
               | [] => base.delete (minFreq c) (freqMap c)
               | _ => <[minFreq c := rest]> (freqMap c)
               end !! g =
               if decide (g = minFreq c)
               then match rest with [] => None | x :: r => Some (x :: r) end
               else freqMap c !! g) as Hfm.
  { intros g. destruct rest; destruct (decide (g = minFreq c)) as [->|Hne].
    - by rewrite lookup_delete_eq.
    - by rewrite lookup_delete_ne.
    - by rewrite lookup_insert_eq.
    - by rewrite lookup_insert_ne. }
  split; simpl.
  - rewrite Map_delete_keys. by apply NoDup_filter.
  - rewrite (Map_delete_length _ _ _ Hkeys Hg). lia.
  - intros k' n'. rewrite Map_get_delete. destruct (decide (k = k')) as [<-|Hne]; [done|].
    intros Hg'. destruct (Hnode _ _ Hg') as (Hk' & Hf' & b & Hb' & Hkb).
    split_and!; [done..|]. rewrite Hfm.
    destruct (decide (freq n' = minFreq c)) as [Heq|Hne2]; [|by exists b].
    rewrite Heq, Hb in Hb'. injection Hb' as <-.
    apply elem_of_cons in Hkb as [->|Hkb]; [done|].
    exists rest. split; [|done]. destruct rest; [by apply elem_of_nil in Hkb | done].
  - intros g b. rewrite Hfm. destruct (decide (g = minFreq c)) as [->|Hne].
    + rewrite nonempty_Some. intros [-> Hrne]. split_and!; [done..|].
      intros k' Hk'. destruct (Hel k' (list_elem_of_further _ _ _ Hk')) as (n' & Hg' & Hf').
      exists n'. split; [|done]. rewrite Map_get_delete, decide_False; [done|].
      intros <-. done.
    + intros Hb'. destruct (Hbucket _ _ Hb') as (Hbne & Hbnd & Hbel).
      split_and!; [done..|]. intros k' Hk'.
      destruct (Hbel k' Hk') as (n' & Hg' & Hf').
      exists n'. split; [|done]. rewrite Map_get_delete, decide_False; [done|].
      intros <-. rewrite Hg in Hg'. injection Hg' as <-. congruence.
Qed.

(** Inserting a new key: the rest of [set]. *)
Lemma insert_wf c k v exp :
  wf c → Map_get k (cache c) = None →
  wf (mkCache (capacity c) (Map_set k (mkNode k v 1 exp) (cache c))
              (link (freqMap c) 1 k) 1 (size c + 1) (maxAge c)
              (onEviction c) (calls c)).
Proof.
  intros [Hkeys Hsize Hnode Hbucket] Hg.
  pose proof (proj1 (Map_get_None _ _) Hg) as Hnin.
  split; simpl.
  - rewrite Map_set_fresh, fmap_app by done. apply NoDup_app.
    split_and!; [done | | apply NoDup_singleton].
    intros x Hx Hx'. apply list_elem_of_singleton in Hx'. by subst.
  - rewrite Map_set_fresh, length_app by done. simpl. lia.
  - intros k' n'. rewrite Map_get_set. destruct (decide (k = k')) as [<-|Hne].
    + intros [= <-]. simpl. split_and!; [done..|].
      rewrite link_lookup, decide_True by done.
      eexists. split; [done|]. apply elem_of_Set_add. by left.
    + intros Hg'. destruct (Hnode _ _ Hg') as (Hk' & Hf' & b & Hb & Hkb).
      split_and!; [done..|]. rewrite link_lookup.
      destruct (decide (freq n' = 1)) as [Heq|Hne1]; [|by exists b].
      eexists. split; [done|]. apply elem_of_Set_add. right.
      by rewrite <- Heq, Hb.
  - intros g b. rewrite link_lookup. destruct (decide (g = 1)) as [->|Hne].
    + intros [= <-]. split; [apply Set_add_nonempty|]. split.
      * apply Set_add_NoDup. destruct (freqMap c !! 1) as [b1|] eqn:Hb1.
        -- by apply (Hbucket _ _ Hb1).
        -- apply NoDup_nil_2.
      * intros k'. rewrite elem_of_Set_add, Map_get_set.
        intros [->|Hk']; [rewrite decide_True by done; by eexists|].
        destruct (freqMap c !! 1) as [b1|] eqn:Hb1; [|by apply elem_of_nil in Hk'].
        destruct (Hbucket _ _ Hb1) as (_ & _ & Hel).
        destruct (Hel k' Hk') as (n' & Hg' & Hf').
        rewrite decide_False; [by exists n'|]. intros <-. congruence.
    + intros Hb. destruct (Hbucket _ _ Hb) as (Hbne & Hbnd & Hbel).
      split_and!; [done..|]. intros k' Hk'.
      destruct (Hbel k' Hk') as (n' & Hg' & Hf').
      rewrite Map_get_set, decide_False; [by exists n'|]. intros <-. congruence.
Qed.

Lemma wf_bucket_pos c f : wf c → nonempty_bucket c f → 1 ≤ f.
Proof.
  intros Hwf (b & Hb & Hne). destruct (wf_bucket _ Hwf _ _ Hb) as (_ & _ & Hel).
  destruct b as [|k b]; [done|].
  destruct (Hel k (list_elem_of_here _ _)) as (nd & Hg & <-).
  by apply (wf_node _ Hwf k nd).
Qed.

Lemma wf_size_nonempty c : wf c → 1 ≤ size c → cache c ≠ [].
Proof.
  intros Hwf Hs Hnil. pose proof (wf_size _ Hwf) as Hsz.
  rewrite Hnil in Hsz. simpl in Hsz. lia.
Qed.

(** [set] keeps the buckets in order, [minFreq] right and the size
    within the capacity. *)
Lemma set_inv c k v opt now :
  wf c → min_ok c → 1 ≤ capacity c → size c ≤ capacity c →
  wf (set c k v opt now) ∧ min_ok (set c k v opt now) ∧
  capacity (set c k v opt now) = capacity c ∧
  size (set c k v opt now) ≤ capacity c.
Proof.
  intros Hwf Hmin Hcap Hsz. unfold set.
  set (exp := expiry_of now (default (maxAge c) opt)).
  destruct (Map_get k (cache c)) as [nd|] eqn:Hg.
  - set (nd' := mkNode (key nd) v (freq nd) exp).
    set (c0 := mkCache (capacity c) (Map_set k nd' (cache c)) (freqMap c) (minFreq c)
                       (size c) (maxAge c) (onEviction c) (calls c)).
    assert (wf c0) as Hwf0 by (by apply (wf_replace c k nd nd')).
    assert (Map_get k (cache c0) = Some nd') as Hg0.
    { simpl. by rewrite Map_get_set, decide_True. }
    assert (min_ok c0) as Hmin0.
    { assert (cache c ≠ []) as Hne by (intros Hnil; by rewrite Hnil in Hg).
      apply min_ok_nonempty in Hmin; [|done].
      apply min_ok_nonempty; [apply Map_set_nonempty | exact Hmin]. }
    split; [by eapply updateFrequency_wf|].
    split; [by eapply updateFrequency_min|].
    by rewrite (updateFrequency_eq _ _ _ Hg0).
  - assert (∃ c1, (if decide (size c >= capacity c) then evict c else c) = c1 ∧
                  wf c1 ∧ Map_get k (cache c1) = None ∧
                  capacity c1 = capacity c ∧ size c1 + 1 ≤ capacity c)
      as (c1 & -> & Hwf1 & Hg1 & Hc1 & Hs1).
    { destruct (decide (size c >= capacity c)) as [Hfull|Hfits].
      - assert (cache c ≠ []) as Hne by (apply wf_size_nonempty; [done | lia]).
        destruct (evict_victim c Hwf Hmin Hne) as (kv & rest & ndv & Hb & Hnin & Hgv & _).
        eexists. split; [done|]. split; [by eapply evict_wf|].
        rewrite (evict_spec _ _ _ _ Hb Hnin Hgv). simpl.
        rewrite Map_get_delete. split_and!; [by case_decide | done | lia].
      - exists c. split_and!; [done..|lia]. }
    pose proof (insert_wf c1 k v exp Hwf1 Hg1) as Hwf'.
    split; [done|]. split; [|simpl; split; [done | lia]].
    apply min_ok_nonempty; [apply Map_set_nonempty|]. simpl. split.
    + apply wf_nonempty_bucket; [done|]. simpl.
      rewrite link_lookup, decide_True by done. done.
    + intros f Hf. by apply (wf_bucket_pos _ _ Hwf').
Qed.

Lemma sets_inv args : ∀ c,
  wf c → min_ok c → 1 ≤ capacity c → size c ≤ capacity c →
  wf (sets c args) ∧ min_ok (sets c args) ∧
  capacity (sets c args) = capacity c ∧ size (sets c args) ≤ capacity c.
Proof.
  induction args as [|[[[k v] opt] now] args IH]; intros c Hwf Hmin Hcap Hsz.
  - by split_and!.
  - destruct (set_inv c k v opt now Hwf Hmin Hcap Hsz) as (Hwf1 & Hmin1 & Hc1 & Hs1).
    unfold sets. simpl. fold (sets (set c k v opt now) args).
    destruct (IH _ Hwf1 Hmin1) as (Hwf' & Hmin' & Hc' & Hs'); [lia..|].
    split_and!; [done..|congruence|lia].
Qed.

Lemma wf_new maxSize optMaxAge hasCallback :
  wf (new (K:=K) (V:=V) maxSize optMaxAge hasCallback) ∧
  min_ok (new (K:=K) (V:=V) maxSize optMaxAge hasCallback).
Proof.
  split; [|done]. split; simpl; try done.
  - apply NoDup_nil_2.
Qed.

(** [delete] keeps every remaining key in its bucket. *)
Lemma delete_wf c k : wf c → wf (delete c k).2.
Proof.
  intros Hwf. unfold delete. destruct (Map_get k (cache c)) as [nd|] eqn:Hg; [|done].
  destruct Hwf as [Hkeys Hsize Hnode Hbucket].
  destruct (Hnode k nd Hg) as (Hk & Hf1 & b0 & Hb0 & Hkb0).
  destruct (unlink (freqMap c) (freq nd) k) as [fm1 dropped] eqn:Hu.
  assert (fm1 = (unlink (freqMap c) (freq nd) k).1) as -> by (by rewrite Hu).
  split; simpl.
  - rewrite Map_delete_keys. by apply NoDup_filter.
  - rewrite (Map_delete_length _ _ _ Hkeys Hg). lia.
  - intros k' n'. rewrite Map_get_delete. destruct (decide (k = k')) as [<-|Hne]; [done|].
    intros Hg'. destruct (Hnode _ _ Hg') as (Hk' & Hf' & b & Hb & Hkb).
    split_and!; [done..|]. rewrite unlink_lookup.
    destruct (decide (freq n' = freq nd)) as [Heq|Hne2]; [|by exists b].
    rewrite <- Heq, Hb. simpl.
    assert (k' ∈ Set_delete k b) as Hin'.
    { apply elem_of_Set_delete. split; [congruence | done]. }
    exists (Set_delete k b). split; [|done].
    apply nonempty_Some. split; [done|].
    intros Hnil. rewrite Hnil in Hin'. by apply elem_of_nil in Hin'.
  - intros g b. rewrite unlink_lookup. destruct (decide (g = freq nd)) as [->|Hne].
    + rewrite Hb0. simpl. rewrite nonempty_Some. intros [-> Hbne].
      split; [done|]. split; [apply Set_delete_NoDup; by apply (Hbucket _ _ Hb0)|].
      intros k'. rewrite elem_of_Set_delete. intros [Hkk Hk'].
      destruct (Hbucket _ _ Hb0) as (_ & _ & Hel).
      destruct (Hel k' Hk') as (n' & Hg' & Hf').
      rewrite Map_get_delete, decide_False by done. by exists n'.
    + intros Hb. destruct (Hbucket _ _ Hb) as (Hbne & Hbnd & Hbel).
      split_and!; [done..|]. intros k' Hk'.
      destruct (Hbel k' Hk') as (n' & Hg' & Hf').
      rewrite Map_get_delete, decide_False; [by exists n'|].
      intros <-. rewrite Hg in Hg'. injection Hg' as <-. congruence.
Qed.

(** [get] and [peek] keep the buckets in order; on an entry that has
    not expired they keep [minFreq] right as well. *)
Lemma get_wf c k now : wf c → wf (get c k now).2.
Proof.
  intros Hwf. unfold get, getOrDeleteIfExpired, deleteIfExpired.
  destruct (Map_get k (cache c)) as [nd|] eqn:Hg; [|done].
  destruct (expired (expiry nd) now); simpl.
  - by apply delete_wf.
  - by eapply updateFrequency_wf.
Qed.

Lemma get_live c k nd now :
  wf c → min_ok c → Map_get k (cache c) = Some nd → expired (expiry nd) now = false →
  get c k now = (Some (value nd), updateFrequency c k) ∧
  wf (updateFrequency c k) ∧ min_ok (updateFrequency c k).
Proof.
  intros Hwf Hmin Hg He. unfold get, getOrDeleteIfExpired, deleteIfExpired.
  rewrite Hg, He. split; [done|].
  split; [by eapply updateFrequency_wf | by eapply updateFrequency_min].
Qed.

Lemma entriesLoop_wf pending now : ∀ c, wf c → wf (entriesLoop c pending now).2.
Proof.
  induction pending as [|[k nd] pending IH]; intros c Hwf; simpl; [done|].
  unfold deleteIfExpired. destruct (expired (expiry nd) now).
  - specialize (IH _ (delete_wf c k Hwf)).
    by destruct (entriesLoop (delete c k).2 pending now).
  - specialize (IH _ Hwf). by destruct (entriesLoop c pending now).
Qed.

(** ** Every operation but [resize] keeps the buckets in order *)

Lemma insert_min c k v exp :
  wf c → Map_get k (cache c) = None →
  min_ok (mkCache (capacity c) (Map_set k (mkNode k v 1 exp) (cache c))
                  (link (freqMap c) 1 k) 1 (size c + 1) (maxAge c)
                  (onEviction c) (calls c)).
Proof.
  intros Hwf Hg. pose proof (insert_wf c k v exp Hwf Hg) as Hwf'.
  apply min_ok_nonempty; [apply Map_set_nonempty|]. simpl. split.
  - apply wf_nonempty_bucket; [done|]. simpl.
    rewrite link_lookup, decide_True by done. done.
  - intros f Hf. by apply (wf_bucket_pos _ _ Hwf').
Qed.

Lemma set_full c k v opt now :
  wf c → full_min c → 1 ≤ capacity c → size c ≤ capacity c →
  wf (set c k v opt now) ∧ full_min (set c k v opt now) ∧
  capacity (set c k v opt now) = capacity c ∧
  size (set c k v opt now) ≤ capacity c.
Proof.
  intros Hwf Hfm Hcap Hsz.
  destruct (decide (size c >= capacity c)) as [Hfull|Hroom].
  - destruct (set_inv c k v opt now Hwf (Hfm Hfull) Hcap Hsz) as (Hwf' & Hmin' & Hc' & Hs').
    split_and!; [done | by intros _ | done | done].
  - unfold set. set (exp := expiry_of now (default (maxAge c) opt)).
    destruct (Map_get k (cache c)) as [nd|] eqn:Hg.
    + set (nd' := mkNode (key nd) v (freq nd) exp).
      set (c0 := mkCache (capacity c) (Map_set k nd' (cache c)) (freqMap c) (minFreq c)
                         (size c) (maxAge c) (onEviction c) (calls c)).
      assert (wf c0) as Hwf0 by (by apply (wf_replace c k nd nd')).
      assert (Map_get k (cache c0) = Some nd') as Hg0.
      { simpl. by rewrite Map_get_set, decide_True. }
      split; [by eapply updateFrequency_wf|].
      rewrite (updateFrequency_eq _ _ _ Hg0). unfold full_min. simpl.
      split_and!; [lia | done | lia].
    + rewrite decide_False by done.
      split; [by apply insert_wf|]. split; [intros _; by apply insert_min|].
      simpl. split; [done | lia].
Qed.

Lemma delete_fields c k :
  capacity (delete c k).2 = capacity c ∧
  (size (delete c k).2 = size c ∧ minFreq (delete c k).2 = minFreq c ∧
   freqMap (delete c k).2 = freqMap c ∧ cache (delete c k).2 = cache c
   ∨ size (delete c k).2 = size c - 1).
Proof.
  unfold delete. destruct (Map_get k (cache c)); [|by split; [|left]].
  destruct (unlink _ _ _). split; [done | by right].
Qed.

Lemma delete_full c k :
  wf c → full_min c → size c ≤ capacity c →
  wf (delete c k).2 ∧ full_min (delete c k).2 ∧
  capacity (delete c k).2 = capacity c ∧ size (delete c k).2 ≤ capacity c.
Proof.
  intros Hwf Hfm Hsz. pose proof (delete_wf c k Hwf) as Hwf'.
  destruct (delete_fields c k) as [Hc [(Hs & Hm & Hf & Hca)|Hs]].
  - split_and!; [done | | done | lia].
    unfold full_min, min_ok, nonempty_bucket in *. rewrite Hs, Hc, Hm, Hf, Hca. exact Hfm.
  - split_and!; [done | | done | lia]. unfold full_min. lia.
Qed.

Lemma get_full c k now :
  wf c → full_min c → size c ≤ capacity c →
  wf (get c k now).2 ∧ full_min (get c k now).2 ∧
  capacity (get c k now).2 = capacity c ∧ size (get c k now).2 ≤ capacity c.
Proof.
  intros Hwf Hfm Hsz. unfold get, getOrDeleteIfExpired, deleteIfExpired.
  destruct (Map_get k (cache c)) as [nd|] eqn:Hg; [|done].
  destruct (expired (expiry nd) now); simpl.
  - by apply delete_full.
  - split; [by eapply updateFrequency_wf|].
    assert (capacity (updateFrequency c k) = capacity c ∧
            size (updateFrequency c k) = size c) as [Hc Hs]
      by (by rewrite (updateFrequency_eq _ _ _ Hg)).
    split_and!; [|done|lia].
    unfold full_min. rewrite Hc, Hs. intros Hfull.
    by eapply updateFrequency_min; [| apply Hfm |].
Qed.

Lemma entriesLoop_full pending now : ∀ c,
  wf c → full_min c → size c ≤ capacity c →
  wf (entriesLoop c pending now).2 ∧ full_min (entriesLoop c pending now).2 ∧
  capacity (entriesLoop c pending now).2 = capacity c ∧
  size (entriesLoop c pending now).2 ≤ capacity c.
Proof.
  induction pending as [|[k nd] pending IH]; intros c Hwf Hfm Hsz; simpl; [done|].
  unfold deleteIfExpired. destruct (expired (expiry nd) now).
  - destruct (delete_full c k Hwf Hfm Hsz) as (Hwf1 & Hfm1 & Hc1 & Hs1).
    destruct (IH _ Hwf1 Hfm1) as (Hwf' & Hfm' & Hc' & Hs'); [lia|].
    destruct (entriesLoop (delete c k).2 pending now). simpl in *.
    split_and!; [done | done | congruence | lia].
  - specialize (IH _ Hwf Hfm Hsz). by destruct (entriesLoop c pending now).
Qed.

Lemma step_full c o :
  wf c → full_min c → 1 ≤ capacity c → size c ≤ capacity c →
  wf (step c o) ∧ full_min (step c o) ∧
  capacity (step c o) = capacity c ∧ size (step c o) ≤ capacity c.
Proof.
  intros Hwf Hfm Hcap Hsz.
  destruct o as [k v opt now|k now|k now|k| |now]; simpl.
  - by apply set_full.
  - by apply get_full.
  - by apply get_full.
  - by apply delete_full.
  - split_and!; [|unfold full_min; simpl; lia|done|simpl; lia].
    split; simpl; try done. apply NoDup_nil_2.
  - by apply entriesLoop_full.
Qed.

(** From a fresh cache of capacity at least 1, any run of these
    operations leaves every index key in the bucket of its frequency and
    in no other, the index as large as [size] reports, [size] within the
    capacity, and [minFreq] right whenever the cache is full. *)
Lemma run_full ops : ∀ c,
  wf c → full_min c → 1 ≤ capacity c → size c ≤ capacity c →
  wf (run c ops) ∧ full_min (run c ops) ∧
  capacity (run c ops) = capacity c ∧ size (run c ops) ≤ capacity c.
Proof.
  induction ops as [|o ops IH]; intros c Hwf Hfm Hcap Hsz; [done|].
  destruct (step_full c o Hwf Hfm Hcap Hsz) as (Hwf1 & Hfm1 & Hc1 & Hs1).
  destruct (IH (step c o) Hwf1 Hfm1) as (Hwf' & Hfm' & Hc' & Hs'); [lia..|].
  unfold run in *. simpl. split_and!; [done | done | congruence | lia].
Qed.
End Buckets.
End LFUFacts.

(** * The properties of the specification *)

Section Generic.
Context {K V : Type} `{EqDecision K}.

(** C1. For a cache of either policy built with capacity [C > 0], after
    each call of any finite run of [set] calls from the fresh state (the
    first [n] calls of [args], for every [n]), the call has returned and
    [size <= C]. *)
Theorem size_within_capacity (C : Z) (optMaxAge : option num) (cb : bool)
    (args : list (K * V * option num * Z)) (n : nat) :
  0 < C →
  (∃ c, LRU.sets (LRU.new C optMaxAge cb) (take n args) = LRU.Returns c ∧
        LRU.size c ≤ C) ∧
  LFU.size (LFU.sets (LFU.new C optMaxAge cb) (take n args)) ≤ C.
Proof.
  intros HC. split.
  - destruct (LRUFacts.sets_repr (take n args) (LRU.new C optMaxAge cb) [])
      as (c & l & Hsets & _ & Hcap & Hsz);
      [apply LRUFacts.repr_new | simpl; lia | simpl; lia |].
    exists c. split; [done|]. simpl in Hcap. lia.
  - destruct (LFUFacts.wf_new (K:=K) (V:=V) C optMaxAge cb) as [Hwf Hmin].
    destruct (LFUFacts.sets_inv (take n args) _ Hwf Hmin) as (_ & _ & _ & Hsz);
      [simpl; lia | simpl; lia |].
    exact Hsz.
Qed.

(** C6. In both caches [peek] is [get]: same result, same state
    afterwards. An absent key changes nothing; an expired entry is
    deleted; an entry that has not expired is moved to the head of the
    recency list (LRU) or has its frequency bumped (LFU). *)
Theorem peek_same_as_get :
  (∀ (c : @LRU.LRUCache K V) k now,
     LRU.peek c k now = LRU.get c k now ∧
     LRU.peek c k now =
       match Map_get k (LRU.cache c) with
       | None => (None, c)
       | Some a =>
           if expired (LRU.heap c !! a ≫= LRU.expiry) now
           then (None, (LRU.delete c k).2)
           else (LRU.value <$> LRU.heap (LRU.moveToHead c a) !! a,
                 LRU.moveToHead c a)
       end) ∧
  (∀ (c : @LFU.LFUCache K V) k now,
     LFU.peek c k now = LFU.get c k now ∧
     LFU.peek c k now =
       match Map_get k (LFU.cache c) with
       | None => (None, c)
       | Some nd =>
           if expired (LFU.expiry nd) now
           then (None, (LFU.delete c k).2)
           else (Some (LFU.value nd), LFU.updateFrequency c k)
       end).
Proof.
  split; intros c k now; (split; [done|]).
  - unfold LRU.peek, LRU.getOrDeleteIfExpired, LRU.deleteIfExpired.
    destruct (Map_get k (LRU.cache c)); [|done]. by destruct (expired _ now).
  - unfold LFU.peek, LFU.getOrDeleteIfExpired, LFU.deleteIfExpired.
    destruct (Map_get k (LFU.cache c)); [|done]. by destruct (expired _ now).
Qed.

(** No operation of the LRU cache assigns [capacity]. *)
Lemma LRU_entriesLoop_capacity pending now : ∀ c : @LRU.LRUCache K V,
  LRU.capacity (LRU.entriesLoop c pending now).2 = LRU.capacity c.
Proof.
  induction pending as [|[k a] pending IH]; intros c; simpl; [done|].
  unfold LRU.deleteIfExpired. destruct (expired _ now).
  - specialize (IH (LRU.delete c k).2).
    destruct (LRU.entriesLoop (LRU.delete c k).2 pending now). simpl in *.
    rewrite IH. unfold LRU.delete.
    destruct (Map_get k (LRU.cache c)); [|done].
    by destruct (LRU.node_prev _ _), (LRU.node_next _ _).
  - specialize (IH c). by destruct (LRU.entriesLoop c pending now).
Qed.

Lemma LFU_entriesLoop_capacity pending now : ∀ c : @LFU.LFUCache K V,
  LFU.capacity (LFU.entriesLoop c pending now).2 = LFU.capacity c.
Proof.
  induction pending as [|[k a] pending IH]; intros c; simpl; [done|].
  unfold LFU.deleteIfExpired. destruct (expired _ now).
  - specialize (IH (LFU.delete c k).2).
    destruct (LFU.entriesLoop (LFU.delete c k).2 pending now). simpl in *.
    rewrite IH. unfold LFU.delete.
    destruct (Map_get k (LFU.cache c)); [|done].
    by destruct (LFU.unlink _ _ _).
  - specialize (IH c). by destruct (LFU.entriesLoop c pending now).
Qed.

(** A [resize] that returns leaves the capacity bound, and so
    [maxSizeValue], as they were. *)
Lemma resize_keeps_capacity :
  (∀ (c c' : @LRU.LRUCache K V) newSize now,
     LRU.resize c newSize now = LRU.Returns c' →
     LRU.maxSizeValue c' = LRU.maxSizeValue c) ∧
  (∀ (c c' : @LFU.LFUCache K V) newSize now,
     LFU.resize c newSize now = inr c' →
     LFU.maxSizeValue c' = LFU.maxSizeValue c).
Proof.
  split; intros c c' newSize now.
  - unfold LRU.resize, LRU.entriesAscendingInternal, LRU.maxSizeValue.
    case_decide; [done|].
    pose proof (LRU_entriesLoop_capacity (LRU.cache c) now c) as Hcap.
    destruct (LRU.entriesLoop c (LRU.cache c) now) as [items c1]. simpl in Hcap.
    case_decide; intros [= <-]; simpl; [|done].
    unfold LRU.emitEvictions. by destruct (LRU.onEviction c1).
  - unfold LFU.resize, LFU.entriesAscendingInternal, LFU.maxSizeValue.
    case_decide; [done|].
    pose proof (LFU_entriesLoop_capacity (LFU.cache c) now c) as Hcap.
    destruct (LFU.entriesLoop c (LFU.cache c) now) as [items c1]. simpl in Hcap.
    case_decide; intros [= <-]; simpl; [|done].
    unfold LFU.emitEvictions. by destruct (LFU.onEviction c1).
Qed.

(** From a fresh LRU cache of capacity at least 1, any run of [set],
    [get], [peek], [delete], [clear] and iterations leaves the recency
    list holding exactly the entries of the index, the index as large as
    [size] reports, and [size] within the capacity. *)
Lemma LRU_reachable (C : Z) (optMaxAge : option num) (cb : bool)
    (ops : list (@LRU.op K V)) :
  1 ≤ C →
  ∃ l, LRU.repr (LRU.run (LRU.new C optMaxAge cb) ops) l ∧
       LRU.size (LRU.run (LRU.new C optMaxAge cb) ops) ≤ C ∧
       LRU.size (LRU.run (LRU.new C optMaxAge cb) ops) =
         Z.of_nat (length (LRU.cache (LRU.run (LRU.new C optMaxAge cb) ops))).
Proof.
  intros HC.
  destruct (LRUFacts.run_inv ops (LRU.new C optMaxAge cb) [])
    as (l & Hr & _ & Hs & Hn); [apply LRUFacts.repr_new | simpl; lia | simpl; lia |].
  exists l. by split_and!.
Qed.

(** From a fresh LFU cache of capacity at least 1, any run of the same
    operations leaves every index key in the bucket of its frequency and
    in no other, [size] within the capacity, and [minFreq] right whenever
    the cache is full, which is when [evict] reads it. *)
Lemma LFU_reachable (C : Z) (optMaxAge : option num) (cb : bool)
    (ops : list (@LFU.op K V)) :
  1 ≤ C →
  LFU.wf (LFU.run (LFU.new C optMaxAge cb) ops) ∧
  LFU.full_min (LFU.run (LFU.new C optMaxAge cb) ops) ∧
  LFU.size (LFU.run (LFU.new C optMaxAge cb) ops) ≤ C.
Proof.
  intros HC. destruct (LFUFacts.wf_new (K:=K) (V:=V) C optMaxAge cb) as [Hwf Hmin].
  destruct (LFUFacts.run_full ops _ Hwf (λ _, Hmin)) as (Hwf' & Hfm' & _ & Hs');
    [simpl; lia | simpl; lia |].
  by split_and!.
Qed.
End Generic.

Section Expiry.
Context {K V : Type} `{EqDecision K}.

Lemma expired_Some e now : e ≤ now → expired (Some e) now = true.
Proof. intros. unfold expired. by apply bool_decide_eq_true_2. Qed.

Lemma expired_None now : now < MAX_SAFE_INTEGER → expired None now = false.
Proof. intros. unfold expired. apply bool_decide_eq_false_2. simpl. lia. Qed.

Lemma LRU_delete_present (c : @LRU.LRUCache K V) k a :
  Map_get k (LRU.cache c) = Some a →
  (LRU.delete c k).1 = true ∧
  LRU.cache (LRU.delete c k).2 = Map_delete k (LRU.cache c) ∧
  LRU.size (LRU.delete c k).2 = LRU.size c - 1.
Proof.
  intros Hg. unfold LRU.delete. rewrite Hg.
  by destruct (LRU.node_prev _ _), (LRU.node_next _ _).
Qed.

Lemma LFU_delete_present (c : @LFU.LFUCache K V) k nd :
  Map_get k (LFU.cache c) = Some nd →
  (LFU.delete c k).1 = true ∧
  LFU.cache (LFU.delete c k).2 = Map_delete k (LFU.cache c) ∧
  LFU.size (LFU.delete c k).2 = LFU.size c - 1.
Proof.
  intros Hg. unfold LFU.delete. rewrite Hg. by destruct (LFU.unlink _ _ _).
Qed.

(** An expired entry of the LRU cache is still in the index, whatever the
    clock says, until [get] or [peek] reaches it; that call deletes it,
    takes one off [size] and answers [Nothing]. *)
Lemma LRU_expired_entry (c : @LRU.LRUCache K V) k a nd e now :
  Map_get k (LRU.cache c) = Some a → LRU.heap c !! a = Some nd →
  LRU.expiry nd = Some e → e ≤ now →
  LRU.has c k = true ∧
  LRU.get c k now = (None, (LRU.delete c k).2) ∧
  LRU.peek c k now = (None, (LRU.delete c k).2) ∧
  LRU.has (LRU.delete c k).2 k = false ∧
  LRU.size (LRU.delete c k).2 = LRU.size c - 1.
Proof.
  intros Hg Ha He Hle.
  destruct (LRU_delete_present c k a Hg) as (_ & Hc & Hs).
  assert (LRU.get c k now = (None, (LRU.delete c k).2)) as Hget.
  { unfold LRU.get, LRU.getOrDeleteIfExpired, LRU.deleteIfExpired.
    rewrite Hg, Ha. simpl. rewrite He. by rewrite expired_Some. }
  split_and!; try done.
  - unfold LRU.has, Map_has. apply bool_decide_eq_true_2. by rewrite Hg.
  - unfold LRU.has, Map_has. apply bool_decide_eq_false_2.
    rewrite Hc, Map_get_delete, decide_True by done. by intros [? ?].
Qed.

(** The same for the LFU cache. *)
Lemma LFU_expired_entry (c : @LFU.LFUCache K V) k nd e now :
  Map_get k (LFU.cache c) = Some nd → LFU.expiry nd = Some e → e ≤ now →
  LFU.has c k = true ∧
  LFU.get c k now = (None, (LFU.delete c k).2) ∧
  LFU.peek c k now = (None, (LFU.delete c k).2) ∧
  LFU.has (LFU.delete c k).2 k = false ∧
  LFU.size (LFU.delete c k).2 = LFU.size c - 1.
Proof.
  intros Hg He Hle.
  destruct (LFU_delete_present c k nd Hg) as (_ & Hc & Hs).
  assert (LFU.get c k now = (None, (LFU.delete c k).2)) as Hget.
  { unfold LFU.get, LFU.getOrDeleteIfExpired, LFU.deleteIfExpired.
    rewrite Hg, He. by rewrite expired_Some. }
  split_and!; try done.
  - unfold LFU.has, Map_has. apply bool_decide_eq_true_2. by rewrite Hg.
  - unfold LFU.has, Map_has. apply bool_decide_eq_false_2.
    rewrite Hc, Map_get_delete, decide_True by done. by intros [? ?].
Qed.
End Expiry.

Section Claims.
Context {K V : Type} `{EqDecision K}.
Import Examples.

(** C9. In both caches an entry whose expiry is [<= now] is still in the
    index and still counted by [size], whatever the clock says, until it
    is touched; [get] (or [peek]) on its key then deletes it, takes one
    off [size] and answers [Nothing]. In particular, after
    [set(a, 1, {maxAge: 1000})] at clock value [t0] the cache has size 1
    at any later time, and [get(a)] at [t0 + 1500] answers [Nothing] and
    leaves size 0. *)
Theorem expired_entry_counts_until_touched
    (c : @LRU.LRUCache K V) (k : K) (x : LRU.addr) (nd : LRU.LRUNode) (e now : Z)
    (c' : @LFU.LFUCache K V) (k' : K) (nd' : LFU.LFUNode) (e' now' : Z) (t0 : Z) :
  Map_get k (LRU.cache c) = Some x → LRU.heap c !! x = Some nd →
  LRU.expiry nd = Some e → e ≤ now →
  Map_get k' (LFU.cache c') = Some nd' → LFU.expiry nd' = Some e' → e' ≤ now' →
  (LRU.has c k = true ∧
   LRU.get c k now = (None, (LRU.delete c k).2) ∧
   LRU.peek c k now = (None, (LRU.delete c k).2) ∧
   LRU.has (LRU.delete c k).2 k = false ∧
   LRU.size (LRU.delete c k).2 = LRU.size c - 1) ∧
  (LFU.has c' k' = true ∧
   LFU.get c' k' now' = (None, (LFU.delete c' k').2) ∧
   LFU.peek c' k' now' = (None, (LFU.delete c' k').2) ∧
   LFU.has (LFU.delete c' k').2 k' = false ∧
   LFU.size (LFU.delete c' k').2 = LFU.size c' - 1) ∧
  (LRU.set (LRU.new 3 None false) "a" 1 (Some (Fin 1000)) t0 = LRU.Returns (lru_ttl t0) ∧
   LRU.size (lru_ttl t0) = 1 ∧ LRU.has (lru_ttl t0) "a" = true ∧
   (LRU.get (lru_ttl t0) "a" (t0 + 1500)).1 = None ∧
   LRU.size (LRU.get (lru_ttl t0) "a" (t0 + 1500)).2 = 0 ∧
   LRU.has (LRU.get (lru_ttl t0) "a" (t0 + 1500)).2 "a" = false) ∧
  (LFU.size (lfu_ttl t0) = 1 ∧ LFU.has (lfu_ttl t0) "a" = true ∧
   (LFU.get (lfu_ttl t0) "a" (t0 + 1500)).1 = None ∧
   LFU.size (LFU.get (lfu_ttl t0) "a" (t0 + 1500)).2 = 0 ∧
   LFU.has (LFU.get (lfu_ttl t0) "a" (t0 + 1500)).2 "a" = false).
Proof.
  intros Hg Hx He Hle Hg' He' Hle'.
  split; [by eapply LRU_expired_entry|].
  split; [by eapply LFU_expired_entry|].
  split.
  - destruct (LRU_expired_entry (lru_ttl t0) "a" 0%nat
                (LRU.mkNode "a" 1 None None (Some (t0 + 1000))) (t0 + 1000) (t0 + 1500))
      as (Hhas & Hget & _ & Hgone & Hsize); [done | done | done | lia |].
    rewrite Hget. by split_and!.
  - destruct (LFU_expired_entry (lfu_ttl t0) "a"
                (LFU.mkNode "a" 1 1 (Some (t0 + 1000))) (t0 + 1000) (t0 + 1500))
      as (Hhas & Hget & _ & Hgone & Hsize); [done | done | lia |].
    rewrite Hget. by split_and!.
Qed.



End Claims.

Section Divergences.
Import Examples.

(** [LRUCache.set] on a key that is present: the value is replaced and
    the node goes to the head of the list, but its expiry stays what it
    was, whatever [maxAge] the call carries. *)
Lemma LRU_set_existing_expiry {K V} `{EqDecision K}
    (c : @LRU.LRUCache K V) k v opt now x :
  Map_get k (LRU.cache c) = Some x →
  ∃ c', LRU.set c k v opt now = LRU.Returns c' ∧
        LRU.head c' = Some x ∧
        LRU.expiry <$> LRU.heap c' !! x = LRU.expiry <$> LRU.heap c !! x ∧
        LRU.value <$> LRU.heap c' !! x = (λ _, v) <$> LRU.heap c !! x.
Proof.
  intros Hg. rewrite (LRUFacts.set_existing _ _ _ _ _ _ Hg).
  eexists. split; [done|].
  set (c0 := LRU.with_heap c (LRU.set_value x v (LRU.heap c))).
  pose proof (LRUFacts.moveToHead_data c0 x x) as Hd.
  destruct (LRUFacts.moveToHead_fields c0 x) as (_ & _ & _ & _ & _ & _ & Hh).
  split; [done|]. simpl in Hd.
  rewrite LRUFacts.lookup_set_value, decide_True in Hd by done.
  destruct (LRU.heap (LRU.moveToHead c0 x) !! x) as [n'|], (LRU.heap c !! x) as [n|];
    simpl in *; try done.
  injection Hd as Hk Hv He. by rewrite Hv, He.
Qed.

(** C5, at the failing input. After [set(a, 1, {maxAge: 1000})] and
    [set(a, 2, {maxAge: 5000})] at clock value 0, the LRU entry holds the
    new value 2 with the old expiry 1000, so [get(a)] at 1500 is absent.
    [LFUCache.set], on the same calls, stores the expiry 5000 and
    [get(a)] at 1500 is 2. *)
Theorem lru_overwrite_keeps_old_expiry :
  LRU.set (lru_ttl 0) "a" 2 (Some (Fin 5000)) 0 = LRU.Returns lru_overwritten ∧
  LRU.heap lru_overwritten !! 0%nat = Some (LRU.mkNode "a" 2 None None (Some 1000)) ∧
  LRU.head lru_overwritten = Some 0%nat ∧
  (LRU.get lru_overwritten "a" 1500).1 = None ∧
  Map_get "a" (LFU.cache lfu_overwritten) = Some (LFU.mkNode "a" 2 2 (Some 5000)) ∧
  (LFU.get lfu_overwritten "a" 1500).1 = Some 2.
Proof. by vm_compute. Qed.

(** Construction with [maxAge: 0] gives the cache an infinite default:
    entries set without a [maxAge] of their own carry no expiry. *)
Lemma maxAge_zero_at_construction {K V} C cb :
  LRU.maxAge (LRU.new (K:=K) (V:=V) C (Some (Fin 0)) cb) = PosInf ∧
  LFU.maxAge (LFU.new (K:=K) (V:=V) C (Some (Fin 0)) cb) = PosInf ∧
  ∀ now, expiry_of now (default PosInf None) = None.
Proof. done. Qed.

(** A per-call [maxAge: 0] computes the expiry [now + 0]. In the LFU
    cache it is stored on every path, and the entry is gone at its next
    [get]. *)
Lemma maxAge_zero_per_call {K V} `{EqDecision K} (c : @LFU.LFUCache K V) k v now now' :
  now ≤ now' →
  expiry_of now (default (LFU.maxAge c) (Some (Fin 0))) = Some (now + 0) ∧
  (LFU.get (LFU.set c k v (Some (Fin 0)) now) k now').1 = None.
Proof.
  intros Hle. split; [done|].
  assert (∃ nd, Map_get k (LFU.cache (LFU.set c k v (Some (Fin 0)) now)) = Some nd ∧
                LFU.expiry nd = Some (now + 0)) as (nd & Hg & He).
  { unfold LFU.set. simpl. destruct (Map_get k (LFU.cache c)) as [nd|] eqn:Hg.
    - erewrite LFUFacts.updateFrequency_eq
        by (simpl; by rewrite Map_get_set, decide_True).
      simpl. rewrite Map_get_set, decide_True by done. by eexists.
    - simpl. rewrite Map_get_set, decide_True by done. by eexists. }
  destruct (LFU_expired_entry _ k nd (now + 0) now' Hg He) as (_ & -> & _); [lia | done].
Qed.

(** C10, at the failing input. [set(a, 1)] at clock value 0 and then
    [set(a, 2, {maxAge: 0})] at 10: the LRU entry keeps no expiry and
    [get(a)] at 20 answers 2; in the LFU cache the same calls leave the
    expiry 10 and [get(a)] at 20 is absent. On a key that is new to the
    LRU cache the expiry is stored and the entry is gone at its next
    [get]. *)
Theorem lru_overwrite_ignores_maxAge_zero :
  LRU.heap lru_zero !! 0%nat = Some (LRU.mkNode "a" 2 None None None) ∧
  (LRU.get lru_zero "a" 20).1 = Some 2 ∧
  Map_get "a" (LFU.cache lfu_zero) = Some (LFU.mkNode "a" 2 2 (Some 10)) ∧
  (LFU.get lfu_zero "a" 20).1 = None ∧
  (LRU.get (LRU.state_of (LRU.set (LRU.new 3 None false) "a" 2 (Some (Fin 0)) 10))
           "a" 20).1 = None ∧
  LRU.maxAge (LRU.new (K:=string) (V:=Z) 3 (Some (Fin 0)) false) = PosInf ∧
  (LRU.get (LRU.state_of (LRU.set (LRU.new 3 (Some (Fin 0)) false) "a" 2 None 10))
           "a" 20).1 = Some 2.
Proof. by vm_compute. Qed.

(** C8, at the failing input. [resize(2)] on a cache built with
    [maxSize: 3] and holding a, b, c returns, and [maxSizeValue] is
    still 3; the next [set] of a new key fills the cache to 3 entries
    again without evicting. The same in the LFU cache. *)
Theorem resize_leaves_capacity :
  LRU.resize lru_abc 2 0 = LRU.Returns lru_resized ∧
  LRU.size lru_resized = 2 ∧ LRU.maxSizeValue lru_resized = 3 ∧
  LRU.calls lru_resized = [("a", 1)] ∧
  (∃ x, LRU.set lru_resized "d" 4 None 0 = LRU.Returns x ∧
        LRU.size x = 3 ∧ LRU.calls x = [("a", 1)] ∧
        (LRU.cache x).*1 = ["b"; "c"; "d"]) ∧
  LFU.resize lfu_abc 2 0 = inr lfu_resized ∧
  LFU.size lfu_resized = 2 ∧ LFU.maxSizeValue lfu_resized = 3 ∧
  LFU.size (LFU.set lfu_resized "d" 4 None 0) = 3 ∧
  LFU.calls (LFU.set lfu_resized "d" 4 None 0) = [("a", 1)].
Proof.
  split_and!; try (by vm_compute).
  eexists. split; [by vm_compute|]. by vm_compute.
Qed.

(** C4, at the failing inputs. [delete] of the only entry leaves an empty
    cache with [minFreq = 2]; [delete] of the entry of frequency 1 beside
    one of frequency 3 leaves [minFreq = 2] with no bucket at 2; after a
    [resize] that dropped key [a] from the index but not from its bucket,
    setting [a] again puts it in two buckets; and after [resize(2)] on a,
    b, c the next eviction picks the dropped key [a], so that nothing
    leaves the index and [size] reaches 4 with capacity 3. *)
Theorem lfu_delete_and_resize_break_buckets :
  (LFU.cache lfu_emptied = [] ∧ LFU.minFreq lfu_emptied = 2 ∧
   ¬ LFU.min_ok lfu_emptied) ∧
  ((LFU.cache lfu_gap).*1 = ["b"] ∧ LFU.minFreq lfu_gap = 2 ∧
   LFU.freqMap lfu_gap !! 2 = None ∧ LFU.freqMap lfu_gap !! 3 = Some ["b"] ∧
   ¬ LFU.min_ok lfu_gap) ∧
  (LFU.freq <$> Map_get "a" (LFU.cache lfu_twice) = Some 1 ∧
   LFU.freqMap lfu_twice !! 1 = Some ["b"; "c"; "a"] ∧
   LFU.freqMap lfu_twice !! 2 = Some ["a"] ∧
   ¬ LFU.wf lfu_twice) ∧
  ((LFU.cache lfu_resized).*1 = ["b"; "c"] ∧
   LFU.freqMap lfu_resized !! 1 = Some ["a"; "b"; "c"] ∧
   (LFU.cache lfu_resized_full).*1 = ["b"; "c"; "d"; "e"] ∧
   LFU.size lfu_resized_full = 4 ∧ LFU.capacity lfu_resized_full = 3 ∧
   LFU.calls lfu_resized_full = [("a", 1)]).
Proof.
  split_and!; try (by vm_compute).
  - intros Hm. vm_compute in Hm. by destruct Hm as [(b & Hb & _) _].
  - intros Hwf. destruct (LFU.wf_bucket _ Hwf 2 ["a"]) as (_ & _ & Hel); [by vm_compute|].
    destruct (Hel "a") as (nd & Hg & Hf); [apply list_elem_of_here|].
    vm_compute in Hg. injection Hg as <-. by vm_compute in Hf.
Qed.

(** C7, at the failing input. [resize(2)] on the LRU cache holding a, b,
    c rebuilds the index as b, c and leaves the recency list as it was:
    walking it from [head] still meets c, b, a, so no list represents
    the state. After [set(d, 4); set(e, 5)] the index holds four keys
    while [size] reads 3, and [onEviction] has been called twice for
    [(a, 1)]. *)
Theorem lru_resize_leaves_list_behind :
  LRU.resize lru_abc 2 0 = LRU.Returns lru_resized ∧
  (LRU.cache lru_resized).*1 = ["b"; "c"] ∧ LRU.size lru_resized = 2 ∧
  LRU.recency lru_resized 10 = ["c"; "b"; "a"] ∧
  (∀ l, ¬ LRU.repr lru_resized l) ∧
  LRU.sets lru_resized [("d", 4, None, 0); ("e", 5, None, 0)]
    = LRU.Returns lru_resized_full ∧
  (LRU.cache lru_resized_full).*1 = ["b"; "c"; "d"; "e"] ∧
  LRU.size lru_resized_full = 3 ∧
  LRU.calls lru_resized_full = [("a", 1); ("a", 1)].
Proof.
  split_and!; try (by vm_compute).
  intros l [Hnd Hseg Hhead Htail Hkeys Hidx Hkey Hsize].
  assert (length l = 2%nat) as Hlen.
  { apply Nat2Z.inj. rewrite <- Hsize. by vm_compute. }
  destruct l as [|x [|y [|z l]]]; try done.
  vm_compute in Hhead. injection Hhead as <-.
  destruct Hseg as (_ & _ & Hn2 & _ & _ & Hn1 & _).
  vm_compute in Hn2. injection Hn2 as <-. by vm_compute in Hn1.
Qed.
End Divergences.

(** * The theorems at the caches of the test suite *)
Section Witnesses.
Import Examples.

Lemma lru_abc_repr : LRU.repr lru_abc ([2; 1] ++ [0])%nat.
Proof.
  pose proof (LRUFacts.repr_new (K:=string) (V:=Z) 3 None true) as H0.
  pose proof (LRUFacts.inserted_repr _ _ "a" 1 None H0 eq_refl) as H1.
  pose proof (LRUFacts.inserted_repr _ _ "b" 2 None H1 eq_refl) as H2.
  exact (LRUFacts.inserted_repr _ _ "c" 3 None H2 eq_refl).
Qed.

Lemma lfu_used_inv : LFU.wf lfu_used ∧ LFU.min_ok lfu_used.
Proof.
  destruct (LFUFacts.wf_new (K:=string) (V:=Z) 3 None true) as [H0 M0].
  destruct (LFUFacts.sets_inv [("a", 1, None, 0); ("b", 2, None, 0); ("c", 3, None, 0)]
              _ H0 M0) as (H1 & M1 & _); [done | done |].
  fold lfu_abc in H1, M1.
  destruct (LFUFacts.get_live lfu_abc "a" (LFU.mkNode "a" 1 1 None) 0 H1 M1)
    as (E1 & H2 & M2); [by vm_compute | by vm_compute |].
  destruct (LFUFacts.get_live _ "a" (LFU.mkNode "a" 1 2 None) 0 H2 M2)
    as (E2 & H3 & M3); [by vm_compute | by vm_compute |].
  destruct (LFUFacts.get_live _ "b" (LFU.mkNode "b" 2 1 None) 0 H3 M3)
    as (E3 & H4 & M4); [by vm_compute | by vm_compute |].
  unfold lfu_used. rewrite E1. cbn [snd]. rewrite E2. cbn [snd]. rewrite E3. cbn [snd].
  by split.
Qed.

Lemma size_within_capacity_witness :
  0 < 3 ∧
  ((∃ x, LRU.sets (LRU.new 3 None true)
           (take 4 [("a", 1, None, 0); ("b", 2, None, 0); ("c", 3, None, 0);
                    ("d", 4, None, 0)]) = LRU.Returns x ∧ LRU.size x ≤ 3) ∧
   LFU.size (LFU.sets (LFU.new 3 None true)
               (take 4 [("a", 1, None, 0); ("b", 2, None, 0); ("c", 3, None, 0);
                        ("d", 4, None, 0)])) ≤ 3).
Proof.
  split; [lia|].
  apply (size_within_capacity 3 None true
           [("a", 1, None, 0); ("b", 2, None, 0); ("c", 3, None, 0); ("d", 4, None, 0)] 4).
  lia.
Defined.



Lemma expired_entry_counts_until_touched_witness :
  Map_get "a" (LRU.cache (lru_ttl 0)) = Some 0%nat ∧
  LRU.heap (lru_ttl 0) !! 0%nat = Some (LRU.mkNode "a" 1 None None (Some 1000)) ∧
  1000 ≤ 1500 ∧
  Map_get "a" (LFU.cache (lfu_ttl 0)) = Some (LFU.mkNode "a" 1 1 (Some 1000)) ∧
  LRU.get (lru_ttl 0) "a" 1500 = (None, (LRU.delete (lru_ttl 0) "a").2) ∧
  LRU.size (LRU.delete (lru_ttl 0) "a").2 = LRU.size (lru_ttl 0) - 1 ∧
  LFU.get (lfu_ttl 0) "a" 1500 = (None, (LFU.delete (lfu_ttl 0) "a").2) ∧
  LFU.size (LFU.delete (lfu_ttl 0) "a").2 = LFU.size (lfu_ttl 0) - 1.
Proof.
  split; [reflexivity|]. split; [reflexivity|]. split; [lia|]. split; [reflexivity|].
  destruct (expired_entry_counts_until_touched
              (lru_ttl 0) "a" 0%nat (LRU.mkNode "a" 1 None None (Some 1000)) 1000 1500
              (lfu_ttl 0) "a" (LFU.mkNode "a" 1 1 (Some 1000)) 1000 1500 0)
    as ((_ & Hget & _ & _ & Hsize) & (_ & Hget' & _ & _ & Hsize') & _);
    [reflexivity | reflexivity | reflexivity | lia | reflexivity | reflexivity | lia |].
  split_and!; assumption.
Defined.
End Witnesses.

(** * Further facts about lists *)
Section ListFacts.
Context {A : Type}.

Lemma filter_ext_in (P Q : A → Prop) `{∀ x, Decision (P x)} `{∀ x, Decision (Q x)}
    (l : list A) :
  (∀ x, x ∈ l → (P x ↔ Q x)) → filter P l = filter Q l.
Proof.
  induction l as [|x l IH]; [done|]. intros HPQ.
  rewrite !filter_cons.
  rewrite IH by (intros y Hy; apply HPQ; by right).
  destruct (decide (P x)) as [HP|HP], (decide (Q x)) as [HQ|HQ]; try done.
  - destruct HQ. apply HPQ; [by left | done].
  - destruct HP. apply HPQ; [by left | done].
Qed.

Lemma filter_all (P : A → Prop) `{∀ x, Decision (P x)} (l : list A) :
  (∀ x, x ∈ l → P x) → filter P l = l.
Proof.
  induction l as [|x l IH]; [done|]. intros HP.
  rewrite filter_cons_True by (apply HP; by left).
  f_equal. apply IH. intros y Hy. apply HP. by right.
Qed.

Lemma omap_ext_in {B} (f g : A → option B) (l : list A) :
  (∀ x, x ∈ l → f x = g x) → omap f l = omap g l.
Proof.
  induction l as [|x l IH]; [done|]. intros Hfg. csimpl.
  rewrite (Hfg x) by left. rewrite IH; [done|]. intros y Hy. apply Hfg. by right.
Qed.

Lemma omap_reverse {B} (f : A → option B) (l : list A) :
  omap f (reverse l) = reverse (omap f l).
Proof.
  induction l as [|x l IH]; [done|].
  rewrite reverse_cons, omap_app, IH. csimpl.
  destruct (f x); csimpl; [by rewrite reverse_cons | by rewrite app_nil_r].
Qed.
End ListFacts.

Section MapFacts.
Context {K V : Type} `{EqDecision K}.
Implicit Types (m : list (K * V)) (k : K).

Lemma omap_fmap_fst {B} (g : K → option B) m :
  omap g m.*1 = omap (λ p, g p.1) m.
Proof.
  induction m as [|[k v] m IH]; [done|]. csimpl. by rewrite IH.
Qed.

Lemma filter_keys_NoDup (P : K * V → Prop) `{∀ x, Decision (P x)} m :
  NoDup m.*1 → NoDup (filter P m).*1.
Proof.
  intros Hnd. eapply sublist_NoDup; [done|]. apply fmap_sublist, sublist_filter.
Qed.

Lemma take_keys_NoDup m n : NoDup m.*1 → NoDup (take n m).*1.
Proof. intros Hnd. eapply sublist_NoDup; [done|]. apply fmap_sublist, sublist_take. Qed.

Lemma drop_keys_NoDup m n : NoDup m.*1 → NoDup (drop n m).*1.
Proof. intros Hnd. eapply sublist_NoDup; [done|]. apply fmap_sublist, sublist_drop. Qed.

(** With unique keys, the pairs of [m] whose key is none of those [P]
    rejects among [pending], a list of the same pairs, are the pairs [P]
    accepts. *)
Lemma filter_by_keys (P : K * V → Prop) `{∀ x, Decision (P x)} m pending :
  NoDup m.*1 → (∀ x, x ∈ pending ↔ x ∈ m) →
  filter (λ x, x.1 ∉ (filter (λ p, ¬ P p) pending).*1) m = filter P m.
Proof.
  intros Hnd Hsame. apply filter_ext_in. intros [k v] Hin. simpl. split.
  - intros Hk. destruct (decide (P (k, v))) as [|HnP]; [done|].
    destruct Hk. apply list_elem_of_fmap. exists (k, v). split; [done|].
    apply list_elem_of_filter. split; [done | by apply Hsame].
  - intros HP [[k' v'] [Heq [HnP Hin']%list_elem_of_filter]]%list_elem_of_fmap.
    simpl in Heq. subst k'. apply Hsame in Hin'.
    assert (v' = v) as ->.
    { apply (Map_get_NoDup _ _ _ Hnd) in Hin, Hin'. congruence. }
    done.
Qed.
End MapFacts.

(** * Further properties of the LFU cache *)
Section LFUBehaviour.
Import LFU.
Context {K V : Type} `{EqDecision K}.
Abbreviation LFUNode := (@LFUNode K V).
Abbreviation LFUCache := (@LFUCache K V).
Implicit Types (c : LFUCache) (k : K) (v : V) (nd : LFUNode).

Lemma lfu_delete_state c k :
  capacity (delete c k).2 = capacity c ∧ maxAge (delete c k).2 = maxAge c ∧
  onEviction (delete c k).2 = onEviction c ∧ calls (delete c k).2 = calls c ∧
  cache (delete c k).2 = Map_delete k (cache c) ∧
  size (delete c k).2 = (if has c k then size c - 1 else size c) ∧
  (delete c k).1 = has c k.
Proof.
  unfold delete, has, Map_has. destruct (Map_get k (cache c)) as [nd|] eqn:Hg.
  - rewrite (bool_decide_eq_true_2 (is_Some (Some nd))) by (by eexists).
    destruct (unlink (freqMap c) (freq nd) k); simpl. by split_and!.
  - rewrite bool_decide_eq_false_2 by (by intros [? ?]). simpl.
    split_and!; try done. symmetry. apply Map_delete_absent. by apply Map_get_None.
Qed.

Lemma lfu_updateFrequency_state c k :
  capacity (updateFrequency c k) = capacity c ∧ maxAge (updateFrequency c k) = maxAge c ∧
  onEviction (updateFrequency c k) = onEviction c ∧
  calls (updateFrequency c k) = calls c ∧ size (updateFrequency c k) = size c.
Proof.
  unfold updateFrequency. destruct (Map_get k (cache c)) as [nd|]; [|done].
  destruct (unlink (freqMap c) (freq nd) (key nd)); simpl. by split_and!.
Qed.

Lemma lfu_updateFrequency_get c k nd k' :
  Map_get k (cache c) = Some nd →
  Map_get k' (cache (updateFrequency c k)) =
    if decide (k = k')
    then Some (mkNode (key nd) (value nd) (freq nd + 1) (expiry nd))
    else Map_get k' (cache c).
Proof.
  intros Hg. rewrite (LFUFacts.updateFrequency_eq c k nd Hg). simpl.
  apply Map_get_set.
Qed.

Lemma lfu_evict_state c :
  capacity (evict c) = capacity c ∧ maxAge (evict c) = maxAge c ∧
  onEviction (evict c) = onEviction c ∧
  (calls (evict c) = calls c ∨
   onEviction c = true ∧ ∃ kv, calls (evict c) = calls c ++ [kv]) ∧
  (∀ k', Map_get k' (cache (evict c)) = Map_get k' (cache c) ∨
         Map_get k' (cache (evict c)) = None).
Proof.
  unfold evict. destruct (freqMap c !! minFreq c) as [b|]; [|by auto 10].
  destruct (Set_first b) as [k|]; [|by auto 10].
  destruct (Map_get k (cache c)) as [nd|]; [|by auto 10]. simpl.
  split_and!; try done.
  - destruct (onEviction c); [right; eauto | by left].
  - intros k'. rewrite Map_get_delete. destruct (decide (k = k')); auto.
Qed.

(** The node [set] leaves in the index under the key. *)
Lemma lfu_set_then_get_index c k v opt now :
  ∃ nd, Map_get k (cache (set c k v opt now)) = Some nd ∧
        value nd = v ∧
        expiry nd = expiry_of now (default (maxAge c) opt) ∧
        freq nd = match Map_get k (cache c) with
                  | Some old => freq old + 1
                  | None => 1
                  end.
Proof.
  unfold set. destruct (Map_get k (cache c)) as [old|] eqn:Hg.
  - erewrite lfu_updateFrequency_get
      by (simpl; by rewrite Map_get_set, decide_True).
    rewrite decide_True by done. by eexists.
  - simpl. rewrite Map_get_set, decide_True by done. by eexists.
Qed.

(** X1. [set] followed by a lookup, in any state of the LFU cache: the
    index then holds the key with the value given, the expiry computed
    from this call ([now + maxAge], none for an infinite [maxAge]) and
    frequency 1 for a new key, the old frequency plus one for a key
    already there; [has] is true, and [get] at clock value [now'] answers
    the value unless that expiry is [<= now']. *)
Theorem lfu_set_then_get c k v opt now now' :
  (∃ nd, Map_get k (cache (set c k v opt now)) = Some nd ∧
         value nd = v ∧
         expiry nd = expiry_of now (default (maxAge c) opt) ∧
         freq nd = match Map_get k (cache c) with
                   | Some old => freq old + 1
                   | None => 1
                   end) ∧
  has (set c k v opt now) k = true ∧
  (get (set c k v opt now) k now').1 =
    (if expired (expiry_of now (default (maxAge c) opt)) now' then None else Some v).
Proof.
  set (e := expiry_of now (default (maxAge c) opt)).
  destruct (lfu_set_then_get_index c k v opt now) as (nd & Hnd & Hv & He & Hf).
  fold e in He.
  split; [by exists nd|]. split.
  - unfold has, Map_has. rewrite Hnd. by apply bool_decide_eq_true_2.
  - unfold get, getOrDeleteIfExpired, deleteIfExpired. rewrite Hnd, He.
    destruct (expired e now'); [done|]. simpl. by rewrite Hv.
Qed.

(** X2. A [set] that overwrites a key, or adds one while [size] is below
    the capacity, leaves every other key of the LFU index with the node it
    had and calls [onEviction] not at all; [size] stays as it was on an
    overwrite and grows by one on an addition. *)
Theorem lfu_set_without_overflow c k v opt now :
  is_Some (Map_get k (cache c)) ∨ size c < capacity c →
  (∀ k', k' ≠ k → Map_get k' (cache (set c k v opt now)) = Map_get k' (cache c)) ∧
  calls (set c k v opt now) = calls c ∧
  size (set c k v opt now) = (if has c k then size c else size c + 1) ∧
  capacity (set c k v opt now) = capacity c.
Proof.
  intros Hcase. unfold set, has, Map_has.
  destruct (Map_get k (cache c)) as [old|] eqn:Hg.
  - rewrite (bool_decide_eq_true_2 (is_Some (Some old))) by (by eexists).
    match goal with |- context [updateFrequency ?c1 k] => set (c0 := c1) end.
    destruct (lfu_updateFrequency_state c0 k) as (Hc & _ & _ & Hcalls & Hs).
    split_and!; try done.
    intros k' Hne.
    erewrite lfu_updateFrequency_get by (simpl; by rewrite Map_get_set, decide_True).
    rewrite decide_False by done. simpl. rewrite Map_get_set. by rewrite decide_False.
  - rewrite bool_decide_eq_false_2 by (by intros [? ?]).
    destruct Hcase as [[? ?]|Hlt]; [done|].
    rewrite decide_False by lia. simpl. split_and!; try done.
    intros k' Hne. rewrite Map_get_set. by rewrite decide_False.
Qed.

(** X3. [delete] in any state of the LFU cache: it answers whether the key
    was in the index; afterwards the key is not in the index, every other
    key has the node it had, [size] is one less if the key was there and
    unchanged otherwise, the capacity is unchanged and [onEviction] is not
    called. Deleting a key that is not there changes nothing at all. *)
Theorem lfu_delete_removes_only_the_key c k :
  (delete c k).1 = has c k ∧
  has (delete c k).2 k = false ∧
  (∀ k', k' ≠ k → Map_get k' (cache (delete c k).2) = Map_get k' (cache c)) ∧
  size (delete c k).2 = (if has c k then size c - 1 else size c) ∧
  capacity (delete c k).2 = capacity c ∧
  calls (delete c k).2 = calls c ∧
  (has c k = false → (delete c k).2 = c).
Proof.
  destruct (lfu_delete_state c k) as (Hc & _ & _ & Hcalls & Hm & Hs & Hr).
  split_and!; try done.
  - unfold has, Map_has. rewrite Hm, Map_get_delete, decide_True by done.
    apply bool_decide_eq_false_2. by intros [? ?].
  - intros k' Hne. rewrite Hm, Map_get_delete. by rewrite decide_False.
  - unfold has, Map_has, delete. intros Hh%bool_decide_eq_false.
    destruct (Map_get k (cache c)); [|done]. by destruct Hh.
Qed.

(** X4. [get] (and [peek], which runs the same code) on an LFU entry that
    has not expired, in a state whose buckets are in order: it answers the
    stored value; the entry keeps its value and expiry and its frequency
    goes up by one; the key leaves the bucket of the old frequency and is
    added last to the bucket of the new one, so that among entries of equal
    frequency the one that reached it first is evicted first; no other
    bucket and no other entry changes, nor the order of the index, [size]
    or the [onEviction] log; the buckets stay in order. *)
Theorem lfu_get_bumps_frequency c k nd now :
  wf c → Map_get k (cache c) = Some nd → expired (expiry nd) now = false →
  (get c k now).1 = Some (value nd) ∧
  peek c k now = get c k now ∧
  Map_get k (cache (get c k now).2) =
    Some (mkNode k (value nd) (freq nd + 1) (expiry nd)) ∧
  (∀ k', k' ≠ k → Map_get k' (cache (get c k now).2) = Map_get k' (cache c)) ∧
  (cache (get c k now).2).*1 = (cache c).*1 ∧
  freqMap (get c k now).2 !! (freq nd + 1) =
    Some (default [] (freqMap c !! (freq nd + 1)) ++ [k]) ∧
  (∀ b, freqMap (get c k now).2 !! freq nd = Some b → k ∉ b) ∧
  (∀ f, f ≠ freq nd → f ≠ freq nd + 1 →
        freqMap (get c k now).2 !! f = freqMap c !! f) ∧
  size (get c k now).2 = size c ∧ calls (get c k now).2 = calls c ∧
  wf (get c k now).2.
Proof.
  intros Hwf Hg Hlive.
  assert (get c k now = (Some (value nd), updateFrequency c k)) as Hget.
  { unfold get, getOrDeleteIfExpired, deleteIfExpired. by rewrite Hg, Hlive. }
  assert (peek c k now = get c k now) as Hpeek by done.
  rewrite Hget. cbn [fst snd].
  destruct (wf_node c Hwf k nd Hg) as (Hk & _ & _).
  pose proof (LFUFacts.updateFrequency_wf c k nd Hwf Hg) as Hwf'.
  rewrite (LFUFacts.updateFrequency_eq c k nd Hg) in *. rewrite Hk in *.
  cbn [cache freqMap size calls].
  split_and!; try done.
  - by rewrite Map_get_set, decide_True.
  - intros k' Hne. rewrite Map_get_set. by rewrite decide_False.
  - apply Map_set_keys. by eapply Map_get_key.
  - rewrite LFUFacts.link_lookup, decide_True by done. f_equal.
    rewrite LFUFacts.unlink_lookup, decide_False by lia.
    unfold Set_add. rewrite decide_False; [done|].
    destruct (freqMap c !! (freq nd + 1)) as [b|] eqn:Hb; simpl.
    + intros Hin. destruct (wf_bucket c Hwf _ _ Hb) as (_ & _ & Hall).
      destruct (Hall k Hin) as (nd' & Hg' & Hf'). rewrite Hg in Hg'.
      injection Hg' as <-. lia.
    + apply not_elem_of_nil.
  - intros b. rewrite LFUFacts.link_lookup, decide_False by lia.
    rewrite LFUFacts.unlink_lookup, decide_True by done.
    destruct (freqMap c !! freq nd) as [b0|]; simpl; [|done].
    intros Hb Hin.
    assert (b = Set_delete k b0) as ->.
    { destruct (Set_delete k b0); [done | by injection Hb]. }
    apply elem_of_Set_delete in Hin. by destruct Hin.
  - intros f Hf Hf'. rewrite LFUFacts.link_lookup, decide_False by done.
    by rewrite LFUFacts.unlink_lookup, decide_False.
Qed.

(** The loop of [entriesAscendingInternal] over entries the index holds. *)
Lemma lfu_entriesLoop_spec pending now : ∀ c,
  NoDup pending.*1 →
  (∀ p, p ∈ pending → Map_get p.1 (cache c) = Some p.2) →
  (entriesLoop c pending now).1 = filter (λ p, live now p) pending ∧
  cache (entriesLoop c pending now).2 =
    filter (λ x, x.1 ∉ (filter (λ p, ¬ live now p) pending).*1) (cache c) ∧
  size (entriesLoop c pending now).2 =
    size c - Z.of_nat (length (filter (λ p, ¬ live now p) pending)) ∧
  capacity (entriesLoop c pending now).2 = capacity c ∧
  maxAge (entriesLoop c pending now).2 = maxAge c ∧
  onEviction (entriesLoop c pending now).2 = onEviction c ∧
  calls (entriesLoop c pending now).2 = calls c.
Proof.
  induction pending as [|[k n] rest IH]; intros c Hnd Hin.
  - simpl. split_and!; try done; [|lia].
    symmetry. apply filter_all. intros x _. apply not_elem_of_nil.
  - rewrite fmap_cons, NoDup_cons in Hnd. destruct Hnd as [Hk Hnd].
    cbn [entriesLoop]. unfold deleteIfExpired.
    destruct (expired (expiry n) now) eqn:He.
    + assert (¬ live now (k, n)) as Hdead.
      { unfold live. cbn [snd]. rewrite He. by intros []. }
      rewrite (filter_cons_False (λ p, live now p)) by done.
      rewrite (filter_cons_True (λ p, ¬ live now p)) by done.
      destruct (lfu_delete_state c k) as (Hc & Hma & Hoe & Hcalls & Hm & Hs & _).
      assert (has c k = true) as Hhas.
      { unfold has, Map_has. apply bool_decide_eq_true_2.
        exists n. apply (Hin (k, n)). by left. }
      rewrite Hhas in Hs.
      destruct (IH (delete c k).2 Hnd) as (E1 & E2 & E3 & E4 & E5 & E6 & E7).
      { intros p Hp. rewrite Hm, Map_get_delete, decide_False.
        - apply Hin. by right.
        - intros ->. apply Hk. apply list_elem_of_fmap. by exists p. }
      destruct (entriesLoop (delete c k).2 rest now) as [items c2].
      cbn [fst snd] in *.
      rewrite E1, E2, E3, E4, E5, E6, E7, Hm, Hs, Hc, Hma, Hoe, Hcalls.
      split_and!; try done.
      * unfold Map_delete. rewrite list_filter_filter. apply list_filter_iff.
        intros x. rewrite fmap_cons, not_elem_of_cons. simpl. tauto.
      * simpl. lia.
    + assert (live now (k, n)) as Hlive.
      { unfold live. cbn [snd]. by rewrite He. }
      rewrite (filter_cons_True (λ p, live now p)) by done.
      rewrite (filter_cons_False (λ p, ¬ live now p)) by (intros Hn; by apply Hn).
      destruct (IH c Hnd) as (E1 & E2 & E3 & E4 & E5 & E6 & E7).
      { intros p Hp. apply Hin. by right. }
      destruct (entriesLoop c rest now) as [items c2]. cbn [fst snd] in *.
      by rewrite E1.
Qed.

(** Nothing is purged when nothing has expired. *)
Lemma lfu_entriesLoop_live pending now : ∀ c,
  (∀ p, p ∈ pending → live now p) → entriesLoop c pending now = (pending, c).
Proof.
  induction pending as [|[k n] rest IH]; intros c Hl; [done|].
  cbn [entriesLoop]. unfold deleteIfExpired.
  pose proof (Hl (k, n) ltac:(left)) as Hkn. unfold live in Hkn. cbn [snd] in Hkn.
  destruct (expired (expiry n) now); [done|].
  rewrite IH; [done|]. intros p Hp. apply Hl. by right.
Qed.

(** X5. Iterating over the LFU cache ([keys], [values], [entries],
    [forEach], all running [entriesAscendingInternal] to the end) at clock
    value [now]: the entries yielded are those of the index that have not
    expired, in the order of the index (first insertion of the key, whatever
    the frequencies); the expired ones are deleted on the way, so that the
    index afterwards holds exactly the entries yielded and [size] has gone
    down by the number of expired ones; [onEviction] is not called; a
    second iteration at the same clock value yields the same entries and
    changes nothing. *)
Theorem lfu_iteration_yields_live_entries c now :
  NoDup (cache c).*1 →
  (entriesAscendingInternal c now).1 = filter (λ p, live now p) (cache c) ∧
  cache (entriesAscendingInternal c now).2 = filter (λ p, live now p) (cache c) ∧
  size (entriesAscendingInternal c now).2 =
    size c - Z.of_nat (length (filter (λ p, ¬ live now p) (cache c))) ∧
  calls (entriesAscendingInternal c now).2 = calls c ∧
  (keys c now).1 = (filter (λ p, live now p) (cache c)).*1 ∧
  (values c now).1 = (λ p, value p.2) <$> filter (λ p, live now p) (cache c) ∧
  (entries c now).1 = (λ p, (p.1, value p.2)) <$> filter (λ p, live now p) (cache c) ∧
  entriesAscendingInternal (entriesAscendingInternal c now).2 now =
    (filter (λ p, live now p) (cache c), (entriesAscendingInternal c now).2).
Proof.
  intros Hnd. unfold keys, values, entries, entriesAscendingInternal.
  destruct (lfu_entriesLoop_spec (cache c) now c Hnd) as (E1 & E2 & E3 & _ & _ & _ & E7).
  { intros [k n] Hp. by apply Map_get_NoDup. }
  rewrite (filter_by_keys (λ p, live now p) (cache c) (cache c) Hnd) in E2 by done.
  destruct (entriesLoop c (cache c) now) as [items c1]. cbn [fst snd] in *.
  subst items. split_and!; try done.
  rewrite E2. apply lfu_entriesLoop_live.
  intros p Hp. apply list_elem_of_filter in Hp. by destruct Hp.
Qed.

(** X6. [resize(newSize)] of the LFU cache with an integer [newSize]. A
    [newSize <= 0] throws [TypeError]. Otherwise the expired entries are
    purged as by an iteration, and of the [n] entries left the first
    [n - newSize] in index order (the keys inserted first, whatever their
    frequencies) are dropped from the index, when [n > newSize]: the index
    then holds the others in the same order, [size] is the smaller of
    [newSize] and [n] and counts the index, [onEviction] has been called
    once for each dropped entry, in order, with its key and value. The
    capacity is not assigned, and neither the buckets nor [minFreq] are
    touched beyond what the purge did. *)
Theorem lfu_resize_drops_oldest_insertions c newSize now :
  NoDup (cache c).*1 →
  let kept := filter (λ p, live now p) (cache c) in
  let n := Z.to_nat (Z.of_nat (length kept) - newSize) in
  (newSize ≤ 0 → resize c newSize now = inl TypeError) ∧
  (0 < newSize →
   ∃ c', resize c newSize now = inr c' ∧
         cache c' = drop n kept ∧
         size c' = Z.min newSize (Z.of_nat (length kept)) ∧
         size c' = Z.of_nat (length (cache c')) ∧
         calls c' = (if onEviction c
                     then calls c ++ ((λ p, (p.1, value p.2)) <$> take n kept)
                     else calls c) ∧
         capacity c' = capacity c ∧
         freqMap c' = freqMap (entriesAscendingInternal c now).2 ∧
         minFreq c' = minFreq (entriesAscendingInternal c now).2).
Proof.
  intros Hnd kept n. split.
  { intros Hle. unfold resize. by rewrite decide_True. }
  intros Hpos. unfold resize. rewrite decide_False by lia.
  unfold entriesAscendingInternal.
  destruct (lfu_entriesLoop_spec (cache c) now c Hnd)
    as (E1 & _ & _ & E4 & _ & E6 & E7).
  { intros [k nd] Hp. by apply Map_get_NoDup. }
  destruct (entriesLoop c (cache c) now) as [items c1]. cbn [fst snd] in *.
  fold kept in E1. subst items. fold n.
  assert (NoDup kept.*1) as Hk by by apply filter_keys_NoDup.
  rewrite (Map_of_NoDup kept), (Map_of_NoDup (drop n kept)), (Map_of_NoDup (take n kept))
    by (done || by apply drop_keys_NoDup || by apply take_keys_NoDup).
  destruct (decide (Z.of_nat (length kept) - newSize > 0)) as [Hgt|Hle].
  - eexists. split; [done|]. unfold emitEvictions. rewrite E6.
    destruct (onEviction c); cbn [cache size calls capacity freqMap minFreq];
      rewrite ?E7, ?E4, length_drop; split_and!; try done; lia.
  - eexists. split; [done|]. cbn [cache size calls capacity freqMap minFreq].
    assert (n = 0%nat) as -> by lia. rewrite drop_0, take_0, fmap_nil, app_nil_r, E7, E4.
    split_and!; try done; [lia | by destruct (onEviction c)].
Qed.

Lemma lfu_wf_clear c : wf (clear c) ∧ min_ok (clear c).
Proof.
  split; [|done]. split; simpl.
  - apply NoDup_nil_2.
  - done.
  - intros k nd Hk. done.
  - intros f b Hb. by rewrite lookup_empty in Hb.
Qed.

(** X7. [clear] puts the LFU cache back in order from any state, also one
    [resize] or [delete] left with stale buckets or a wrong [minFreq]: the
    index and the buckets are empty, [size] and [minFreq] are 0, the
    capacity and the [onEviction] log are kept; and with a capacity of at
    least 1, after any further run of [set], [get], [peek], [delete],
    [clear] and iterations every index key sits in the bucket of its
    frequency and in no other, [minFreq] is right whenever the cache is
    full, and [size] counts the index and stays within the capacity. *)
Theorem lfu_clear_restores_order c ops :
  1 ≤ capacity c →
  cache (clear c) = [] ∧ freqMap (clear c) = ∅ ∧ size (clear c) = 0 ∧
  minFreq (clear c) = 0 ∧ capacity (clear c) = capacity c ∧
  calls (clear c) = calls c ∧
  wf (run (clear c) ops) ∧ full_min (run (clear c) ops) ∧
  size (run (clear c) ops) ≤ capacity c ∧
  size (run (clear c) ops) = Z.of_nat (length (cache (run (clear c) ops))).
Proof.
  intros Hcap. split_and!; try done.
  all: destruct (lfu_wf_clear c) as [Hwf Hmin];
    destruct (LFUFacts.run_full ops (clear c) Hwf (λ _, Hmin)) as (Hwf' & Hfm & _ & Hs);
    [done | simpl; lia | ]; try done.
  apply (wf_size _ Hwf').
Qed.

Lemma lfu_entriesLoop_state pending now : ∀ c,
  capacity (entriesLoop c pending now).2 = capacity c ∧
  maxAge (entriesLoop c pending now).2 = maxAge c ∧
  onEviction (entriesLoop c pending now).2 = onEviction c ∧
  calls (entriesLoop c pending now).2 = calls c.
Proof.
  induction pending as [|[k n] rest IH]; intros c; [done|].
  cbn [entriesLoop]. unfold deleteIfExpired.
  destruct (expired (expiry n) now).
  - destruct (lfu_delete_state c k) as (Hc & Hma & Hoe & Hcalls & _).
    destruct (IH (delete c k).2) as (E1 & E2 & E3 & E4).
    destruct (entriesLoop (delete c k).2 rest now) as [items c2]. cbn [fst snd] in *.
    by rewrite E1, E2, E3, E4.
  - destruct (IH c) as (E1 & E2 & E3 & E4).
    by destruct (entriesLoop c rest now) as [items c2].
Qed.

Lemma lfu_get_state c k now :
  capacity (get c k now).2 = capacity c ∧ maxAge (get c k now).2 = maxAge c ∧
  onEviction (get c k now).2 = onEviction c ∧ calls (get c k now).2 = calls c.
Proof.
  unfold get, getOrDeleteIfExpired, deleteIfExpired.
  destruct (Map_get k (cache c)) as [nd|]; [|done].
  destruct (expired (expiry nd) now); simpl.
  - destruct (lfu_delete_state c k) as (? & ? & ? & ? & _). done.
  - destruct (lfu_updateFrequency_state c k) as (? & ? & ? & ? & _). done.
Qed.

Lemma lfu_set_state c k v opt now :
  capacity (set c k v opt now) = capacity c ∧ maxAge (set c k v opt now) = maxAge c ∧
  onEviction (set c k v opt now) = onEviction c ∧
  (calls (set c k v opt now) = calls c ∨
   (Map_get k (cache c) = None ∧ size c >= capacity c ∧ onEviction c = true ∧
    ∃ kv, calls (set c k v opt now) = calls c ++ [kv])).
Proof.
  unfold set. destruct (Map_get k (cache c)) as [old|] eqn:Hg.
  - match goal with |- context [updateFrequency ?c1 k] => set (c0 := c1) end.
    destruct (lfu_updateFrequency_state c0 k) as (Hc & Hma & Hoe & Hcalls & _).
    split_and!; try done. by left.
  - destruct (decide (size c >= capacity c)) as [Hfull|]; simpl; [|by auto].
    destruct (lfu_evict_state c) as (Hc & Hma & Hoe & Hcalls & _).
    split_and!; try done. destruct Hcalls as [?|[? ?]]; [by left | by right].
Qed.

(** X8. What the operations of the LFU cache never do. None of [set],
    [get], [peek], [delete], [clear] and the iterations changes the
    capacity, the default [maxAge] or the callback. [onEviction] is called
    by [set] only, at most once per call, and only when the key is new and
    [size] has reached the capacity: an entry that is deleted, cleared or
    purged because it expired is dropped without a call. Over a run of
    operations the log of calls only grows, and it stays as it was when no
    callback was supplied. *)
Theorem lfu_callback_only_on_eviction c (o : op) ops :
  (capacity (step c o) = capacity c ∧ maxAge (step c o) = maxAge c ∧
   onEviction (step c o) = onEviction c) ∧
  (calls (step c o) = calls c ∨
   ∃ k v opt now kv,
     o = OpSet k v opt now ∧ Map_get k (cache c) = None ∧ size c >= capacity c ∧
     onEviction c = true ∧ calls (step c o) = calls c ++ [kv]) ∧
  (capacity (run c ops) = capacity c ∧ maxAge (run c ops) = maxAge c ∧
   onEviction (run c ops) = onEviction c) ∧
  calls c `prefix_of` calls (run c ops) ∧
  (onEviction c = false → calls (run c ops) = calls c).
Proof.
  assert (∀ c o,
    (capacity (step c o) = capacity c ∧ maxAge (step c o) = maxAge c ∧
     onEviction (step c o) = onEviction c) ∧
    (calls (step c o) = calls c ∨
     ∃ k v opt now kv,
       o = OpSet k v opt now ∧ Map_get k (cache c) = None ∧ size c >= capacity c ∧
       onEviction c = true ∧ calls (step c o) = calls c ++ [kv])) as Hstep.
  { clear. intros c [k v opt now|k now|k now|k| |now]; cbn [step].
    - destruct (lfu_set_state c k v opt now) as (? & ? & ? & [?|(? & ? & ? & kv & ?)]).
      + split; [done|]. by left.
      + split; [done|]. right. by exists k, v, opt, now, kv.
    - destruct (lfu_get_state c k now) as (? & ? & ? & ?). split; [done|]. by left.
    - destruct (lfu_get_state c k now) as (? & ? & ? & ?). split; [done|]. by left.
    - destruct (lfu_delete_state c k) as (? & ? & ? & ? & _). split; [done|]. by left.
    - split; [done|]. by left.
    - destruct (lfu_entriesLoop_state (cache c) now c) as (? & ? & ? & ?).
      split; [done|]. by left. }
  split; [apply Hstep|]. split; [apply Hstep|].
  clear o. revert c. induction ops as [|o ops IH]; intros c.
  - by split_and!.
  - unfold run. cbn [foldl]. fold (run (step c o) ops).
    destruct (Hstep c o) as ((Hc & Hma & Hoe) & Hcalls).
    destruct (IH (step c o)) as ((Hc' & Hma' & Hoe') & Hpre & Hoff).
    rewrite Hc', Hma', Hoe', Hc, Hma, Hoe. split; [done|]. split.
    + etrans; [|exact Hpre].
      destruct Hcalls as [->|(? & ? & ? & ? & kv & _ & _ & _ & _ & ->)];
        [done | by apply prefix_app_r].
    + intros Hno. rewrite Hoff by congruence.
      destruct Hcalls as [->|(? & ? & ? & ? & kv & _ & _ & _ & Hon & _)];
        [done | congruence].
Qed.

(** [set] in a cache of capacity at most 1 that holds one entry. *)
Lemma lfu_set_single c k v opt now :
  wf c → min_ok c → size c = 1 → capacity c ≤ 1 →
  wf (set c k v opt now) ∧ min_ok (set c k v opt now) ∧
  size (set c k v opt now) = 1 ∧ capacity (set c k v opt now) = capacity c.
Proof.
  intros Hwf Hmin Hsz Hcap. unfold set.
  set (exp := expiry_of now (default (maxAge c) opt)).
  destruct (Map_get k (cache c)) as [nd|] eqn:Hg.
  - set (nd' := mkNode (key nd) v (freq nd) exp).
    set (c0 := mkCache (capacity c) (Map_set k nd' (cache c)) (freqMap c) (minFreq c)
                       (size c) (maxAge c) (onEviction c) (calls c)).
    assert (wf c0) as Hwf0 by (by apply (LFUFacts.wf_replace c k nd nd')).
    assert (Map_get k (cache c0) = Some nd') as Hg0.
    { simpl. by rewrite Map_get_set, decide_True. }
    assert (min_ok c0) as Hmin0.
    { assert (cache c ≠ []) as Hne by (intros Hnil; by rewrite Hnil in Hg).
      apply LFUFacts.min_ok_nonempty in Hmin; [|done].
      apply LFUFacts.min_ok_nonempty; [apply LFUFacts.Map_set_nonempty | exact Hmin]. }
    split; [by eapply LFUFacts.updateFrequency_wf|].
    split; [by eapply LFUFacts.updateFrequency_min|].
    by rewrite (LFUFacts.updateFrequency_eq _ _ _ Hg0).
  - rewrite decide_True by lia.
    assert (cache c ≠ []) as Hne by (apply LFUFacts.wf_size_nonempty; [done | lia]).
    destruct (LFUFacts.evict_victim c Hwf Hmin Hne)
      as (kv & rest & ndv & Hb & Hnin & Hgv & _).
    pose proof (LFUFacts.evict_wf c kv rest Hwf Hb) as Hwf1.
    assert (Map_get k (cache (evict c)) = None) as Hg1.
    { rewrite (LFUFacts.evict_spec _ _ _ _ Hb Hnin Hgv). simpl.
      rewrite Map_get_delete. by case_decide. }
    assert (size (evict c) = 0 ∧ capacity (evict c) = capacity c) as [Hs1 Hc1].
    { rewrite (LFUFacts.evict_spec _ _ _ _ Hb Hnin Hgv). simpl. split; [lia | done]. }
    pose proof (LFUFacts.insert_wf (evict c) k v exp Hwf1 Hg1) as Hwf'.
    pose proof (LFUFacts.insert_min (evict c) k v exp Hwf1 Hg1) as Hmin'.
    split; [done|]. split; [done|]. simpl. split; [lia | done].
Qed.

(** X9. The constructor takes any [maxSize]. An LFU cache built with an
    integer [maxSize <= 1], zero and negative numbers included, behaves as
    a cache of one entry: after any non-empty run of [set] calls it holds
    exactly the key set last, with [size] 1 and its buckets in order. *)
Theorem lfu_capacity_below_one_keeps_last_key (C : Z) optMaxAge cb
    (args : list (K * V * option num * Z)) k v opt now :
  C ≤ 1 →
  (cache (sets (new C optMaxAge cb) (args ++ [(k, v, opt, now)]))).*1 = [k] ∧
  size (sets (new C optMaxAge cb) (args ++ [(k, v, opt, now)])) = 1 ∧
  wf (sets (new C optMaxAge cb) (args ++ [(k, v, opt, now)])) ∧
  min_ok (sets (new C optMaxAge cb) (args ++ [(k, v, opt, now)])).
Proof.
  intros HC.
  assert (∀ args k v opt now,
    let c := sets (new C optMaxAge cb) (args ++ [(k, v, opt, now)]) in
    wf c ∧ min_ok c ∧ size c = 1 ∧ capacity c = C ∧ has c k = true) as Hinv.
  { clear k v opt now args.
    induction args as [|[[[k0 v0] opt0] now0] args IH] using rev_ind;
      intros k v opt now c; subst c; unfold sets; rewrite foldl_app; cbn [foldl].
    - set (c0 := new (K:=K) (V:=V) C optMaxAge cb).
      destruct (LFUFacts.wf_new (K:=K) (V:=V) C optMaxAge cb) as [Hwf0 _].
      fold c0 in Hwf0.
      set (e := expiry_of now (default (maxAge c0) opt)).
      pose proof (LFUFacts.insert_wf c0 k v e Hwf0 eq_refl) as Hwf1.
      pose proof (LFUFacts.insert_min c0 k v e Hwf0 eq_refl) as Hmin1.
      assert (set c0 k v opt now =
              mkCache (capacity c0) (Map_set k (mkNode k v 1 e) (cache c0))
                      (link (freqMap c0) 1 k) 1 (size c0 + 1) (maxAge c0)
                      (onEviction c0) (calls c0)) as ->.
      { unfold set. fold e. cbn [c0 new cache Map_get size capacity].
        by destruct (decide (0 >= C)). }
      split_and!; try done.
      unfold has, Map_has. simpl. rewrite decide_True by done.
      apply bool_decide_eq_true_2. by eexists.
    - fold (sets (new C optMaxAge cb) (args ++ [(k0, v0, opt0, now0)])).
      destruct (IH k0 v0 opt0 now0) as (Hwf & Hmin & Hs & Hc & _).
      destruct (lfu_set_single _ k v opt now Hwf Hmin Hs) as (Hwf' & Hmin' & Hs' & Hc');
        [lia|].
      split_and!; try done; [congruence|].
      match goal with |- has (set ?c0 _ _ _ _) _ = _ => 
        destruct (lfu_set_then_get_index c0 k v opt now) as (nd & Hnd & _) end.
      unfold has, Map_has. rewrite Hnd. apply bool_decide_eq_true_2. by eexists. }
  destruct (Hinv args k v opt now) as (Hwf & Hmin & Hs & _ & Hhas).
  split_and!; try done.
  pose proof (wf_size _ Hwf) as Hlen. rewrite Hs in Hlen.
  unfold has, Map_has in Hhas. apply bool_decide_eq_true in Hhas.
  apply Map_get_is_Some in Hhas.
  destruct (cache (sets (new C optMaxAge cb) (args ++ [(k, v, opt, now)])))
    as [|[k1 n1] [|? ?]]; simpl in *; try lia.
  apply list_elem_of_singleton in Hhas. by subst.
Qed.
End LFUBehaviour.

(** * Further properties of the LRU cache *)
Section LRUBehaviour.
Import LRU.
Context {K V : Type} `{EqDecision K}.
Abbreviation LRUNode := (@LRUNode K V).
Abbreviation LRUCache := (@LRUCache K V).
Implicit Types (h : list LRUNode) (a b : addr) (l : list addr) (c : LRUCache).
Implicit Types (m : list (K * addr)) (k : K) (v : V) (nd : LRUNode).

(** [delete] changes links only, in the heap. *)
Lemma lru_delete_data c k b : data <$> heap (delete c k).2 !! b = data <$> heap c !! b.
Proof.
  unfold delete. destruct (Map_get k (cache c)) as [a|]; [|done].
  destruct (node_prev (heap c) a) as [p|] eqn:Hp.
  - destruct (node_next (set_next p (node_next (heap c) a) (heap c)) a) as [n|]; simpl;
      by rewrite ?LRUFacts.data_set_prev, ?LRUFacts.data_set_next.
  - destruct (node_next (heap c) a) as [n|]; simpl;
      by rewrite ?LRUFacts.data_set_prev.
Qed.

Lemma lru_delete_state c k :
  capacity (delete c k).2 = capacity c ∧ maxAge (delete c k).2 = maxAge c ∧
  onEviction (delete c k).2 = onEviction c ∧ calls (delete c k).2 = calls c ∧
  cache (delete c k).2 = Map_delete k (cache c) ∧
  size (delete c k).2 = (if has c k then size c - 1 else size c) ∧
  (delete c k).1 = has c k.
Proof.
  unfold delete, has, Map_has. destruct (Map_get k (cache c)) as [a|] eqn:Hg.
  - rewrite (bool_decide_eq_true_2 (is_Some (Some a))) by (by eexists).
    by destruct (node_prev (heap c) a), (node_next _ a).
  - rewrite bool_decide_eq_false_2 by (by intros [? ?]). simpl.
    split_and!; try done. symmetry. apply Map_delete_absent. by apply Map_get_None.
Qed.

(** What is read through the index depends on the nodes' data only. *)
Lemma lru_entry_ext c c' k :
  Map_get k (cache c') = Map_get k (cache c) →
  (∀ b, Map_get k (cache c) = Some b → data <$> heap c' !! b = data <$> heap c !! b) →
  entry c' k = entry c k.
Proof.
  intros Hg Hd. unfold entry. rewrite Hg. destruct (Map_get k (cache c)) as [a|]; [|done].
  simpl. specialize (Hd a eq_refl).
  destruct (heap c' !! a) as [n'|], (heap c !! a) as [n|]; simpl in *; try done.
  injection Hd as _ -> ->. done.
Qed.

Lemma lru_live_ext c c' now (p : K * addr) :
  (∀ b, data <$> heap c' !! b = data <$> heap c !! b) →
  live c' now p = live c now p.
Proof.
  intros Hd. unfold live. specialize (Hd p.2).
  destruct (heap c' !! p.2) as [n'|], (heap c !! p.2) as [n|]; simpl in *; try done.
  injection Hd as _ _ ->. done.
Qed.

Lemma lru_value_ext c c' b :
  (∀ b, data <$> heap c' !! b = data <$> heap c !! b) →
  value <$> heap c' !! b = value <$> heap c !! b.
Proof.
  intros Hd. specialize (Hd b).
  destruct (heap c' !! b) as [n'|], (heap c !! b) as [n|]; simpl in *; try done.
  injection Hd as _ -> _. done.
Qed.

(** The answer of [get] is read off the entry. *)
Lemma lru_get_result c k now :
  (get c k now).1 =
    match entry c k with
    | Some (v, e) => if expired e now then None else Some v
    | None => None
    end.
Proof.
  unfold get, entry, getOrDeleteIfExpired, deleteIfExpired.
  destruct (Map_get k (cache c)) as [a|]; [|done]. simpl.
  pose proof (LRUFacts.moveToHead_data c a a) as Hd.
  destruct (heap c !! a) as [n|] eqn:Hn; simpl.
  - destruct (expired (expiry n) now); [done|]. simpl.
    destruct (heap (moveToHead c a) !! a) as [n'|]; [|done].
    simpl in *. by injection Hd as _ -> _.
  - destruct (expired None now); [done|]. simpl.
    by destruct (heap (moveToHead c a) !! a).
Qed.

(** X10. [delete] in any state of the LRU cache: it answers whether the
    key was in the index; afterwards the key is not in the index, every
    other key has the value and expiry it had, [size] is one less if the
    key was there and unchanged otherwise, the capacity is unchanged and
    [onEviction] is not called. Deleting a key that is not there changes
    nothing at all. *)
Theorem lru_delete_removes_only_the_key c k :
  (delete c k).1 = has c k ∧
  has (delete c k).2 k = false ∧
  entry (delete c k).2 k = None ∧
  (∀ k', k' ≠ k → entry (delete c k).2 k' = entry c k') ∧
  size (delete c k).2 = (if has c k then size c - 1 else size c) ∧
  capacity (delete c k).2 = capacity c ∧
  calls (delete c k).2 = calls c ∧
  (has c k = false → (delete c k).2 = c).
Proof.
  destruct (lru_delete_state c k) as (Hc & _ & _ & Hcalls & Hm & Hs & Hr).
  split_and!; try done.
  - unfold has, Map_has. rewrite Hm, Map_get_delete, decide_True by done.
    apply bool_decide_eq_false_2. by intros [? ?].
  - unfold entry. by rewrite Hm, Map_get_delete, decide_True.
  - intros k' Hne. apply lru_entry_ext; [|intros b _; apply lru_delete_data].
    rewrite Hm, Map_get_delete. by rewrite decide_False.
  - unfold has, Map_has, delete. intros Hh%bool_decide_eq_false.
    destruct (Map_get k (cache c)); [|done]. destruct Hh. by eexists.
Qed.

(** *** The recency order, key by key *)

Lemma lru_walk_dlseg h l : ∀ p fuel,
  dlseg h p l None → (length l ≤ fuel)%nat → walk h fuel (list.head l) = l.
Proof.
  induction l as [|a l IH]; intros p fuel Hl Hf.
  - by destruct fuel.
  - destruct fuel as [|fuel]; [simpl in Hf; lia|].
    apply LRUFacts.dlseg_cons in Hl. destruct Hl as (_ & _ & Hn & Hl).
    simpl. f_equal. rewrite Hn, LRUFacts.first_or_None.
    apply (IH (Some a)); [done | simpl in Hf; lia].
Qed.

(** With the list in order, the walk from [head] meets exactly its nodes. *)
Lemma lru_recency_repr c l :
  repr c l →
  recency c (Z.to_nat (size c)) = omap (λ a, key <$> heap c !! a) l.
Proof.
  intros Hr. unfold recency. f_equal.
  rewrite (repr_head _ _ Hr). eapply lru_walk_dlseg; [apply (repr_links _ _ Hr)|].
  rewrite (repr_size _ _ Hr). lia.
Qed.

Lemma lru_index_of_node c l a :
  repr c l → a ∈ l → ∃ k, Map_get k (cache c) = Some a ∧ key <$> heap c !! a = Some k.
Proof.
  intros Hr Ha. rewrite <- (repr_index _ _ Hr) in Ha.
  apply list_elem_of_fmap in Ha. destruct Ha as ([k a'] & -> & Hin). simpl.
  exists k. split; [|by apply (repr_key _ _ Hr)].
  apply Map_get_NoDup; [apply (repr_keys _ _ Hr) | done].
Qed.

Lemma lru_node_of_index c l k a :
  repr c l → Map_get k (cache c) = Some a →
  a ∈ l ∧ key <$> heap c !! a = Some k.
Proof.
  intros Hr Hg. split.
  - by eapply LRUFacts.index_lookup; [apply (repr_index _ _ Hr)|].
  - apply (repr_key _ _ Hr). by apply Map_get_elem.
Qed.

(** Distinct nodes of the list hold distinct keys. *)
Lemma lru_keys_NoDup c l l' :
  repr c l → l' ⊆ l → NoDup l' → NoDup (omap (λ a, key <$> heap c !! a) l').
Proof.
  intros Hr. induction l' as [|a l' IH]; intros Hsub Hnd; [apply NoDup_nil_2|].
  apply NoDup_cons in Hnd. destruct Hnd as [Ha Hnd].
  destruct (lru_index_of_node c l a Hr) as (k & Hg & Hk); [apply Hsub; by left|].
  simpl. rewrite Hk. simpl. apply NoDup_cons. split.
  - intros Hin. apply list_elem_of_omap in Hin. destruct Hin as (a' & Ha' & Hk').
    destruct (lru_index_of_node c l a' Hr) as (k' & Hg' & Hk''); [apply Hsub; by right|].
    rewrite Hk' in Hk''. injection Hk'' as <-. rewrite Hg in Hg'.
    injection Hg' as <-. done.
  - apply IH; [|done]. intros x Hx. apply Hsub. by right.
Qed.

Lemma lru_keys_ext c c' l :
  (∀ b, data <$> heap c' !! b = data <$> heap c !! b) →
  omap (λ a, key <$> heap c' !! a) l = omap (λ a, key <$> heap c !! a) l.
Proof.
  intros Hd. apply omap_ext_in. intros a _.
  apply LRUFacts.data_key, Hd.
Qed.

Lemma filter_NoDup_middle {A} `{EqDecision A} (xs ys : list A) (x : A) :
  NoDup (xs ++ x :: ys) → filter (λ y, y ≠ x) (xs ++ x :: ys) = xs ++ ys.
Proof.
  intros Hnd. apply NoDup_app in Hnd. destruct Hnd as (_ & Hx & Hys).
  apply NoDup_cons in Hys. destruct Hys as [Hy _].
  rewrite filter_app, filter_cons_False by (intros Hn; by apply Hn).
  rewrite !filter_all; [done | |].
  - intros y Hin ->. done.
  - intros y Hin ->. apply (Hx x Hin). by left.
Qed.

Lemma lru_recency_middle c l1 a l2 k :
  repr c (l1 ++ a :: l2) → Map_get k (cache c) = Some a →
  recency c (Z.to_nat (size c)) =
    omap (λ b, key <$> heap c !! b) l1 ++ k :: omap (λ b, key <$> heap c !! b) l2 ∧
  filter (λ x, x ≠ k) (recency c (Z.to_nat (size c))) =
    omap (λ b, key <$> heap c !! b) l1 ++ omap (λ b, key <$> heap c !! b) l2.
Proof.
  intros Hr Hg.
  destruct (lru_node_of_index c _ k a Hr Hg) as [_ Hk].
  assert (recency c (Z.to_nat (size c)) =
          omap (λ b, key <$> heap c !! b) l1 ++ k :: omap (λ b, key <$> heap c !! b) l2)
    as Hrec.
  { rewrite (lru_recency_repr c _ Hr), omap_app. csimpl. by rewrite Hk. }
  split; [done|]. rewrite Hrec. apply filter_NoDup_middle. rewrite <- Hrec.
  rewrite (lru_recency_repr c _ Hr).
  apply (lru_keys_NoDup c _ _ Hr); [done | apply (repr_nodup _ _ Hr)].
Qed.

(** X11. Deleting a key of an LRU cache whose list is in order takes its
    node out of the recency list and leaves the other nodes in the order
    they had: read key by key from the most recently used, the recency
    order afterwards is the one before without the key. *)
Theorem lru_delete_keeps_recency_order c l1 a l2 k :
  repr c (l1 ++ a :: l2) → Map_get k (cache c) = Some a →
  repr (delete c k).2 (l1 ++ l2) ∧
  recency (delete c k).2 (Z.to_nat (size (delete c k).2)) =
    filter (λ x, x ≠ k) (recency c (Z.to_nat (size c))).
Proof.
  intros Hr Hg.
  destruct (LRUFacts.delete_repr c l1 a l2 k Hr Hg) as (_ & Hr' & _ & _ & _ & _ & Hd).
  split; [done|].
  destruct (lru_recency_middle c l1 a l2 k Hr Hg) as [_ ->].
  rewrite (lru_recency_repr _ _ Hr'), omap_app.
  by rewrite !(lru_keys_ext c (delete c k).2).
Qed.

Lemma lru_moveToHead_recency c l1 a l2 k :
  repr c (l1 ++ a :: l2) → Map_get k (cache c) = Some a →
  recency (moveToHead c a) (Z.to_nat (size (moveToHead c a))) =
    k :: filter (λ x, x ≠ k) (recency c (Z.to_nat (size c))).
Proof.
  intros Hr Hg.
  pose proof (LRUFacts.moveToHead_repr c l1 a l2 Hr) as Hr'.
  pose proof (LRUFacts.moveToHead_data c a) as Hd.
  destruct (lru_recency_middle c l1 a l2 k Hr Hg) as [_ ->].
  rewrite (lru_recency_repr _ _ Hr'). csimpl.
  destruct (lru_node_of_index c _ k a Hr Hg) as [_ Hk].
  rewrite (LRUFacts.data_key _ _ (Hd a)), Hk. csimpl. f_equal.
  by rewrite omap_app, !(lru_keys_ext c (moveToHead c a)).
Qed.

(** X12. [get] (and [peek], which runs the same code) on an LRU entry
    that has not expired, in a state whose list is in order: it answers the
    stored value and moves the entry's node to the head of the recency
    list, the other nodes keeping their order; key by key, the recency
    order afterwards is the key followed by the order before without it.
    The index, every entry's value and expiry, [size] and the [onEviction]
    log are unchanged. *)
Theorem lru_get_moves_to_front c l1 a l2 k nd now :
  repr c (l1 ++ a :: l2) → Map_get k (cache c) = Some a → heap c !! a = Some nd →
  expired (expiry nd) now = false →
  (get c k now).1 = Some (value nd) ∧
  peek c k now = get c k now ∧
  repr (get c k now).2 (a :: l1 ++ l2) ∧
  recency (get c k now).2 (Z.to_nat (size (get c k now).2)) =
    k :: filter (λ x, x ≠ k) (recency c (Z.to_nat (size c))) ∧
  (∀ k', entry (get c k now).2 k' = entry c k') ∧
  cache (get c k now).2 = cache c ∧ size (get c k now).2 = size c ∧
  calls (get c k now).2 = calls c.
Proof.
  intros Hr Hg Hnd Hlive.
  assert (get c k now = (value <$> heap (moveToHead c a) !! a, moveToHead c a)) as Hget.
  { unfold get, getOrDeleteIfExpired, deleteIfExpired. rewrite Hg, Hnd. simpl.
    by rewrite Hlive. }
  assert (peek c k now = get c k now) as Hpeek by done.
  rewrite Hget. cbn [fst snd].
  pose proof (LRUFacts.moveToHead_repr c l1 a l2 Hr) as Hr'.
  pose proof (LRUFacts.moveToHead_data c a) as Hd.
  destruct (LRUFacts.moveToHead_fields c a) as (_ & Hm & Hs & _ & _ & Hcalls & _).
  split_and!; try done.
  - rewrite (lru_value_ext c (moveToHead c a) a Hd), Hnd. done.
  - by apply (lru_moveToHead_recency c l1 a l2 k).
  - intros k'. apply lru_entry_ext; [by rewrite Hm | intros b _; apply Hd].
Qed.

(** [set] on a new key allocates one node and changes links only. *)
Lemma lru_set_new_data c k v opt now b :
  Map_get k (cache c) = None →
  data <$> heap (state_of (set c k v opt now)) !! b =
  data <$> (heap c ++ [mkNode k v None (head c)
                         (expiry_of now (default (maxAge c) opt))]) !! b.
Proof.
  intros Hg. unfold set. rewrite Hg.
  repeat (case_match; simpl);
    by rewrite ?LRUFacts.data_set_next, ?LRUFacts.data_set_prev.
Qed.

(** [set] on a key of the index. *)
Lemma lru_set_overwrite_spec c l1 a l2 k v opt now nd :
  repr c (l1 ++ a :: l2) → Map_get k (cache c) = Some a → heap c !! a = Some nd →
  ∃ c', set c k v opt now = Returns c' ∧ repr c' (a :: l1 ++ l2) ∧
        cache c' = cache c ∧ size c' = size c ∧ calls c' = calls c ∧
        capacity c' = capacity c ∧
        (∀ b, data <$> heap c' !! b =
              if decide (a = b) then Some (key nd, v, expiry nd)
              else data <$> heap c !! b) ∧
        recency c' (Z.to_nat (size c')) =
          k :: filter (λ x, x ≠ k) (recency c (Z.to_nat (size c))).
Proof.
  intros Hr Hg Hnd.
  set (c0 := with_heap c (set_value a v (heap c))).
  pose proof (LRUFacts.set_value_repr c _ a v Hr) as Hr0. fold c0 in Hr0.
  exists (moveToHead c0 a). split; [by apply LRUFacts.set_existing|].
  destruct (LRUFacts.moveToHead_fields c0 a) as (Hc & Hm & Hs & _ & _ & Hcalls & _).
  split; [by apply LRUFacts.moveToHead_repr|].
  split_and!; try done.
  - intros b. rewrite LRUFacts.moveToHead_data. unfold c0. cbn [heap with_heap].
    rewrite LRUFacts.lookup_set_value. destruct (decide (a = b)) as [<-|]; [|done].
    by rewrite Hnd.
  - rewrite (lru_moveToHead_recency c0 l1 a l2 k Hr0 Hg). do 2 f_equal.
    rewrite (lru_recency_repr c0 _ Hr0), (lru_recency_repr c _ Hr).
    apply omap_ext_in. intros b _. unfold c0. cbn [heap with_heap].
    apply LRUFacts.key_set_value.
Qed.

Lemma lru_absent_not_recent c l k :
  repr c l → Map_get k (cache c) = None → k ∉ omap (λ b, key <$> heap c !! b) l.
Proof.
  intros Hr Hg Hin. apply list_elem_of_omap in Hin. destruct Hin as (b & Hb & Hk).
  destruct (lru_index_of_node c l b Hr Hb) as (k' & Hg' & Hk').
  rewrite Hk in Hk'. injection Hk' as <-. congruence.
Qed.

(** [set] on a new key while the cache has room. *)
Lemma lru_set_insert_spec c l k v opt now :
  repr c l → Map_get k (cache c) = None → size c + 1 ≤ capacity c →
  ∃ c', set c k v opt now = Returns c' ∧ repr c' (length (heap c) :: l) ∧
        cache c' = Map_set k (length (heap c)) (cache c) ∧ size c' = size c + 1 ∧
        calls c' = calls c ∧ capacity c' = capacity c ∧
        recency c' (Z.to_nat (size c')) =
          k :: filter (λ x, x ≠ k) (recency c (Z.to_nat (size c))).
Proof.
  intros Hr Hg Hroom.
  set (exp := expiry_of now (default (maxAge c) opt)).
  pose proof (LRUFacts.inserted_repr c l k v exp Hr Hg) as Hr'.
  exists (inserted c k v exp). split.
  { rewrite (LRUFacts.set_new c k v opt now Hg). cbv zeta. fold exp.
    rewrite decide_False; [done | simpl; lia]. }
  split; [done|]. split_and!; try done.
  assert (Map_get k (cache (inserted c k v exp)) = Some (length (heap c))) as Hg'.
  { simpl. by rewrite Map_get_set, decide_True. }
  destruct (lru_recency_middle _ [] _ l k Hr' Hg') as [-> _]. simpl. f_equal.
  rewrite (lru_recency_repr c l Hr).
  rewrite filter_all by (intros x Hx ->; by apply (lru_absent_not_recent c l k Hr Hg)).
  apply omap_ext_in. intros b Hb.
  apply LRUFacts.data_key. by apply (LRUFacts.inserted_data c l).
Qed.

(** [set] on a new key when the cache is full. *)
Lemma lru_set_overflow_spec c l k v opt now :
  repr c l → 1 ≤ capacity c → Map_get k (cache c) = None → size c + 1 > capacity c →
  ∃ c' l0 t ndt,
    l = l0 ++ [t] ∧ heap c !! t = Some ndt ∧ Map_get (key ndt) (cache c) = Some t ∧
    set c k v opt now = Returns c' ∧ repr c' (length (heap c) :: l0) ∧
    cache c' = Map_delete (key ndt) (Map_set k (length (heap c)) (cache c)) ∧
    key ndt ≠ k ∧
    size c' = size c ∧ capacity c' = capacity c ∧
    calls c' = (if onEviction c then calls c ++ [(key ndt, value ndt)] else calls c) ∧
    recency c (Z.to_nat (size c)) =
      omap (λ b, key <$> heap c !! b) l0 ++ [key ndt] ∧
    recency c' (Z.to_nat (size c')) = k :: omap (λ b, key <$> heap c !! b) l0.
Proof.
  intros Hr Hcap Hg Hfull.
  assert (l ≠ []) as Hne.
  { intros ->. pose proof (repr_size _ _ Hr) as Hs. simpl in Hs. lia. }
  destruct (exists_last Hne) as (l0 & t & ->). clear Hne.
  destruct (LRUFacts.set_new_evicts c l0 t k v opt now Hr Hg Hfull)
    as (ndt & c' & Hnt & Hset & Hr' & Hm & Hgt & Hs & Hc & _ & _ & Hcalls).
  assert (key ndt ≠ k) as Hne by (intros <-; congruence).
  exists c', l0, t, ndt. split_and!; try done.
  - rewrite (lru_recency_repr c _ Hr), omap_app. csimpl. by rewrite Hnt.
  - assert (Map_get k (cache c') = Some (length (heap c))) as Hg'.
    { rewrite Hm, Map_get_delete, decide_False by done.
      by rewrite Map_get_set, decide_True. }
    destruct (lru_recency_middle _ [] _ l0 k Hr' Hg') as [-> _]. simpl. f_equal.
    apply omap_ext_in. intros b Hb. apply LRUFacts.data_key.
    pose proof (lru_set_new_data c k v opt now b Hg) as Hd.
    rewrite Hset in Hd. cbn [state_of] in Hd. rewrite Hd.
    rewrite lookup_app_l; [done|].
    apply lookup_lt_is_Some.
    apply (LRUFacts.dlseg_lookup _ _ _ _ b (repr_links _ _ Hr)).
    apply elem_of_app. by left.
Qed.

Lemma lru_entry_data c k a (d : K * V * option Z) :
  Map_get k (cache c) = Some a → data <$> heap c !! a = Some d →
  entry c k = Some (d.1.2, d.2).
Proof.
  intros Hg Hd. unfold entry. rewrite Hg. simpl.
  destruct (heap c !! a) as [n|]; [|done]. simpl in *. by injection Hd as <-.
Qed.

Lemma lru_entry_has c k x : entry c k = Some x → has c k = true.
Proof.
  unfold entry, has, Map_has. intros He. apply bool_decide_eq_true_2.
  destruct (Map_get k (cache c)); [by eexists | done].
Qed.

(** The entry a [set] on a new key leaves under it. *)
Lemma lru_set_new_entry c k v opt now c' :
  Map_get k (cache c) = None → set c k v opt now = Returns c' →
  Map_get k (cache c') = Some (length (heap c)) →
  entry c' k = Some (v, expiry_of now (default (maxAge c) opt)).
Proof.
  intros Hg Hset Hg'.
  pose proof (lru_set_new_data c k v opt now (length (heap c)) Hg) as Hd.
  rewrite Hset in Hd. cbn [state_of] in Hd.
  rewrite list_lookup_middle in Hd by done.
  apply (lru_entry_data c' k _ _ Hg' Hd).
Qed.

(** Entries under other keys of the index survive a [set] on a new key
    as long as they stay in the index. *)
Lemma lru_set_new_frame c l k v opt now c' k' :
  repr c l → Map_get k (cache c) = None → set c k v opt now = Returns c' →
  Map_get k' (cache c') = Map_get k' (cache c) →
  entry c' k' = entry c k'.
Proof.
  intros Hr Hg Hset Hg'. apply lru_entry_ext; [done|]. intros b Hb.
  pose proof (lru_set_new_data c k v opt now b Hg) as Hd.
  rewrite Hset in Hd. cbn [state_of] in Hd. rewrite Hd.
  rewrite lookup_app_l; [done|]. apply lookup_lt_is_Some.
  apply (LRUFacts.dlseg_lookup _ _ _ _ b (repr_links _ _ Hr)).
  by apply (lru_node_of_index c l k' b Hr).
Qed.

(** X13. [set] followed by a lookup, in a state of the LRU cache whose
    list is in order and with a capacity of at least 1: [set] returns
    (it does not throw) and leaves the list in order; the cache then holds
    the key with the value given; the expiry it holds is the one computed
    from this call ([now + maxAge], none for an infinite [maxAge]) when the
    key is new, and the expiry the entry already had when the key was
    there; [has] is true, [get] at clock value [now'] answers the value
    unless that expiry is [<= now'], and the key is the most recently used
    one. *)
Theorem lru_set_then_get c l k v opt now now' :
  repr c l → 1 ≤ capacity c →
  ∃ c' l',
    set c k v opt now = Returns c' ∧ repr c' l' ∧
    entry c' k = Some (v, match entry c k with
                          | Some old => old.2
                          | None => expiry_of now (default (maxAge c) opt)
                          end) ∧
    has c' k = true ∧
    (get c' k now').1 =
      (if expired (match entry c k with
                   | Some old => old.2
                   | None => expiry_of now (default (maxAge c) opt)
                   end) now'
       then None else Some v) ∧
    list.head (recency c' (Z.to_nat (size c'))) = Some k.
Proof.
  intros Hr Hcap.
  assert (∃ c' l',
    set c k v opt now = Returns c' ∧ repr c' l' ∧
    entry c' k = Some (v, match entry c k with
                          | Some old => old.2
                          | None => expiry_of now (default (maxAge c) opt)
                          end) ∧
    list.head (recency c' (Z.to_nat (size c'))) = Some k)
    as (c' & l' & Hset & Hr' & He & Hhd).
  { destruct (Map_get k (cache c)) as [a|] eqn:Hg.
    - destruct (lru_node_of_index c l k a Hr Hg) as [Ha _].
      destruct (LRUFacts.dlseg_lookup _ _ _ _ a (repr_links _ _ Hr) Ha) as [nd Hnd].
      apply list_elem_of_split in Ha. destruct Ha as (l1 & l2 & ->).
      destruct (lru_set_overwrite_spec c l1 a l2 k v opt now nd Hr Hg Hnd)
        as (c' & Hset & Hr' & Hm & _ & _ & _ & Hd & Hrec).
      exists c', (a :: l1 ++ l2). split_and!; try done.
      + assert (entry c k = Some (value nd, expiry nd)) as ->.
        { unfold entry. rewrite Hg. simpl. by rewrite Hnd. }
        apply (lru_entry_data c' k a (key nd, v, expiry nd)); [by rewrite Hm|].
        by rewrite Hd, decide_True.
      + by rewrite Hrec.
    - assert (entry c k = None) as -> by (unfold entry; by rewrite Hg).
      destruct (decide (size c + 1 > capacity c)) as [Hfull|Hroom].
      + destruct (lru_set_overflow_spec c l k v opt now Hr Hcap Hg Hfull)
          as (c' & l0 & t & ndt & -> & _ & _ & Hset & Hr' & Hm & Hne & _ & _ & _ & _ & Hrec).
        exists c', (length (heap c) :: l0). split_and!; try done.
        * apply (lru_set_new_entry c k v opt now c' Hg Hset).
          rewrite Hm, Map_get_delete, decide_False by done.
          by rewrite Map_get_set, decide_True.
        * by rewrite Hrec.
      + destruct (lru_set_insert_spec c l k v opt now Hr Hg)
          as (c' & Hset & Hr' & Hm & _ & _ & _ & Hrec); [lia|].
        exists c', (length (heap c) :: l). split_and!; try done.
        * apply (lru_set_new_entry c k v opt now c' Hg Hset).
          by rewrite Hm, Map_get_set, decide_True.
        * by rewrite Hrec. }
  exists c', l'. split_and!; try done.
  - by eapply lru_entry_has.
  - by rewrite lru_get_result, He.
Qed.

(** X14. A [set] that overwrites a key, or adds one while [size] is below
    the capacity, in an LRU cache whose list is in order: it returns; every
    other key keeps its value and expiry; the key becomes the most recently
    used one and the others keep their order; in the index (the order the
    iterators follow) an overwritten key keeps its place and a new key goes
    last; [size] is unchanged on an overwrite and one more on an addition;
    [onEviction] is not called. *)
Theorem lru_set_without_overflow c l k v opt now :
  repr c l → is_Some (Map_get k (cache c)) ∨ size c < capacity c →
  ∃ c', set c k v opt now = Returns c' ∧
        (∀ k', k' ≠ k → entry c' k' = entry c k') ∧
        recency c' (Z.to_nat (size c')) =
          k :: filter (λ x, x ≠ k) (recency c (Z.to_nat (size c))) ∧
        (cache c').*1 = (if has c k then (cache c).*1 else (cache c).*1 ++ [k]) ∧
        size c' = (if has c k then size c else size c + 1) ∧
        calls c' = calls c ∧ capacity c' = capacity c.
Proof.
  intros Hr Hcase. unfold has, Map_has.
  destruct (Map_get k (cache c)) as [a|] eqn:Hg.
  - rewrite (bool_decide_eq_true_2 (is_Some (Some a))) by (by eexists).
    destruct (lru_node_of_index c l k a Hr Hg) as [Ha Hka].
    destruct (LRUFacts.dlseg_lookup _ _ _ _ a (repr_links _ _ Hr) Ha) as [nd Hnd].
    apply list_elem_of_split in Ha. destruct Ha as (l1 & l2 & ->).
    destruct (lru_set_overwrite_spec c l1 a l2 k v opt now nd Hr Hg Hnd)
      as (c' & Hset & Hr' & Hm & Hs & Hcalls & Hc & Hd & Hrec).
    exists c'. split_and!; try done; [|by rewrite Hm].
    intros k' Hne. apply lru_entry_ext; [by rewrite Hm|]. intros b Hb.
    rewrite Hd, decide_False; [done|]. intros <-.
    destruct (lru_node_of_index c _ k' a Hr Hb) as [_ Hka'].
    rewrite Hka in Hka'. by injection Hka'.
  - rewrite bool_decide_eq_false_2 by (by intros [? ?]).
    destruct Hcase as [[? ?]|Hlt]; [done|].
    destruct (lru_set_insert_spec c l k v opt now Hr Hg)
      as (c' & Hset & Hr' & Hm & Hs & Hcalls & Hc & Hrec); [lia|].
    exists c'. split_and!; try done.
    + intros k' Hne. apply (lru_set_new_frame c l k v opt now c' k' Hr Hg Hset).
      rewrite Hm, Map_get_set. by rewrite decide_False.
    + rewrite Hm, Map_set_fresh by (by apply Map_get_None).
      by rewrite fmap_app.
Qed.

(** X15. A [set] of a new key in a full LRU cache whose list is in order
    (capacity at least 1), key by key: the key evicted is the last of the
    recency order, the least recently used one; afterwards the new key is
    the most recently used and the remaining keys follow in the order they
    had; the evicted key is gone from the index, which keeps its order and
    gets the new key last; every key other than these two keeps its value
    and expiry; [size] is unchanged; [onEviction], when supplied, is called
    once, with the evicted key and its value. *)
Theorem lru_set_overflow_evicts_least_recent c l k v opt now :
  repr c l → 1 ≤ capacity c → Map_get k (cache c) = None → size c >= capacity c →
  ∃ c' order victim old,
    recency c (Z.to_nat (size c)) = order ++ [victim] ∧
    entry c victim = Some old ∧
    set c k v opt now = Returns c' ∧
    recency c' (Z.to_nat (size c')) = k :: order ∧
    has c' victim = false ∧
    (∀ k', k' ≠ k → k' ≠ victim → entry c' k' = entry c k') ∧
    (cache c').*1 = filter (λ x, x ≠ victim) (cache c).*1 ++ [k] ∧
    size c' = size c ∧
    calls c' = (if onEviction c then calls c ++ [(victim, old.1)] else calls c).
Proof.
  intros Hr Hcap Hg Hfull.
  destruct (lru_set_overflow_spec c l k v opt now Hr Hcap Hg)
    as (c' & l0 & t & ndt & -> & Hnt & Hgt & Hset & Hr' & Hm & Hne & Hs & _ &
        Hcalls & Hrec & Hrec'); [lia|].
  exists c', (omap (λ b, key <$> heap c !! b) l0), (key ndt), (value ndt, expiry ndt).
  split_and!; try done.
  - unfold entry. rewrite Hgt. simpl. by rewrite Hnt.
  - unfold has, Map_has. rewrite Hm, Map_get_delete, decide_True by done.
    apply bool_decide_eq_false_2. by intros [? ?].
  - intros k' Hk Hv. apply (lru_set_new_frame c _ k v opt now c' k' Hr Hg Hset).
    rewrite Hm, Map_get_delete, decide_False by done.
    rewrite Map_get_set. by rewrite decide_False.
  - rewrite Hm, Map_delete_keys, Map_set_fresh by (by apply Map_get_None).
    rewrite fmap_app, filter_app. f_equal. simpl.
    by rewrite filter_cons_True, filter_nil by done.
Qed.

(** The loop of [entriesAscendingInternal] and [entriesDescending] over
    entries the index holds. *)
Lemma lru_entriesLoop_spec pending now : ∀ c,
  NoDup pending.*1 →
  (∀ p, p ∈ pending → Map_get p.1 (cache c) = Some p.2) →
  (entriesLoop c pending now).1 = filter (λ p, live c now p) pending ∧
  cache (entriesLoop c pending now).2 =
    filter (λ x, x.1 ∉ (filter (λ p, ¬ live c now p) pending).*1) (cache c) ∧
  size (entriesLoop c pending now).2 =
    size c - Z.of_nat (length (filter (λ p, ¬ live c now p) pending)) ∧
  capacity (entriesLoop c pending now).2 = capacity c ∧
  onEviction (entriesLoop c pending now).2 = onEviction c ∧
  calls (entriesLoop c pending now).2 = calls c ∧
  (∀ b, data <$> heap (entriesLoop c pending now).2 !! b = data <$> heap c !! b).
Proof.
  induction pending as [|[k a] rest IH]; intros c Hnd Hin.
  - simpl. split_and!; try done; [|lia].
    symmetry. apply filter_all. intros x _. apply not_elem_of_nil.
  - rewrite fmap_cons, NoDup_cons in Hnd. destruct Hnd as [Hk Hnd].
    cbn [entriesLoop]. unfold deleteIfExpired.
    destruct (expired (heap c !! a ≫= expiry) now) eqn:He.
    + assert (¬ live c now (k, a)) as Hdead.
      { unfold live. cbn [snd]. rewrite He. by intros []. }
      rewrite (filter_cons_False (λ p, live c now p)) by done.
      rewrite (filter_cons_True (λ p, ¬ live c now p)) by done.
      destruct (lru_delete_state c k) as (Hc & _ & Hoe & Hcalls & Hm & Hs & _).
      pose proof (lru_delete_data c k) as Hd.
      assert (has c k = true) as Hhas.
      { unfold has, Map_has. apply bool_decide_eq_true_2.
        exists a. apply (Hin (k, a)). by left. }
      rewrite Hhas in Hs.
      destruct (IH (delete c k).2 Hnd) as (E1 & E2 & E3 & E4 & E6 & E7 & E8).
      { intros p Hp. rewrite Hm, Map_get_delete, decide_False.
        - apply Hin. by right.
        - intros ->. apply Hk. apply list_elem_of_fmap. by exists p. }
      rewrite (list_filter_iff (λ p, live (delete c k).2 now p) (λ p, live c now p)) in E1
        by (intros p; by rewrite (lru_live_ext c (delete c k).2 now p Hd)).
      rewrite (list_filter_iff (λ p, ¬ live (delete c k).2 now p) (λ p, ¬ live c now p))
        in E2, E3 by (intros p; by rewrite (lru_live_ext c (delete c k).2 now p Hd)).
      destruct (entriesLoop (delete c k).2 rest now) as [items c2].
      cbn [fst snd] in *.
      rewrite E1, E2, E3, E4, E6, E7, Hm, Hs, Hc, Hoe, Hcalls.
      split_and!; try done.
      * unfold Map_delete. rewrite list_filter_filter. apply list_filter_iff.
        intros x. rewrite fmap_cons, not_elem_of_cons. simpl. tauto.
      * simpl. lia.
      * intros b. by rewrite E8.
    + assert (live c now (k, a)) as Hlive.
      { unfold live. cbn [snd]. by rewrite He. }
      rewrite (filter_cons_True (λ p, live c now p)) by done.
      rewrite (filter_cons_False (λ p, ¬ live c now p)) by (intros Hn; by apply Hn).
      destruct (IH c Hnd) as (E1 & E2 & E3 & E4 & E6 & E7 & E8).
      { intros p Hp. apply Hin. by right. }
      destruct (entriesLoop c rest now) as [items c2]. cbn [fst snd] in *.
      by rewrite E1.
Qed.

Lemma lru_entriesLoop_live pending now : ∀ c,
  (∀ p, p ∈ pending → live c now p) → entriesLoop c pending now = (pending, c).
Proof.
  induction pending as [|[k a] rest IH]; intros c Hl; [done|].
  cbn [entriesLoop]. unfold deleteIfExpired.
  pose proof (Hl (k, a) ltac:(left)) as Hka. unfold live in Hka. cbn [snd] in Hka.
  destruct (expired (heap c !! a ≫= expiry) now); [done|].
  rewrite IH; [done|]. intros p Hp. apply Hl. by right.
Qed.

(** The loop of [entriesDescending] is the same loop, yielding the value
    with the key. *)
Lemma lru_descendingLoop_spec pending now : ∀ c,
  descendingLoop c pending now =
    (omap (λ p, (λ n, (p.1, value n)) <$> heap c !! p.2) (entriesLoop c pending now).1,
     (entriesLoop c pending now).2).
Proof.
  induction pending as [|[k a] rest IH]; intros c; [done|].
  cbn [descendingLoop entriesLoop]. unfold deleteIfExpired.
  destruct (expired (heap c !! a ≫= expiry) now).
  - rewrite IH. destruct (entriesLoop (delete c k).2 rest now) as [items c2].
    cbn [fst snd]. f_equal. apply omap_ext_in. intros p _.
    pose proof (lru_value_ext c (delete c k).2 p.2 (lru_delete_data c k)) as Hv.
    destruct (heap (delete c k).2 !! p.2), (heap c !! p.2); simpl in *; congruence.
  - rewrite IH. destruct (entriesLoop c rest now) as [items c2].
    cbn [fst snd]. f_equal. csimpl. by destruct (heap c !! a).
Qed.

(** The entries an iteration yields, read key by key. *)
Lemma lru_live_entries c now :
  NoDup (cache c).*1 →
  omap (λ p, (λ n, (p.1, value n)) <$> heap c !! p.2)
       (filter (λ p, live c now p) (cache c)) =
  omap (λ k, x ← entry c k; if expired x.2 now then None else Some (k, x.1))
       (cache c).*1.
Proof.
  intros Hnd. rewrite omap_fmap_fst.
  assert (∀ m : list (K * addr),
    (∀ p, p ∈ m → Map_get p.1 (cache c) = Some p.2) →
    omap (λ p, (λ n, (p.1, value n)) <$> heap c !! p.2) (filter (λ p, live c now p) m) =
    omap (λ p, x ← entry c p.1; if expired x.2 now then None else Some (p.1, x.1)) m)
    as Hgen.
  { induction m as [|[k a] m IH]; intros Hin; [done|].
    pose proof (Hin (k, a) ltac:(left)) as Hka. cbn [fst snd] in Hka.
    assert (entry c k = (λ n, (value n, expiry n)) <$> heap c !! a) as Hent.
    { unfold entry. by rewrite Hka. }
    assert (live c now (k, a) = negb (expired (heap c !! a ≫= expiry) now)) as Hlv by done.
    specialize (IH (λ p Hp, Hin p (list_elem_of_further _ _ _ Hp))).
    csimpl. rewrite Hent, <- IH. clear IH Hent.
    destruct (heap c !! a) as [n|] eqn:Hn; simpl in *.
    - destruct (expired (expiry n) now); simpl in *.
      + by rewrite filter_cons_False by (rewrite Hlv; by intros []).
      + rewrite filter_cons_True by (by rewrite Hlv). csimpl. by rewrite Hn.
    - destruct (expired None now); simpl in *.
      + by rewrite filter_cons_False by (rewrite Hlv; by intros []).
      + rewrite filter_cons_True by (by rewrite Hlv). csimpl. by rewrite Hn. }
  apply Hgen. intros [k a] Hp. by apply Map_get_NoDup.
Qed.

(** X16. Iterating over the LRU cache ([keys], [values], [entries],
    [forEach], all running [entriesAscendingInternal] to the end) at clock
    value [now]: the entries yielded are those of the index that have not
    expired, in the order of the index, which is the order in which the
    keys were first inserted and not the recency order; the expired ones
    are deleted on the way, so that the index afterwards holds exactly the
    entries yielded and [size] has gone down by the number of expired ones;
    no value or expiry changes and [onEviction] is not called; a second
    iteration at the same clock value yields the same entries and changes
    nothing. *)
Theorem lru_iteration_yields_live_entries c now :
  NoDup (cache c).*1 →
  (entriesAscendingInternal c now).1 = filter (λ p, live c now p) (cache c) ∧
  cache (entriesAscendingInternal c now).2 = filter (λ p, live c now p) (cache c) ∧
  size (entriesAscendingInternal c now).2 =
    size c - Z.of_nat (length (filter (λ p, ¬ live c now p) (cache c))) ∧
  calls (entriesAscendingInternal c now).2 = calls c ∧
  (keys c now).1 = (filter (λ p, live c now p) (cache c)).*1 ∧
  (entries c now).1 =
    omap (λ k, x ← entry c k; if expired x.2 now then None else Some (k, x.1))
         (cache c).*1 ∧
  (values c now).1 = (entries c now).1.*2 ∧
  (∀ k, entry (entriesAscendingInternal c now).2 k =
        x ← entry c k; if expired x.2 now then None else Some x) ∧
  entriesAscendingInternal (entriesAscendingInternal c now).2 now =
    (filter (λ p, live c now p) (cache c), (entriesAscendingInternal c now).2).
Proof.
  intros Hnd. unfold keys, values, entries, entriesAscendingInternal.
  destruct (lru_entriesLoop_spec (cache c) now c Hnd) as (E1 & E2 & E3 & _ & _ & E7 & E8).
  { intros [k a] Hp. by apply Map_get_NoDup. }
  rewrite (filter_by_keys (λ p, live c now p) (cache c) (cache c) Hnd) in E2 by done.
  destruct (entriesLoop c (cache c) now) as [items c1]. cbn [fst snd] in *.
  subst items.
  assert (omap (λ p, (λ n, (p.1, value n)) <$> heap c1 !! p.2)
               (filter (λ p, live c now p) (cache c)) =
          omap (λ k, x ← entry c k; if expired x.2 now then None else Some (k, x.1))
               (cache c).*1) as Hent.
  { rewrite <- (lru_live_entries c now Hnd). apply omap_ext_in. intros p _.
    pose proof (lru_value_ext c c1 p.2 E8) as Hv.
    destruct (heap c1 !! p.2), (heap c !! p.2); simpl in *; congruence. }
  split_and!; try done.
  - generalize (filter (λ p, live c now p) (cache c)).
    intros m. induction m as [|[k a] m IH]; [done|]. csimpl.
    destruct (heap c1 !! a); csimpl; by rewrite IH.
  - intros k. unfold entry. rewrite E2.
    destruct (Map_get k (cache c)) as [a|] eqn:Hg.
    + pose proof (E8 a) as Hd.
      destruct (decide (live c now (k, a))) as [Hl|Hl].
      * rewrite (Map_get_NoDup k a); cycle 1.
        { by apply filter_keys_NoDup. }
        { apply list_elem_of_filter. split; [done | by apply Map_get_elem]. }
        unfold live in Hl. cbn [snd] in Hl. simpl.
        destruct (heap c1 !! a) as [n1|], (heap c !! a) as [n|]; simpl in *; try done.
        injection Hd as _ -> ->. by destruct (expired (expiry n) now).
      * assert (Map_get k (filter (λ p, live c now p) (cache c)) = None) as ->.
        { apply Map_get_None. intros Hin. apply list_elem_of_fmap in Hin.
          destruct Hin as ([k' a'] & -> & [Hl' Hin]%list_elem_of_filter). simpl in *.
          apply (Map_get_NoDup _ _ _ Hnd) in Hin. rewrite Hg in Hin.
          injection Hin as <-. done. }
        unfold live in Hl. cbn [snd] in Hl. simpl.
        destruct (heap c !! a) as [n|]; simpl in *; [|done].
        destruct (expired (expiry n) now); [done | by destruct Hl].
    + simpl. assert (Map_get k (filter (λ p, live c now p) (cache c)) = None) as ->; [|done].
      apply Map_get_None. intros Hin. apply list_elem_of_fmap in Hin.
      destruct Hin as ([k' a'] & -> & [_ Hin]%list_elem_of_filter).
      apply Map_get_None in Hg. apply Hg. apply list_elem_of_fmap. by exists (k', a').
  - rewrite E2. apply lru_entriesLoop_live.
    intros p Hp. apply list_elem_of_filter in Hp. destruct Hp as [Hp _].
    by rewrite (lru_live_ext c c1 now p E8).
Qed.

(** X17. [entriesDescending], run to the end at clock value [now] on an
    LRU cache: it yields the entries that have not expired in the reverse
    of the index order, that is exactly the entries [entries] yields, last
    inserted first; like the ascending iteration it deletes the expired
    entries, leaving the same index, the same [size] and the same
    [onEviction] log (no call). *)
Theorem lru_entriesDescending_reverses_entries c now :
  NoDup (cache c).*1 →
  (entriesDescending c now).1 = reverse (entries c now).1 ∧
  cache (entriesDescending c now).2 = cache (entriesAscendingInternal c now).2 ∧
  cache (entriesDescending c now).2 = filter (λ p, live c now p) (cache c) ∧
  size (entriesDescending c now).2 = size (entriesAscendingInternal c now).2 ∧
  calls (entriesDescending c now).2 = calls c.
Proof.
  intros Hnd. unfold entriesDescending, entries, entriesAscendingInternal.
  rewrite lru_descendingLoop_spec. cbn [fst snd].
  destruct (lru_entriesLoop_spec (cache c) now c Hnd) as (E1 & E2 & E3 & _ & _ & E7 & E8).
  { intros [k a] Hp. by apply Map_get_NoDup. }
  destruct (lru_entriesLoop_spec (reverse (cache c)) now c)
    as (D1 & D2 & D3 & _ & _ & D7 & _).
  { by rewrite fmap_reverse, reverse_Permutation. }
  { intros [k a] Hp. apply Map_get_NoDup; [done|]. by apply elem_of_reverse. }
  rewrite (filter_by_keys (λ p, live c now p) (cache c) (cache c) Hnd) in E2 by done.
  rewrite (filter_by_keys (λ p, live c now p) (cache c) (reverse (cache c)) Hnd) in D2
    by (intros x; apply elem_of_reverse).
  rewrite filter_reverse in D1. rewrite filter_reverse, length_reverse in D3.
  destruct (entriesLoop c (cache c) now) as [items c1].
  destruct (entriesLoop c (reverse (cache c)) now) as [items' c1'].
  cbn [fst snd] in *. subst items items'.
  split_and!; try done; [|congruence|congruence].
  rewrite omap_reverse. f_equal. apply omap_ext_in. intros p _.
  pose proof (lru_value_ext c c1 p.2 E8) as Hv.
  destruct (heap c1 !! p.2), (heap c !! p.2); simpl in *; congruence.
Qed.

(** X18. [resize(newSize)] of the LRU cache with an integer [newSize]. A
    [newSize <= 0] throws [TypeError] and changes nothing. Otherwise the
    expired entries are purged as by an iteration, and of the [n] entries
    left the first [n - newSize] in index order (the keys inserted first,
    however recently they were used) are dropped from the index, when
    [n > newSize]: the index then holds the others in the same order,
    [size] is the smaller of [newSize] and [n] and counts the index,
    [onEviction] has been called once for each dropped entry, in order,
    with its key and value. The capacity is not assigned, and the nodes,
    [head] and [tail] are as the purge left them: the dropped nodes stay
    linked in the recency list. *)
Theorem lru_resize_drops_oldest_insertions c newSize now :
  NoDup (cache c).*1 →
  let kept := filter (λ p, live c now p) (cache c) in
  let n := Z.to_nat (Z.of_nat (length kept) - newSize) in
  (newSize ≤ 0 → resize c newSize now = Throws TypeError c) ∧
  (0 < newSize →
   ∃ c', resize c newSize now = Returns c' ∧
         cache c' = drop n kept ∧
         size c' = Z.min newSize (Z.of_nat (length kept)) ∧
         size c' = Z.of_nat (length (cache c')) ∧
         calls c' =
           (if onEviction c
            then calls c ++
                 omap (λ p, (λ nd, (p.1, value nd)) <$> heap c !! p.2) (take n kept)
            else calls c) ∧
         capacity c' = capacity c ∧
         heap c' = heap (entriesAscendingInternal c now).2 ∧
         head c' = head (entriesAscendingInternal c now).2 ∧
         tail c' = tail (entriesAscendingInternal c now).2).
Proof.
  intros Hnd kept n. split.
  { intros Hle. unfold resize. by rewrite decide_True. }
  intros Hpos. unfold resize. rewrite decide_False by lia.
  unfold entriesAscendingInternal.
  destruct (lru_entriesLoop_spec (cache c) now c Hnd)
    as (E1 & _ & _ & E4 & E6 & E7 & E8).
  { intros [k a] Hp. by apply Map_get_NoDup. }
  destruct (entriesLoop c (cache c) now) as [items c1]. cbn [fst snd] in *.
  fold kept in E1. subst items. fold n.
  assert (NoDup kept.*1) as Hk by by apply filter_keys_NoDup.
  rewrite (Map_of_NoDup kept), (Map_of_NoDup (drop n kept)), (Map_of_NoDup (take n kept))
    by (done || by apply drop_keys_NoDup || by apply take_keys_NoDup).
  assert (∀ m : list (K * addr),
            omap (λ p, (λ nd, (p.1, value nd)) <$> heap c1 !! p.2) m =
            omap (λ p, (λ nd, (p.1, value nd)) <$> heap c !! p.2) m) as Hval.
  { intros m. apply omap_ext_in. intros p _.
    pose proof (lru_value_ext c c1 p.2 E8) as Hv.
    destruct (heap c1 !! p.2), (heap c !! p.2); simpl in *; congruence. }
  destruct (decide (Z.of_nat (length kept) - newSize > 0)) as [Hgt|Hle].
  - eexists. split; [done|]. unfold emitEvictions. rewrite E6.
    destruct (onEviction c); cbn [cache size calls capacity heap head tail];
      rewrite ?E7, ?E4, ?Hval, length_drop; split_and!; try done; lia.
  - eexists. split; [done|]. cbn [cache size calls capacity heap head tail].
    assert (n = 0%nat) as -> by lia. rewrite drop_0, take_0, E7, E4. csimpl.
    rewrite app_nil_r.
    split_and!; try done; [lia | by destruct (onEviction c)].
Qed.

(** X19. [clear] puts the LRU cache back in order from any state, also one
    that [resize] left with dropped nodes in its list: the index is empty,
    [head] and [tail] are [Nothing], [size] is 0, the capacity and the
    [onEviction] log are kept; and with a capacity of at least 1, after any
    further run of [set], [get], [peek], [delete], [clear] and iterations
    the recency list holds exactly the entries of the index, [size] counts
    them and stays within the capacity. *)
Theorem lru_clear_restores_order c (ops : list op) :
  1 ≤ capacity c →
  cache (clear c) = [] ∧ head (clear c) = None ∧ tail (clear c) = None ∧
  size (clear c) = 0 ∧ capacity (clear c) = capacity c ∧ calls (clear c) = calls c ∧
  ∃ l, repr (run (clear c) ops) l ∧
       size (run (clear c) ops) ≤ capacity c ∧
       size (run (clear c) ops) = Z.of_nat (length (cache (run (clear c) ops))).
Proof.
  intros Hcap. split_and!; try done.
  destruct (LRUFacts.run_inv ops (clear c) [] (LRUFacts.repr_clear c []))
    as (l & Hr & _ & Hs & Hlen); [done | simpl; lia |].
  by exists l.
Qed.

Lemma lru_entriesLoop_state pending now : ∀ c,
  capacity (entriesLoop c pending now).2 = capacity c ∧
  maxAge (entriesLoop c pending now).2 = maxAge c ∧
  onEviction (entriesLoop c pending now).2 = onEviction c ∧
  calls (entriesLoop c pending now).2 = calls c.
Proof.
  induction pending as [|[k a] rest IH]; intros c; [done|].
  cbn [entriesLoop]. unfold deleteIfExpired.
  destruct (expired (heap c !! a ≫= expiry) now).
  - destruct (lru_delete_state c k) as (Hc & Hma & Hoe & Hcalls & _).
    destruct (IH (delete c k).2) as (E1 & E2 & E3 & E4).
    destruct (entriesLoop (delete c k).2 rest now) as [items c2]. cbn [fst snd] in *.
    by rewrite E1, E2, E3, E4.
  - destruct (IH c) as (E1 & E2 & E3 & E4).
    by destruct (entriesLoop c rest now) as [items c2].
Qed.

Lemma lru_get_state c k now :
  capacity (get c k now).2 = capacity c ∧ maxAge (get c k now).2 = maxAge c ∧
  onEviction (get c k now).2 = onEviction c ∧ calls (get c k now).2 = calls c.
Proof.
  unfold get, getOrDeleteIfExpired, deleteIfExpired.
  destruct (Map_get k (cache c)) as [a|]; [|done].
  destruct (expired (heap c !! a ≫= expiry) now); simpl.
  - destruct (lru_delete_state c k) as (? & ? & ? & ? & _). done.
  - destruct (LRUFacts.moveToHead_fields c a) as (? & _ & _ & ? & ? & ? & _). done.
Qed.

Lemma lru_set_state c k v opt now :
  capacity (state_of (set c k v opt now)) = capacity c ∧
  maxAge (state_of (set c k v opt now)) = maxAge c ∧
  onEviction (state_of (set c k v opt now)) = onEviction c ∧
  (calls (state_of (set c k v opt now)) = calls c ∨
   (Map_get k (cache c) = None ∧ size c >= capacity c ∧ onEviction c = true ∧
    ∃ kv, calls (state_of (set c k v opt now)) = calls c ++ [kv])).
Proof.
  destruct (Map_get k (cache c)) as [a|] eqn:Hg.
  - rewrite (LRUFacts.set_existing c k v opt now a Hg). cbn [state_of].
    destruct (LRUFacts.moveToHead_fields (with_heap c (set_value a v (heap c))) a)
      as (? & _ & _ & ? & ? & ? & _).
    split_and!; try done. by left.
  - unfold set. rewrite Hg.
    repeat (case_match; simpl); split_and!; try done; try (by left).
    all: right; split_and!; try done; try lia; by eexists.
Qed.

(** X20. What the operations of the LRU cache never do. None of [set],
    [get], [peek], [delete], [clear] and the iterations changes the
    capacity, the default [maxAge] or the callback, whether it returns or
    throws. [onEviction] is called by [set] only, at most once per call,
    and only when the key is new and [size] has reached the capacity: an
    entry that is deleted, cleared or purged because it expired is dropped
    without a call. Over a run of operations the log of calls only grows,
    and it stays as it was when no callback was supplied. *)
Theorem lru_callback_only_on_eviction c (o : op) (ops : list op) :
  (capacity (step c o) = capacity c ∧ maxAge (step c o) = maxAge c ∧
   onEviction (step c o) = onEviction c) ∧
  (calls (step c o) = calls c ∨
   ∃ k v opt now kv,
     o = OpSet k v opt now ∧ Map_get k (cache c) = None ∧ size c >= capacity c ∧
     onEviction c = true ∧ calls (step c o) = calls c ++ [kv]) ∧
  (capacity (run c ops) = capacity c ∧ maxAge (run c ops) = maxAge c ∧
   onEviction (run c ops) = onEviction c) ∧
  calls c `prefix_of` calls (run c ops) ∧
  (onEviction c = false → calls (run c ops) = calls c).
Proof.
  assert (∀ c (o : op),
    (capacity (step c o) = capacity c ∧ maxAge (step c o) = maxAge c ∧
     onEviction (step c o) = onEviction c) ∧
    (calls (step c o) = calls c ∨
     ∃ k v opt now kv,
       o = OpSet k v opt now ∧ Map_get k (cache c) = None ∧ size c >= capacity c ∧
       onEviction c = true ∧ calls (step c o) = calls c ++ [kv])) as Hstep.
  { clear. intros c [k v opt now|k now|k now|k| |now]; cbn [step].
    - destruct (lru_set_state c k v opt now) as (? & ? & ? & [?|(? & ? & ? & kv & ?)]).
      + split; [done|]. by left.
      + split; [done|]. right. by exists k, v, opt, now, kv.
    - destruct (lru_get_state c k now) as (? & ? & ? & ?). split; [done|]. by left.
    - destruct (lru_get_state c k now) as (? & ? & ? & ?). split; [done|]. by left.
    - destruct (lru_delete_state c k) as (? & ? & ? & ? & _). split; [done|]. by left.
    - split; [done|]. by left.
    - destruct (lru_entriesLoop_state (cache c) now c) as (? & ? & ? & ?).
      split; [done|]. by left. }
  split; [apply Hstep|]. split; [apply Hstep|].
  clear o. revert c. induction ops as [|o ops IH]; intros c.
  - by split_and!.
  - unfold run. cbn [foldl]. fold (run (step c o) ops).
    destruct (Hstep c o) as ((Hc & Hma & Hoe) & Hcalls).
    destruct (IH (step c o)) as ((Hc' & Hma' & Hoe') & Hpre & Hoff).
    rewrite Hc', Hma', Hoe', Hc, Hma, Hoe. split; [done|]. split.
    + etrans; [|exact Hpre].
      destruct Hcalls as [->|(? & ? & ? & ? & kv & _ & _ & _ & _ & ->)];
        [done | by apply prefix_app_r].
    + intros Hno. rewrite Hoff by congruence.
      destruct Hcalls as [->|(? & ? & ? & ? & kv & _ & _ & _ & Hon & _)];
        [done | congruence].
Qed.

(** X21. The constructor takes any [maxSize]. On a new LRU cache built
    with an integer [maxSize <= 0] the first [set] throws, whatever the key:
    the node it has just linked in is also the tail it evicts, and
    unwrapping the tail's [prev], which is [Nothing], throws. The throw
    comes after the key was put in the index and taken out again and before
    [size] is decremented: the cache is left with an empty index, [size] 1
    and the node as [head] and [tail]; [onEviction] has not been called. *)
Theorem lru_first_set_throws_without_capacity (C : Z) optMaxAge cb k v opt now :
  C ≤ 0 →
  ∃ c', set (new C optMaxAge cb) k v opt now = Throws UnwrapNothing c' ∧
        cache c' = [] ∧ has c' k = false ∧ size c' = 1 ∧
        head c' = Some 0%nat ∧ tail c' = Some 0%nat ∧ calls c' = [] ∧
        capacity c' = C.
Proof.
  intros HC. unfold set, new. simpl.
  destruct (decide (0 + 1 > C)) as [_|Hn]; [|lia].
  eexists. split; [reflexivity|]. simpl.
  unfold Map_delete, has, Map_has. simpl.
  rewrite filter_cons_False, filter_nil by (intros Hn; by apply Hn).
  by split_and!.
Qed.
End LRUBehaviour.

(** * The further properties at work on the caches of the test suite *)
Section MoreWitnesses.
Import Examples.

Lemma lfu_mixed_keys : NoDup (LFU.cache lfu_mixed).*1.
Proof. apply (bool_decide_unpack _). by vm_compute. Qed.

Lemma lru_mixed_keys : NoDup (LRU.cache lru_mixed).*1.
Proof. apply (bool_decide_unpack _). by vm_compute. Qed.

Lemma lfu_set_without_overflow_witness :
  (is_Some (Map_get "a" (LFU.cache lfu_abc)) ∨ LFU.size lfu_abc < LFU.capacity lfu_abc) ∧
  Map_get "b" (LFU.cache (LFU.set lfu_abc "a" 9 None 0)) = Map_get "b" (LFU.cache lfu_abc) ∧
  LFU.calls (LFU.set lfu_abc "a" 9 None 0) = LFU.calls lfu_abc.
Proof.
  assert (is_Some (Map_get "a" (LFU.cache lfu_abc)) ∨
          LFU.size lfu_abc < LFU.capacity lfu_abc) as Hcase.
  { left. vm_compute. by eexists. }
  split; [exact Hcase|].
  destruct (lfu_set_without_overflow lfu_abc "a" 9 None 0 Hcase) as (Hother & Hcalls & _).
  split; [by apply Hother | exact Hcalls].
Defined.

Lemma lfu_get_bumps_frequency_witness :
  LFU.wf lfu_used ∧
  Map_get "c" (LFU.cache lfu_used) = Some (LFU.mkNode "c" 3 1 None) ∧
  expired None 7 = false ∧
  (LFU.get lfu_used "c" 7).1 = Some 3 ∧
  Map_get "c" (LFU.cache (LFU.get lfu_used "c" 7).2) = Some (LFU.mkNode "c" 3 2 None).
Proof.
  split; [exact (proj1 lfu_used_inv)|]. split; [reflexivity|]. split; [reflexivity|].
  destruct (lfu_get_bumps_frequency lfu_used "c" (LFU.mkNode "c" 3 1 None) 7
              (proj1 lfu_used_inv)) as (Hres & _ & Hnode & _);
    [reflexivity | reflexivity |].
  split; [exact Hres | exact Hnode].
Defined.

Lemma lfu_iteration_yields_live_entries_witness :
  NoDup (LFU.cache lfu_mixed).*1 ∧
  (LFU.keys lfu_mixed 100).1 = ["a"; "b"] ∧
  LFU.size (LFU.entriesAscendingInternal lfu_mixed 100).2 = 2.
Proof.
  split; [exact lfu_mixed_keys|].
  destruct (lfu_iteration_yields_live_entries lfu_mixed 100 lfu_mixed_keys)
    as (_ & _ & Hs & _ & Hk & _).
  split; [rewrite Hk; reflexivity | rewrite Hs; reflexivity].
Defined.

Lemma lfu_resize_drops_oldest_insertions_witness :
  NoDup (LFU.cache lfu_mixed).*1 ∧ 0 < 1 ∧
  ∃ x, LFU.resize lfu_mixed 1 100 = inr x ∧ (LFU.cache x).*1 = ["b"] ∧
       LFU.size x = 1 ∧ LFU.calls x = [("a", 1)].
Proof.
  split; [exact lfu_mixed_keys|]. split; [lia|].
  destruct (lfu_resize_drops_oldest_insertions lfu_mixed 1 100 lfu_mixed_keys)
    as [_ Hpos].
  destruct Hpos as (x & Hres & Hm & Hs & _ & Hcalls & _); [lia|].
  exists x. split; [exact Hres|].
  split; [rewrite Hm; reflexivity|]. split; [rewrite Hs; reflexivity|].
  rewrite Hcalls. reflexivity.
Defined.

Lemma lfu_clear_restores_order_witness :
  1 ≤ LFU.capacity lfu_twice ∧
  LFU.wf (LFU.run (LFU.clear lfu_twice) [LFU.OpSet "a" 1 None 0; LFU.OpGet "a" 1]) ∧
  LFU.size (LFU.run (LFU.clear lfu_twice) [LFU.OpSet "a" 1 None 0; LFU.OpGet "a" 1]) ≤
    LFU.capacity lfu_twice.
Proof.
  assert (1 ≤ LFU.capacity lfu_twice) as Hcap by (vm_compute; discriminate).
  split; [exact Hcap|].
  destruct (lfu_clear_restores_order lfu_twice
              [LFU.OpSet "a" 1 None 0; LFU.OpGet "a" 1] Hcap)
    as (_ & _ & _ & _ & _ & _ & Hwf & _ & Hs & _).
  split; [exact Hwf | exact Hs].
Defined.

Lemma lfu_capacity_below_one_keeps_last_key_witness :
  0 ≤ 1 ∧
  (LFU.cache (LFU.sets (LFU.new 0 None false)
                ([("a", 1, None, 0); ("b", 2, None, 0)] ++ [("c", 3, None, 0)]))).*1
    = ["c"].
Proof.
  split; [lia|].
  apply (lfu_capacity_below_one_keeps_last_key 0 None false
           [("a", 1, None, 0); ("b", 2, None, 0)] "c" 3 None 0).
  lia.
Defined.

Lemma lru_delete_keeps_recency_order_witness :
  LRU.repr lru_abc ([2] ++ 1 :: [0])%nat ∧
  Map_get "b" (LRU.cache lru_abc) = Some 1%nat ∧
  LRU.repr (LRU.delete lru_abc "b").2 ([2] ++ [0])%nat ∧
  LRU.recency (LRU.delete lru_abc "b").2 2 = ["c"; "a"].
Proof.
  split; [exact lru_abc_repr|]. split; [reflexivity|].
  destruct (lru_delete_keeps_recency_order lru_abc [2]%nat 1%nat [0]%nat "b" lru_abc_repr)
    as [Hr Hrec]; [reflexivity|].
  split; [exact Hr|]. exact Hrec.
Defined.

Lemma lru_get_moves_to_front_witness :
  LRU.repr lru_abc ([2; 1] ++ 0 :: [])%nat ∧
  Map_get "a" (LRU.cache lru_abc) = Some 0%nat ∧
  LRU.heap lru_abc !! 0%nat = Some (LRU.mkNode "a" 1 (Some 1%nat) None None) ∧
  expired None 7 = false ∧
  (LRU.get lru_abc "a" 7).1 = Some 1 ∧
  LRU.recency (LRU.get lru_abc "a" 7).2 3 = ["a"; "c"; "b"].
Proof.
  split; [exact lru_abc_repr|]. split; [reflexivity|]. split; [reflexivity|].
  split; [reflexivity|].
  destruct (lru_get_moves_to_front lru_abc [2; 1]%nat 0%nat []
              "a" (LRU.mkNode "a" 1 (Some 1%nat) None None) 7 lru_abc_repr)
    as (Hres & _ & _ & Hrec & _); [reflexivity | reflexivity | reflexivity |].
  split; [exact Hres | exact Hrec].
Defined.

Lemma lru_set_then_get_witness :
  LRU.repr lru_abc [2; 1; 0]%nat ∧ 1 ≤ LRU.capacity lru_abc ∧
  ∃ x, LRU.set lru_abc "d" 4 (Some (Fin 10)) 5 = LRU.Returns x ∧
       LRU.entry x "d" = Some (4, Some 15) ∧
       (LRU.get x "d" 14).1 = Some 4.
Proof.
  assert (1 ≤ LRU.capacity lru_abc) as Hcap by (vm_compute; discriminate).
  split; [exact lru_abc_repr|]. split; [exact Hcap|].
  destruct (lru_set_then_get lru_abc [2; 1; 0]%nat "d" 4 (Some (Fin 10)) 5 14
              lru_abc_repr Hcap) as (x & l' & Hset & _ & He & _ & Hget & _).
  exists x. split; [exact Hset|]. split; [exact He | exact Hget].
Defined.

Lemma lru_set_without_overflow_witness :
  LRU.repr lru_abc [2; 1; 0]%nat ∧
  (is_Some (Map_get "a" (LRU.cache lru_abc)) ∨ LRU.size lru_abc < LRU.capacity lru_abc) ∧
  ∃ x, LRU.set lru_abc "a" 9 None 0 = LRU.Returns x ∧
       LRU.entry x "b" = LRU.entry lru_abc "b" ∧
       LRU.recency x (Z.to_nat (LRU.size x)) = ["a"; "c"; "b"] ∧
       LRU.calls x = LRU.calls lru_abc.
Proof.
  assert (is_Some (Map_get "a" (LRU.cache lru_abc)) ∨
          LRU.size lru_abc < LRU.capacity lru_abc) as Hcase.
  { left. vm_compute. by eexists. }
  split; [exact lru_abc_repr|]. split; [exact Hcase|].
  destruct (lru_set_without_overflow lru_abc [2; 1; 0]%nat "a" 9 None 0
              lru_abc_repr Hcase) as (x & Hset & Hother & Hrec & _ & _ & Hcalls & _).
  exists x. split; [exact Hset|]. split; [by apply Hother|].
  split; [exact Hrec | exact Hcalls].
Defined.

Lemma lru_set_overflow_evicts_least_recent_witness :
  LRU.repr lru_abc [2; 1; 0]%nat ∧ 1 ≤ LRU.capacity lru_abc ∧
  Map_get "d" (LRU.cache lru_abc) = None ∧
  LRU.size lru_abc >= LRU.capacity lru_abc ∧
  ∃ x order victim,
    LRU.recency lru_abc (Z.to_nat (LRU.size lru_abc)) = order ++ [victim] ∧
    LRU.set lru_abc "d" 4 None 0 = LRU.Returns x ∧
    LRU.recency x (Z.to_nat (LRU.size x)) = "d" :: order ∧
    LRU.has x victim = false.
Proof.
  assert (1 ≤ LRU.capacity lru_abc) as Hcap by (vm_compute; discriminate).
  assert (LRU.size lru_abc >= LRU.capacity lru_abc) as Hfull by (vm_compute; discriminate).
  split; [exact lru_abc_repr|]. split; [exact Hcap|]. split; [reflexivity|].
  split; [exact Hfull|].
  destruct (lru_set_overflow_evicts_least_recent lru_abc [2; 1; 0]%nat "d" 4 None 0
              lru_abc_repr Hcap) as (x & order & victim & old & Hrec & _ & Hset & Hrec' & Hhas & _);
    [reflexivity | exact Hfull |].
  exists x, order, victim. split_and!; assumption.
Defined.

Lemma lru_iteration_yields_live_entries_witness :
  NoDup (LRU.cache lru_mixed).*1 ∧
  (LRU.keys lru_mixed 100).1 = ["a"; "b"] ∧
  (LRU.entries lru_mixed 100).1 = [("a", 1); ("b", 2)] ∧
  LRU.size (LRU.entriesAscendingInternal lru_mixed 100).2 = 2.
Proof.
  split; [exact lru_mixed_keys|].
  destruct (lru_iteration_yields_live_entries lru_mixed 100 lru_mixed_keys)
    as (_ & _ & Hs & _ & Hk & He & _).
  split; [rewrite Hk; reflexivity|].
  split; [rewrite He; reflexivity | rewrite Hs; reflexivity].
Defined.

Lemma lru_entriesDescending_reverses_entries_witness :
  NoDup (LRU.cache lru_mixed).*1 ∧
  (LRU.entriesDescending lru_mixed 100).1 = reverse (LRU.entries lru_mixed 100).1.
Proof.
  split; [exact lru_mixed_keys|].
  apply (lru_entriesDescending_reverses_entries lru_mixed 100 lru_mixed_keys).
Defined.

Lemma lru_resize_drops_oldest_insertions_witness :
  NoDup (LRU.cache lru_mixed).*1 ∧ 0 < 1 ∧
  ∃ x, LRU.resize lru_mixed 1 100 = LRU.Returns x ∧ (LRU.cache x).*1 = ["b"] ∧
       LRU.size x = 1 ∧ LRU.calls x = [("a", 1)].
Proof.
  split; [exact lru_mixed_keys|]. split; [lia|].
  destruct (lru_resize_drops_oldest_insertions lru_mixed 1 100 lru_mixed_keys)
    as [_ Hpos].
  destruct Hpos as (x & Hres & Hm & Hs & _ & Hcalls & _); [lia|].
  exists x. split; [exact Hres|].
  split; [rewrite Hm; reflexivity|]. split; [rewrite Hs; reflexivity|].
  rewrite Hcalls. reflexivity.
Defined.

Lemma lru_clear_restores_order_witness :
  1 ≤ LRU.capacity lru_resized_full ∧
  ∃ l, LRU.repr (LRU.run (LRU.clear lru_resized_full)
                   [LRU.OpSet "a" 1 None 0; LRU.OpGet "a" 1]) l.
Proof.
  assert (1 ≤ LRU.capacity lru_resized_full) as Hcap by (vm_compute; discriminate).
  split; [exact Hcap|].
  destruct (lru_clear_restores_order lru_resized_full
              [LRU.OpSet "a" 1 None 0; LRU.OpGet "a" 1] Hcap)
    as (_ & _ & _ & _ & _ & _ & l & Hr & _).
  by exists l.
Defined.

Lemma lru_first_set_throws_without_capacity_witness :
  0 ≤ 0 ∧
  ∃ x, LRU.set (LRU.new 0 None false) "a" 1 None 0 = LRU.Throws UnwrapNothing x ∧
       LRU.cache x = [] ∧ LRU.size x = 1.
Proof.
  split; [lia|].
  destruct (lru_first_set_throws_without_capacity 0 None false "a" 1 None 0)
    as (x & Hset & Hm & _ & Hs & _); [lia|].
  exists x. split_and!; assumption.
Defined.
End MoreWitnesses.
